(** * Columnar-transposition cryptanalysis: a shallow embedding

    The development follows [src/transposition/transposition_word.py]
    (crib search with re-encryption check),
    [src/transposition/auto_transpo.py] (trigram-guided beam search) and
    [src/transposition/transposicion.py] (the padded columnar cipher).

    Python strings are lists of code points, Python integers that can be
    negative are [Z], lengths and counters are [nat], and a raised exception
    is a value of the result type [res]. *)

From Stdlib Require Import ZArith Lia Ascii String Floats.
From stdpp Require Import base tactics option list numbers gmap sorting.

Local Open Scope nat_scope.

(** ** Python runtime: exceptions, indexing, slicing, ranges *)

Inductive exn : Type :=
  | IndexError
  | ZeroDivisionError
  | ValueError.

Inductive res (A : Type) : Type :=
  | Ok (a : A)
  | Raise (e : exn).
Arguments Ok {A} a.
Arguments Raise {A} e.

#[global] Instance res_ret : MRet res := λ A a, Ok a.
#[global] Instance res_bind : MBind res := λ A B f m,
  match m with
  | Ok a => f a
  | Raise e => Raise e
  end.

(** A [for] loop whose body may raise: the first exception ends the loop. *)
Fixpoint foldM {A S : Type} (f : S → A → res S) (s : S) (l : list A) : res S :=
  match l with
  | [] => Ok s
  | x :: l' => s' ← f s x; foldM f s' l'
  end.

(** A comprehension whose element expression may raise. *)
Fixpoint mapM_res {A B : Type} (f : A → res B) (l : list A) : res (list B) :=
  match l with
  | [] => Ok []
  | x :: l' => y ← f x; ys ← mapM_res f l'; Ok (y :: ys)
  end.

(** Position denoted by a Python subscript [i] on a sequence of length [len]:
    negative subscripts count from the end, anything else out of range
    raises [IndexError]. *)
Definition py_idx (len : nat) (i : Z) : res nat :=
  if bool_decide (0 ≤ i < Z.of_nat len)%Z then Ok (Z.to_nat i)
  else if bool_decide (- Z.of_nat len ≤ i < 0)%Z then Ok (Z.to_nat (Z.of_nat len + i))
  else Raise IndexError.

Definition getitem {A : Type} (l : list A) (i : Z) : res A :=
  j ← py_idx (length l) i;
  match l !! j with
  | Some x => Ok x
  | None => Raise IndexError
  end.

Definition setitem {A : Type} (l : list A) (i : Z) (x : A) : res (list A) :=
  j ← py_idx (length l) i; Ok (<[j:=x]> l).

(** [s[a:b]] for non-negative bounds. *)
Definition slice {A : Type} (s : list A) (a b : nat) : list A :=
  take (b - a) (drop a s).

(** [s[:b]] for an arbitrary integer bound. *)
Definition slice_to {A : Type} (s : list A) (b : Z) : list A :=
  if bool_decide (b < 0)%Z then take (Z.to_nat (Z.of_nat (length s) + b)) s
  else take (Z.to_nat b) s.

(** [range(a, b)] as a list. *)
Definition py_range (a b : Z) : list Z :=
  (λ i, (a + Z.of_nat i)%Z) <$> seq 0 (Z.to_nat (b - a)).

(** [max(...)] and [min(...)] of a sequence of lengths; both raise
    [ValueError] on an empty sequence. *)
Definition py_max (l : list nat) : res nat :=
  match l with
  | [] => Raise ValueError
  | x :: l' => Ok (foldl Nat.max x l')
  end.

Definition py_min (l : list nat) : res nat :=
  match l with
  | [] => Raise ValueError
  | x :: l' => Ok (foldl Nat.min x l')
  end.

(** Code points of a literal. *)
Definition pystr (s : string) : list N :=
  N_of_ascii <$> list_ascii_of_string s.

(** [w in s] on strings: [w] occurs as a contiguous substring of [s]. *)
Fixpoint empieza_por (w s : list N) : bool :=
  match w, s with
  | [], _ => true
  | _ :: _, [] => false
  | a :: w', b :: s' => bool_decide (a = b) && empieza_por w' s'
  end.

Fixpoint str_in (w s : list N) : bool :=
  empieza_por w s ||
  match s with
  | [] => false
  | _ :: s' => str_in w s'
  end.

(** [list.sort(key=..., reverse=True)]: descending by key, elements whose
    keys do not compare keep the order they had in the input.  [ltb] is the
    [<] of the keys. *)
Section Sort.
Context {A K : Type} (ltb : K → K → bool) (key : A → K).

Fixpoint insert_desc (x : A) (l : list A) : list A :=
  match l with
  | [] => [x]
  | y :: l' => if ltb (key x) (key y) then y :: insert_desc x l' else x :: y :: l'
  end.

Fixpoint sort_desc (l : list A) : list A :=
  match l with
  | [] => []
  | x :: l' => insert_desc x (sort_desc l')
  end.

End Sort.

(** [sorted(..., key=...)]: ascending by key, elements whose keys do not
    compare keep the order they had in the input.  [ltb] is the [<] of the
    keys. *)
Section Sorted.
Context {A K : Type} (ltb : K → K → bool) (key : A → K).

Fixpoint insert_asc (x : A) (l : list A) : list A :=
  match l with
  | [] => [x]
  | y :: l' => if ltb (key y) (key x) then y :: insert_asc x l' else x :: y :: l'
  end.

Fixpoint py_sorted (l : list A) : list A :=
  match l with
  | [] => []
  | x :: l' => insert_asc x (py_sorted l')
  end.

End Sorted.

(** The [<] of two-element tuples: lexicographic. *)
Definition tuple_ltb {A B : Type} `{EqDecision A} (ltA : A → A → bool)
    (ltB : B → B → bool) (p q : A * B) : bool :=
  if bool_decide (p.1 = q.1) then ltB p.2 q.2 else ltA p.1 q.1.

(** [sep.join(parts)] *)
Fixpoint str_join (sep : list N) (parts : list (list N)) : list N :=
  match parts with
  | [] => []
  | [p] => p
  | p :: ps => p ++ sep ++ str_join sep ps
  end.

(** [range(a, b, step)] for non-negative bounds and a positive step. *)
Definition range_step (a b step : nat) : list nat :=
  (λ j, a + step * j) <$> seq 0 ((b - a + step - 1) / step).

(** [string.ascii_uppercase] *)
Definition ascii_uppercase : list N := pystr "ABCDEFGHIJKLMNOPQRSTUVWXYZ".

(** [itertools.permutations(l)]: all orderings of [l], in lexicographic
    order of the positions picked. *)
Fixpoint selections {A : Type} (l : list A) : list (A * list A) :=
  match l with
  | [] => []
  | x :: l' => (x, l') :: ((λ p, (p.1, x :: p.2)) <$> selections l')
  end.

Fixpoint permutations_n {A : Type} (n : nat) (l : list A) : list (list A) :=
  match n with
  | 0 => [[]]
  | S n' => p ← selections l; (p.1 ::.) <$> permutations_n n' p.2
  end.

Definition itertools_permutations {A : Type} (l : list A) : list (list A) :=
  permutations_n (length l) l.

(** The parts of the [unicodedata] and [str] libraries that the normaliser
    calls. *)
Class Unicode : Type := {
  str_upper : list N → list N;
  unicodedata_normalize_NFD : list N → list N;
  unicodedata_category_Mn : N → bool;
}.

(** The letters ['A'..'Z']. *)
Definition is_AZ (ch : N) : bool :=
  bool_decide (65 ≤ ch)%N && bool_decide (ch ≤ 90)%N.

(** What those library functions do on text that is already upper-case
    A-Z: nothing. *)
Class UnicodeAZ (U : Unicode) : Prop := {
  str_upper_AZ : ∀ s, forallb is_AZ s = true → str_upper s = s;
  normalize_NFD_AZ : ∀ s, forallb is_AZ s = true → unicodedata_normalize_NFD s = s;
  category_Mn_AZ : ∀ ch, is_AZ ch = true → unicodedata_category_Mn ch = false;
}.

(** The global generator of the [random] module. [random.seed(a)] replaces
    its state; [random.sample(population, k)] draws and advances it. *)
Class Random : Type := {
  rng : Type;
  random_seed : Z → rng;
  random_sample : rng → list Z → nat → list Z * rng;
}.

(** [random.sample(l, len(l))] is a shuffle of [l]. *)
Class RandomShuffles (R : Random) : Prop := {
  random_sample_all : ∀ g l, (random_sample g l (length l)).1 ≡ₚ l;
}.

(** ** Loops that both programs contain *)

(** The body of the segment loop ([descifrar_por_orden] lines 133-136,
    [asignar_columnas] lines 128-131): column [idx] receives the next
    [longs[idx]] symbols of [C].  The state is [(cols, cursor)]. *)
Definition tomar_segmento (C : list N) (longs : list nat)
    (st : list (list N) * nat) (idx : Z) : res (list (list N) * nat) :=
  L ← getitem longs idx;
  cols ← setitem st.1 idx (slice C st.2 (st.2 + L));
  Ok (cols, st.2 + L).

(** What the body of the row loop appends for row [r] and column [c]
    ([descifrar_por_orden] lines 145-146, [leer_por_filas] lines 139-140). *)
Definition celda (cols : list (list N)) (r c : nat) : list N :=
  match cols !! c with
  | Some col => match col !! r with Some ch => [ch] | None => [] end
  | None => []
  end.

(** The row-major read over [max_rows] rows and [n] columns. *)
Definition leer_filas (cols : list (list N)) (n max_rows : nat) : list N :=
  r ← seq 0 max_rows; c ← seq 0 n; celda cols r c.

(** The body that [keyword_to_order_read] has in both programs, on the
    normalised keyword [w] (lines 94-101 of [transposition_word.py], lines
    206-212 of [auto_transpo.py]): the pairs [(ch, i)] are sorted, [rank[i]]
    receives the position of the pair of [i], counted from 1, and the
    columns are listed by rank. *)
Definition rangos (n : nat) (pares : list (N * nat)) : res (list nat) :=
  st ← foldM (λ (st : list nat * nat) (p : N * nat),
          rank ← setitem st.1 (Z.of_nat p.2) st.2;
          Ok (rank, st.2 + 1))
        (replicate n 0, 1) pares;
  Ok st.1.

Definition orden_de_palabra (w : list N) : res (list nat) :=
  let pares := py_sorted (tuple_ltb N.ltb Nat.ltb) id (imap (λ i ch, (ch, i)) w) in
  rank ← rangos (length w) pares;
  rs ← mapM_res (λ i, r ← getitem rank (Z.of_nat i); Ok (r, i)) (seq 0 (length w));
  Ok (snd <$> py_sorted (tuple_ltb Nat.ltb Nat.ltb) id rs).

(** ** Structural variants *)

Inductive long_rule : Type := Natural | Read.
Inductive col_direction : Type := Down | Up.

#[global] Instance long_rule_eq_dec : EqDecision long_rule.
Proof. solve_decision. Defined.
#[global] Instance col_direction_eq_dec : EqDecision col_direction.
Proof. solve_decision. Defined.

(** ** transposition_word.py *)

Module TranspositionWord.

Section WithUnicode.
Context {U : Unicode}.

(** [normalizar_AZ], lines 45-52. *)
Definition normalizar_AZ (s : list N) : list N :=
  match s with
  | [] => []
  | _ =>
      let s := unicodedata_normalize_NFD (str_upper s) in
      let s := (λ ch, if bool_decide (ch = 209%N) then 78%N else ch) <$> s in
      let s := filter (λ ch, unicodedata_category_Mn ch = false) s in
      filter (λ ch, is_AZ ch = true) s
  end.

(** [longs[i] += 1] *)
Definition incr_item (longs : list nat) (i : Z) : res (list nat) :=
  v ← getitem longs i; setitem longs i (v + 1).

(** [longitudes_columnas], lines 106-116. [divmod] by zero raises. *)
Definition longitudes_columnas (N ncols : nat) (order_read0 : list Z)
    (rule : long_rule) : res (list nat) :=
  if bool_decide (ncols = 0) then Raise ZeroDivisionError else
  let q := N / ncols in
  let r := N mod ncols in
  let longs := replicate ncols q in
  if bool_decide (0 < r) then
    match rule with
    | Read =>
        foldM (λ longs j, i ← getitem order_read0 (Z.of_nat j); incr_item longs i)
              longs (seq 0 r)
    | Natural =>
        foldM (λ longs j, incr_item longs (Z.of_nat j)) longs (seq 0 r)
    end
  else Ok longs.

(** The segment loop of [descifrar_por_orden], lines 131-136. *)
Definition asignar (C : list N) (longs : list nat) (n : nat) (order0 : list Z)
    : res (list (list N)) :=
  st ← foldM (tomar_segmento C longs) (replicate n [], 0) order0;
  Ok st.1.

(** [descifrar_por_orden], lines 121-147. *)
Definition descifrar_por_orden (ciphertext : list N) (read_order_1based : list Z)
    (rule : long_rule) (dir : col_direction) : res (list N) :=
  let C := normalizar_AZ ciphertext in
  let n := length read_order_1based in
  let order0 := (λ i, i - 1)%Z <$> read_order_1based in
  longs ← longitudes_columnas (length C) n order0 rule;
  cols ← asignar C longs n order0;
  let cols := match dir with Up => reverse <$> cols | Down => cols end in
  max_rows ← py_max (length <$> cols);
  Ok (leer_filas cols n max_rows).

(** The distribution loop of [cifrar_por_orden_var], lines 156-160. *)
Definition repartir (P : list N) (n : nat) : res (list (list N)) :=
  st ← foldM (λ (st : list (list N) * nat) ch,
          col ← getitem st.1 (Z.of_nat st.2);
          cols ← setitem st.1 (Z.of_nat st.2) (col ++ [ch]);
          Ok (cols, (st.2 + 1) mod n))
        (replicate n [], 0) P;
  Ok st.1.

(** [cifrar_por_orden_var], lines 149-168. *)
Definition cifrar_por_orden_var (plaintext : list N) (read_order_1based : list Z)
    (dir : col_direction) : res (list N) :=
  let P := normalizar_AZ plaintext in
  let n := length read_order_1based in
  let order0 := (λ i, i - 1)%Z <$> read_order_1based in
  cols ← repartir P n;
  let cols := match dir with Up => reverse <$> cols | Down => cols end in
  foldM (λ out j, col ← getitem cols j; Ok (out ++ col)) [] order0.

(** A solution tuple [(order1, long_rule, col_dir, plain)]. *)
Definition solucion : Type := list Z * long_rule * col_direction * list N.

(** The two nested loops of [probar_perm] run over the variants
    [(long_rule, col_dir)] in this order. *)
Definition variantes (long_rule_opts : list long_rule)
    (col_dir_opts : list col_direction) : list (long_rule * col_direction) :=
  lr ← long_rule_opts; cd ← col_dir_opts; [(lr, cd)].

(** The loops of [probar_perm], lines 181-190, with the list of solutions
    gathered so far. *)
Fixpoint probar_variantes (cipher : list N) (order1 : list Z) (crib : list N)
    (stopfirst : bool) (vs : list (long_rule * col_direction))
    (soluciones : list solucion) : res (list solucion) :=
  match vs with
  | [] => Ok soluciones
  | (lr, cd) :: vs' =>
      plain ← descifrar_por_orden cipher order1 lr cd;
      if str_in crib plain then
        rec ← cifrar_por_orden_var plain order1 cd;
        if bool_decide (rec = normalizar_AZ cipher) then
          let soluciones := soluciones ++ [(order1, lr, cd, plain)] in
          if stopfirst then Ok soluciones
          else probar_variantes cipher order1 crib stopfirst vs' soluciones
        else probar_variantes cipher order1 crib stopfirst vs' soluciones
      else probar_variantes cipher order1 crib stopfirst vs' soluciones
  end.

(** [probar_perm], lines 173-190. *)
Definition probar_perm (cipher : list N) (order1 : list Z) (crib : list N)
    (long_rule_opts : list long_rule) (col_dir_opts : list col_direction)
    (stopfirst : bool) : res (list solucion) :=
  probar_variantes cipher order1 crib stopfirst
    (variantes long_rule_opts col_dir_opts) [].

(** [keyword_to_order_read], lines 92-101. *)
Definition keyword_to_order_read (keyword : list N) : res (list nat) :=
  orden_de_palabra (normalizar_AZ keyword).

(** The body of case 2 of [main], lines 321-323: the read order comes from
    a keyword.  It runs under the guard of line 320, see [buscar_sin_orden]. *)
Definition probar_keyword (C W keyword : list N) (long_rules : list long_rule)
    (col_dirs : list col_direction) (stopfirst : bool) : res (list solucion) :=
  order0 ← keyword_to_order_read keyword;
  let order1 := (λ i, Z.of_nat i + 1)%Z <$> order0 in
  probar_perm C order1 W long_rules col_dirs stopfirst.

(** The verification line that [guardar_salida] writes for a solution,
    lines 239-240: [true] stands for the answer SI, [false] for NO. *)
Definition recifrado_correcto (cipher : list N) (s : solucion) : res bool :=
  let '(order1, _, col_dir, plain) := s in
  rec ← cifrar_por_orden_var plain order1 col_dir;
  Ok (bool_decide (rec = normalizar_AZ cipher)).

Section WithRandom.
Context {R : Random}.

(** [maxperms] draws of [random.sample(elems, k)], one after the other. *)
Fixpoint muestras (g : rng) (elems : list Z) (k : nat) (m : nat) : list (list Z) :=
  match m with
  | 0 => []
  | S m' => let d := random_sample g elems k in d.1 :: muestras d.2 elems k m'
  end.

(** The candidate sequence [perms] of [explorar_permutaciones], lines
    201-211.  [g] is the state of the global generator on entry: the
    exhaustive branch does not touch it and the sampling branch replaces it
    by [random.seed(42)] before the first draw. *)
Definition perms (g : rng) (k : Z) (maxperms : Z) : list (list Z) :=
  let elems := py_range 1 (k + 1) in
  let total := foldl Z.mul 1%Z (py_range 2 (k + 1)) in
  if bool_decide (total ≤ maxperms)%Z then itertools_permutations elems
  else
    let g := random_seed 42 in
    muestras g elems (Z.to_nat k) (Z.to_nat maxperms).

(** The loop over [perms], lines 213-218. *)
Fixpoint explorar_bucle (cipher : list N) (crib : list N)
    (long_rules : list long_rule) (col_dirs : list col_direction)
    (stopfirst : bool) (ps : list (list Z)) (soluciones : list solucion)
    : res (list solucion) :=
  match ps with
  | [] => Ok soluciones
  | order1 :: ps' =>
      sols ← probar_perm cipher order1 crib long_rules col_dirs stopfirst;
      match sols with
      | [] => explorar_bucle cipher crib long_rules col_dirs stopfirst ps' soluciones
      | _ =>
          let soluciones := soluciones ++ sols in
          if stopfirst then Ok soluciones
          else explorar_bucle cipher crib long_rules col_dirs stopfirst ps' soluciones
      end
  end.

(** [explorar_permutaciones], lines 192-219. *)
Definition explorar_permutaciones (g : rng) (cipher : list N) (k : Z)
    (crib : list N) (long_rules : list long_rule) (col_dirs : list col_direction)
    (stopfirst : bool) (maxperms : Z) : res (list solucion) :=
  explorar_bucle cipher crib long_rules col_dirs stopfirst (perms g k maxperms) [].

(** The sweep over [kmin..kmax] of [main], lines 327-333, on the
    normalised cryptogram [C] and crib [W]. *)
Fixpoint barrer_k (g : rng) (C W : list N) (long_rules : list long_rule)
    (col_dirs : list col_direction) (stopfirst : bool) (maxperms : Z)
    (ks : list Z) (soluciones : list solucion) : res (list solucion) :=
  match ks with
  | [] => Ok soluciones
  | k :: ks' =>
      sols ← explorar_permutaciones g C k W long_rules col_dirs stopfirst maxperms;
      match sols with
      | [] => barrer_k g C W long_rules col_dirs stopfirst maxperms ks' soluciones
      | _ =>
          let soluciones := soluciones ++ sols in
          if stopfirst then Ok soluciones
          else barrer_k g C W long_rules col_dirs stopfirst maxperms ks' soluciones
      end
  end.

(** The open-ended search of [main] (case 3, lines 326-333). *)
Definition buscar_crib (g : rng) (C W : list N) (kmin kmax : Z)
    (long_rules : list long_rule) (col_dirs : list col_direction)
    (stopfirst : bool) (maxperms : Z) : res (list solucion) :=
  barrer_k g C W long_rules col_dirs stopfirst maxperms
    (py_range kmin (kmax + 1)) [].

(** Cases 2 and 3 of [main], lines 320-333, reached when [args.order] is
    absent or empty.  [keyword] is [args.keyword], [None] when the option is
    not given; the guard [elif args.keyword:] of line 320 holds for a
    non-empty string only. *)
Definition buscar_sin_orden (g : rng) (C W : list N) (keyword : option (list N))
    (kmin kmax : Z) (long_rules : list long_rule) (col_dirs : list col_direction)
    (stopfirst : bool) (maxperms : Z) : res (list solucion) :=
  match keyword with
  | Some (c :: kw) => probar_keyword C W (c :: kw) long_rules col_dirs stopfirst
  | _ => buscar_crib g C W kmin kmax long_rules col_dirs stopfirst maxperms
  end.

End WithRandom.
End WithUnicode.
End TranspositionWord.

(** ** auto_transpo.py *)

(** The scoring model: the float arithmetic that the search uses and the
    trigram table [TRI] with its floor [TRI_DEF] (module globals of
    [auto_transpo.py]).  Nothing is assumed about the arithmetic. *)
Class Scoring : Type := {
  score : Type;
  score_zero : score;                    (* 0.0 *)
  score_sentinel : score;                (* -1e9 *)
  score_add : score → score → score;     (* float + float *)
  score_div : score → nat → score;       (* float / int, int > 0 *)
  score_ltb : score → score → bool;      (* float < float *)
  TRI : gmap (list N) score;
  TRI_DEF : score;
}.

Module AutoTranspo.

Section WithScoring.
Context {M : Scoring}.

(** [x / n] raises on [n = 0]. *)
Definition py_div (x : score) (n : nat) : res score :=
  if bool_decide (n = 0) then Raise ZeroDivisionError else Ok (score_div x n).

(** [score_text], lines 107-114. *)
Definition score_text (s : list N) : score :=
  if bool_decide (length s < 3) then score_sentinel
  else
    foldl (λ total i, score_add total (default TRI_DEF (TRI !! slice s i (i + 3))))
          score_zero (seq 0 (length s - 2)).

(** [longitudes_columnas], lines 120-122. *)
Definition longitudes_columnas (N n : nat) : res (list nat) :=
  if bool_decide (n = 0) then Raise ZeroDivisionError else
  let q := N / n in
  let r := N mod n in
  Ok ((λ i, q + (if bool_decide (i < r) then 1 else 0)) <$> seq 0 n).

(** [asignar_columnas], lines 124-132. *)
Definition asignar_columnas (cipher : list N) (n : nat) (orden_0 : list Z)
    : res (list (list N)) :=
  longs ← longitudes_columnas (length cipher) n;
  st ← foldM (tomar_segmento cipher longs) (replicate n [], 0) orden_0;
  Ok st.1.

(** [leer_por_filas], lines 134-141. *)
Definition leer_por_filas (cols : list (list N)) : res (list N) :=
  maxlen ← py_max (length <$> cols);
  Ok (leer_filas cols (length cols) maxlen).

(** A beam state [(orden, cols, cursor, punt)]. *)
Definition estado : Type := list nat * list (list N) * nat * score.

Definition punt_de (e : estado) : score := e.2.

(** [min(len(cols2[i]) for i in orden2)] *)
Definition min_filas (cols2 : list (list N)) (orden2 : list nat) : res nat :=
  ls ← mapM_res (λ i, col ← getitem cols2 (Z.of_nat i); Ok (length col)) orden2;
  py_min ls.

(** The partial reconstruction, lines 168-172: [cols2[c][r]] for every row
    below [min_rows] and every column of [range(n)]. *)
Definition parcial_de (cols2 : list (list N)) (n min_rows : nat) : res (list N) :=
  mapM_res (λ rc : nat * nat,
              col ← getitem cols2 (Z.of_nat rc.2); getitem col (Z.of_nat rc.1))
           (r ← seq 0 min_rows; c ← seq 0 n; [(r, c)]).

(** One extension of a state by the column [idx], lines 159-175. *)
Definition extender_con (cipher : list N) (n : nat) (longs : list nat)
    (e : estado) (idx : nat) : res estado :=
  let '(orden, cols, cursor, punt) := e in
  L ← getitem longs (Z.of_nat idx);
  let seg := slice cipher cursor (cursor + L) in
  cols2 ← setitem cols (Z.of_nat idx) seg;
  let orden2 := orden ++ [idx] in
  min_rows ← min_filas cols2 orden2;
  parcial ← parcial_de cols2 n min_rows;
  let pscore := score_div (score_text parcial) (Nat.max 1 (length parcial)) in
  Ok (orden2, cols2, cursor + L, score_add punt pscore).

(** All extensions of one state, in the order they are generated. *)
Definition extender (cipher : list N) (n : nat) (longs : list nat)
    (e : estado) : res (list estado) :=
  let restantes := filter (λ i, i ∉ e.1.1.1) (seq 0 n) in
  mapM_res (extender_con cipher n longs e) restantes.

(** The pruning of one step, lines 177-178. *)
Definition podar (beam : Z) (nuevos : list estado) : list estado :=
  slice_to (sort_desc score_ltb punt_de nuevos) beam.

(** One iteration of the loop over [paso], lines 155-178. *)
Definition paso_haz (cipher : list N) (n : nat) (longs : list nat) (beam : Z)
    (estados : list estado) : res (list estado) :=
  nuevos ← mapM_res (extender cipher n longs) estados;
  Ok (podar beam (concat nuevos)).

(** A final hypothesis [(score, orden, plain)]. *)
Definition final : Type := score * list nat * list N.

(** The scoring of a surviving state, lines 181-182. *)
Definition finalizar (e : estado) : res final :=
  plain ← leer_por_filas e.1.1.2;
  sc ← py_div (score_text plain) (length plain);
  Ok (sc, e.1.1.1, plain).

(** [beam_search], lines 147-185. *)
Definition beam_search (cipher : list N) (n : nat) (beam : Z) (topk : Z)
    : res (list final) :=
  longs ← longitudes_columnas (length cipher) n;
  estados ← foldM (λ estados _, paso_haz cipher n longs beam estados)
                   [([], replicate n [], 0, score_zero)] (seq 0 n);
  finales ← mapM_res finalizar estados;
  Ok (slice_to (sort_desc score_ltb (λ x : final, x.1.1) finales) topk).

(** A candidate [(score, n, orden, plain)] of the sweep. *)
Definition candidato : Type := score * Z * list nat * list N.

(** The body of the loop of [search_n], lines 190-196. *)
Definition search_n_paso (cipher : list N) (beam kbest : Z)
    (candidatos : list candidato) (n : Z) : res (list candidato) :=
  if bool_decide (n < 2)%Z then Ok candidatos else
  longs ← longitudes_columnas (length cipher) (Z.to_nat n);
  m ← py_min longs;
  if bool_decide (m < 3) then Ok candidatos else
  rs ← beam_search cipher (Z.to_nat n) beam kbest;
  Ok (candidatos ++ ((λ x : final, (x.1.1, n, x.1.2, x.2)) <$> rs)).

(** [search_n], lines 187-198. *)
Definition search_n (cipher : list N) (nmin nmax : Z) (beam kbest : Z)
    : res (list candidato) :=
  candidatos ← foldM (search_n_paso cipher beam kbest) [] (py_range nmin (nmax + 1));
  Ok (slice_to (sort_desc score_ltb (λ x : candidato, x.1.1.1) candidatos) kbest).

(** The exhaustive scorer that the beam search is compared with: every
    permutation of the [n] columns is decoded with [asignar_columnas] and
    [leer_por_filas], scored with [score_text] over its length, and the
    hypotheses are ranked by that score. *)
Definition fuerza_bruta (cipher : list N) (n : nat) : res (list final) :=
  finales ← mapM_res (λ orden,
      cols ← asignar_columnas cipher n (Z.of_nat <$> orden);
      plain ← leer_por_filas cols;
      sc ← py_div (score_text plain) (length plain);
      Ok (sc, orden, plain)) (itertools_permutations (seq 0 n));
  Ok (sort_desc score_ltb (λ x : final, x.1.1) finales).

End WithScoring.

(** [group5], lines 64-65. *)
Definition group5 (s : list N) : list N :=
  str_join [32%N] ((λ i, slice s i (i + 5)) <$> range_step 0 (length s) 5).

(** The direct decoding of [main] for a given order, lines 282-283 and
    293-294. *)
Definition descifrado_directo (cipher : list N) (orden : list Z) : res (list N) :=
  cols ← asignar_columnas cipher (length orden) orden;
  leer_por_filas cols.

Section WithUnicode.
Context {U : Unicode}.

(** [normalizar], lines 37-42. *)
Definition normalizar (texto : list N) : list N :=
  let t := unicodedata_normalize_NFD texto in
  let t := filter (λ ch, unicodedata_category_Mn ch = false) t in
  let t := str_upper t in
  filter (λ ch, str_in [ch] ascii_uppercase = true) t.

(** [keyword_to_order_read], lines 204-212. *)
Definition keyword_to_order_read (keyword : list N) : res (list nat) :=
  orden_de_palabra (normalizar keyword).

End WithUnicode.

(** The three-letter strings over [string.ascii_uppercase], in the order
    of the nested loops of lines 97-99. *)
Definition trigramas_AZ : list (list N) :=
  a ← ascii_uppercase; b ← ascii_uppercase; c ← ascii_uppercase; [[a; b; c]].

(** The list [comunes] of line 96. *)
Definition comunes : list (list N) :=
  pystr <$> ["QUE"; "ENT"; "LOS"; "LAS"; "EST"; "NTE"; "CON"; "PAR"; "ARA";
             "ION"; "ADO"]%string.

(** [cargar_trigramas(None)], the call of line 105: no file is read, the
    table stays empty until the fallback of lines 94-103 fills it. *)
Definition cargar_trigramas_None : gmap (list N) float * float :=
  let base := (-9)%float in
  let tabla := foldl (λ tabla tri, <[tri := base]> tabla) ∅ trigramas_AZ in
  let tabla := foldl (λ tabla tri, <[tri := (-2.5)%float]> tabla) tabla comunes in
  (tabla, (-10.5)%float).

End AutoTranspo.

(** ** transposicion.py *)

(** The exceptions of this program: those of the runtime above and the
    [KeyError] of a dictionary subscript. *)
Inductive exn_dict : Type :=
  | KeyError
  | Runtime (e : exn).

Inductive resd (A : Type) : Type :=
  | OkD (a : A)
  | RaiseD (e : exn_dict).
Arguments OkD {A} a.
Arguments RaiseD {A} e.

#[global] Instance resd_ret : MRet resd := λ A a, OkD a.
#[global] Instance resd_bind : MBind resd := λ A B f m,
  match m with
  | OkD a => f a
  | RaiseD e => RaiseD e
  end.

(** A list or string operation inside this program. *)
Definition de_res {A : Type} (r : res A) : resd A :=
  match r with
  | Ok a => OkD a
  | Raise e => RaiseD (Runtime e)
  end.

(** [d[k]] on a dictionary. *)
Definition dict_getitem {K V : Type} `{Countable K} (d : gmap K V) (k : K) : resd V :=
  match d !! k with
  | Some v => OkD v
  | None => RaiseD KeyError
  end.

Fixpoint foldMD {A S : Type} (f : S → A → resd S) (s : S) (l : list A) : resd S :=
  match l with
  | [] => OkD s
  | x :: l' => s' ← f s x; foldMD f s' l'
  end.

Fixpoint mapM_resd {A B : Type} (f : A → resd B) (l : list A) : resd (list B) :=
  match l with
  | [] => OkD []
  | x :: l' => y ← f x; ys ← mapM_resd f l'; OkD (y :: ys)
  end.

Module Transposicion.

(** [sorted(range(columnas), key=lambda k: clave_num[k])], lines 91 and
    106: [k] runs over the positions of [clave_num], so the subscript is
    always in range. *)
Definition orden_de_clave (clave_num : list nat) : list nat :=
  py_sorted Nat.ltb (λ k, default 0 (clave_num !! k)) (seq 0 (length clave_num)).

(** [agrupar_5], lines 73-74. *)
Definition agrupar_5 (t : list N) : list N :=
  str_join [32%N] ((λ i, slice t i (i + 5)) <$> range_step 0 (length t) 5).

(** [cifrar_columnar], lines 80-95. *)
Definition cifrar_columnar (texto : list N) (clave_num : list nat) : res (list N) :=
  let columnas := length clave_num in
  if bool_decide (columnas = 0) then Raise ZeroDivisionError else
  let filas := Z.to_nat (- (- Z.of_nat (length texto) / Z.of_nat columnas)) in
  let texto := texto ++ replicate (filas * columnas - length texto) 88%N in
  let matriz := (λ i, slice texto i (i + columnas)) <$> range_step 0 (length texto) columnas in
  let orden := orden_de_clave clave_num in
  mapM_res (λ cf : nat * nat,
              fila ← getitem matriz (Z.of_nat cf.2); getitem fila (Z.of_nat cf.1))
           (c ← orden; f ← seq 0 filas; [(c, f)]).

Section WithUnicode.
Context {U : Unicode}.

(** [normalizar_AZ], lines 44-49. *)
Definition normalizar_AZ (texto : list N) : list N :=
  let t := (λ ch, if bool_decide (ch = 209%N) then 78%N else ch) <$> str_upper texto in
  let t := unicodedata_normalize_NFD t in
  let t := filter (λ ch, unicodedata_category_Mn ch = false) t in
  filter (λ ch, is_AZ ch = true) t.

(** [derivar_clave_numerica], lines 55-67. *)
Definition derivar_clave_numerica (clave : list N) : resd (list nat) :=
  let clave := normalizar_AZ clave in
  let ordenados := py_sorted (tuple_ltb N.ltb Nat.ltb) id (imap (λ idx letra, (letra, idx)) clave) in
  let st := foldl (λ (st : gmap (N * nat) nat * nat) p, (<[p := st.2]> st.1, st.2 + 1))
                  (∅, 1) ordenados in
  mapM_resd (dict_getitem st.1) (imap (λ idx letra, (letra, idx)) clave).

(** The body of the two nested loops of [descifrar_columnar], line 120:
    [matriz[f][col] = contenido[col][f]]. *)
Definition colocar_celda (contenido : gmap nat (list N)) (matriz : list (list (list N)))
    (cf : nat * nat) : resd (list (list (list N))) :=
  seg ← dict_getitem contenido cf.1;
  ch ← de_res (getitem seg (Z.of_nat cf.2));
  fila ← de_res (getitem matriz (Z.of_nat cf.2));
  fila' ← de_res (setitem fila (Z.of_nat cf.1) [ch]);
  de_res (setitem matriz (Z.of_nat cf.2) fila').

(** [descifrar_columnar], lines 101-123. *)
Definition descifrar_columnar (texto_cifrado : list N) (clave_num : list nat)
    : resd (list N) :=
  let texto_cifrado := normalizar_AZ texto_cifrado in
  let columnas := length clave_num in
  if bool_decide (columnas = 0) then RaiseD (Runtime ZeroDivisionError) else
  let filas := length texto_cifrado / columnas in
  let orden := orden_de_clave clave_num in
  let col_len := filas in
  let st := foldl (λ (st : gmap nat (list N) * nat) col,
                     (<[col := slice texto_cifrado st.2 (st.2 + col_len)]> st.1,
                      st.2 + col_len))
                  (∅, 0) orden in
  let contenido := st.1 in
  let matriz : list (list (list N)) := replicate filas (replicate columnas []) in
  matriz' ← foldMD (colocar_celda contenido) matriz
              (col ← seq 0 columnas; f ← seq 0 filas; [(col, f)]);
  OkD (concat ((λ fila : list (list N), concat fila) <$> matriz')).

End WithUnicode.
End Transposicion.

(** ** Read orders *)

(** A read order in 0-based form: every column index of [0..k-1] once. *)
Definition valid_order0 (k : nat) (order0 : list Z) : Prop :=
  order0 ≡ₚ Z.of_nat <$> seq 0 k.

(** A read order in 1-based form: a permutation of [1..k]. *)
Definition valid_order1 (k : nat) (order1 : list Z) : Prop :=
  order1 ≡ₚ Z.of_nat <$> seq 1 k.

#[global] Instance valid_order0_dec (k : nat) (order0 : list Z) :
  Decision (valid_order0 k order0).
Proof. unfold valid_order0. apply _. Defined.

#[global] Instance valid_order1_dec (k : nat) (order1 : list Z) :
  Decision (valid_order1 k order1).
Proof. unfold valid_order1. apply _. Defined.

(** ** Concrete instances used in the examples *)

(** A normaliser library restricted to 7-bit text: upper-casing of
    ['a'..'z'], no decomposition, no combining marks. *)
Definition ascii_unicode : Unicode := {|
  str_upper := fmap (λ ch, if bool_decide (97 ≤ ch)%N && bool_decide (ch ≤ 122)%N
                           then (ch - 32)%N else ch);
  unicodedata_normalize_NFD := id;
  unicodedata_category_Mn := λ _, false;
|}.

(** A generator whose state is a counter and whose shuffle rotates the
    population by it. *)
Definition rotating_random : Random := {|
  rng := nat;
  random_seed := Z.to_nat;
  random_sample := λ g l k, (take k (rotate g l), S g);
|}.

(** Exact scores in tenths, with a table of four trigrams at the value
    that the fallback of [cargar_trigramas] gives to common ones (-2.5) and
    its floor (-10.5). *)
Definition toy_scoring : Scoring := {|
  score := Z;
  score_zero := 0%Z;
  score_sentinel := (-10000000000)%Z;
  score_add := Z.add;
  score_div := λ x n, (x / Z.of_nat n)%Z;
  score_ltb := Z.ltb;
  TRI := list_to_map [(pystr "QUE", (-25)%Z); (pystr "ENT", (-25)%Z);
                      (pystr "LOS", (-25)%Z); (pystr "THE", (-25)%Z)];
  TRI_DEF := (-105)%Z;
|}.

(** The program as it starts: binary64 arithmetic and the globals
    [TRI, TRI_DEF = cargar_trigramas(None)] of line 105.  A length is
    converted to a float as Python converts an [int] below 2^63. *)
Definition float_of_nat (n : nat) : float :=
  PrimFloat.of_uint63 (Uint63.of_Z (Z.of_nat n)).

Definition float_scoring : Scoring := {|
  score := float;
  score_zero := 0%float;
  score_sentinel := (-1e9)%float;
  score_add := PrimFloat.add;
  score_div := λ x n, PrimFloat.div x (float_of_nat n);
  score_ltb := PrimFloat.ltb;
  TRI := AutoTranspo.cargar_trigramas_None.1;
  TRI_DEF := AutoTranspo.cargar_trigramas_None.2;
|}.

(** ** Reference geometries *)

(** The lengths under the natural rule: the first [N mod k] columns are one
    longer. *)
Definition longs_natural (N k : nat) : list nat :=
  (λ i, N / k + (if bool_decide (i < N mod k) then 1 else 0)) <$> seq 0 k.

(** The lengths when exactly the columns listed in [idxs] are one longer. *)
Definition longs_con (q k : nat) (idxs : list nat) : list nat :=
  (λ i, q + (if bool_decide (i ∈ idxs) then 1 else 0)) <$> seq 0 k.

(** How many columns have the length [L]. *)
Definition cuantas (L : nat) (longs : list nat) : nat :=
  length (filter (λ x, x = L) longs).

(** ** Reference constructions for the decoder *)

(** Consecutive segments of [C] of the lengths [ls], from position [cur]. *)
Fixpoint cortar (C : list N) (cur : nat) (ls : list nat) : list (list N) :=
  match ls with
  | [] => []
  | L :: ls' => slice C cur (cur + L) :: cortar C (cur + L) ls'
  end.

(** Column [idxs[j]] receives the segment [segs[j]]. *)
Definition colocar (cols0 : list (list N)) (idxs : list nat)
    (segs : list (list N)) : list (list N) :=
  foldl (λ cols p, <[p.1 := p.2]> cols) cols0 (zip idxs segs).

(** [cols] is the cyclic distribution of [P] over [n] columns: the symbol
    at row [r] of column [c] is [P[r * n + c]]. *)
Definition es_reparto (P : list N) (n : nat) (cols : list (list N)) : Prop :=
  length cols = n ∧
  ∀ c col, cols !! c = Some col → ∀ r, col !! r = P !! (r * n + c).

(** What [cifrar_por_orden_var] does to the columns before reading them. *)
Definition orientar (dir : col_direction) (cols : list (list N)) : list (list N) :=
  match dir with
  | Up => reverse <$> cols
  | Down => cols
  end.

#[global] Instance exn_eq_dec : EqDecision exn.
Proof. solve_decision. Defined.

#[global] Instance res_eq_dec {A : Type} `{EqDecision A} : EqDecision (res A).
Proof. solve_decision. Defined.

(** The test that [probar_perm] applies to one variant: the solution tuple
    when the crib occurs in the decoded text and the re-encryption is the
    normalised cryptogram, nothing otherwise. *)
Definition acepta {U : Unicode} (cipher : list N) (order1 : list Z) (crib : list N)
    (v : long_rule * col_direction) : option TranspositionWord.solucion :=
  match TranspositionWord.descifrar_por_orden cipher order1 v.1 v.2 with
  | Ok plain =>
      if str_in crib plain
         && bool_decide (TranspositionWord.cifrar_por_orden_var plain order1 v.2
                         = Ok (TranspositionWord.normalizar_AZ cipher))
      then Some (order1, v.1, v.2, plain)
      else None
  | Raise _ => None
  end.

(** ** Reference notions for subscripts *)

(** A subscript that a sequence of length [k] accepts. *)
Definition en_rango (k : nat) (i : Z) : Prop :=
  (- Z.of_nat k ≤ i < Z.of_nat k)%Z.

(** The non-negative subscript that denotes the same position: a negative
    subscript in range counts from the end. *)
Definition envolver (k : nat) (i : Z) : Z :=
  if bool_decide (- Z.of_nat k ≤ i < 0)%Z then (Z.of_nat k + i)%Z else i.

(** An entry of a 1-based read order whose subscript [i - 1] is accepted. *)
Definition entrada_valida (k : nat) (i : Z) : Prop :=
  (1 - Z.of_nat k ≤ i ≤ Z.of_nat k)%Z.

(** The entry of [1..k] that denotes the same column. *)
Definition envolver1 (k : nat) (i : Z) : Z :=
  (envolver k (i - 1) + 1)%Z.

(** ** Reference notion for keyword orders *)

(** [order0] lists the columns of the word [w] by letter, columns with the
    same letter from left to right. *)
Definition es_orden_de (w : list N) (order0 : list nat) : Prop :=
  order0 ≡ₚ seq 0 (length w) ∧
  ∀ a b i j x y, a < b → order0 !! a = Some i → order0 !! b = Some j →
    w !! i = Some x → w !! j = Some y → (x < y)%N ∨ (x = y ∧ i < j).

(** Every candidate of the sweep over the column counts [ks] that passes
    the two tests of [probar_perm], in the order in which the sweep meets
    them. *)
Definition aceptadas {U : Unicode} {R : Random} (g : rng) (C W : list N)
    (long_rules : list long_rule) (col_dirs : list col_direction) (maxperms : Z)
    (ks : list Z) : list TranspositionWord.solucion :=
  k ← ks; order1 ← TranspositionWord.perms g k maxperms;
  omap (acepta C order1 W) (TranspositionWord.variantes long_rules col_dirs).

(** ** Reference notions for the search of [auto_transpo.py] *)

(** The overlapping three-symbol windows of a text, left to right. *)
Fixpoint ventanas (s : list N) : list (list N) :=
  match s with
  | a :: ((b :: c :: _) as t) => [a; b; c] :: ventanas t
  | _ => []
  end.

(** A column count that [search_n] passes over: below 2, or with a shortest
    column of fewer than 3 symbols. *)
Definition sin_geometria (cipher : list N) (n : Z) : Prop :=
  (n < 2)%Z ∨
  ∃ longs m,
    AutoTranspo.longitudes_columnas (length cipher) (Z.to_nat n) = Ok longs ∧
    py_min longs = Ok m ∧ m < 3.

(** The comparison [ltb] is a strict weak order on the keys of the list
    [l]: what a sort by comparisons needs of the keys it is given.  [<] on
    binary64 has this property on every list without NaN. *)
Definition orden_debil_en {K : Type} (ltb : K → K → bool) (l : list K) : Prop :=
  (∀ a b, a ∈ l → b ∈ l → ltb a b = true → ltb b a = false) ∧
  (∀ a b c, a ∈ l → b ∈ l → c ∈ l →
     ltb a b = false → ltb b c = false → ltb a c = false).



Section SortSpec.
Context {A K : Type} (ltb : K → K → bool) (key : A → K).


(** No element is followed, anywhere later, by one with a greater key. *)
Definition descendente (l : list A) : Prop :=
  ∀ i j x y, i < j → l !! i = Some x → l !! j = Some y → ltb (key x) (key y) = false.


End SortSpec.

(** Three generated states with the scores -5, -3, -5, for the examples. *)
Definition tres_estados : list (@AutoTranspo.estado toy_scoring) :=
  [([0], [[]], 0, (-5)%Z); ([1], [[]], 0, (-3)%Z); ([2], [[]], 0, (-5)%Z)].

(** Two surviving states with the accumulated scores 0.0 and 1.0 over the
    cryptogram AB in two columns, for the examples. *)
Definition dos_estados : list (@AutoTranspo.estado float_scoring) :=
  [([], [[65%N]; [66%N]], 0, 0%float); ([], [[65%N]; [66%N]], 0, 1%float)].
(** * Proofs *)

(** ** The Python runtime *)

Lemma foldM_app {A S : Type} (f : S → A → res S) (s : S) (l1 l2 : list A) :
  foldM f s (l1 ++ l2) = (s' ← foldM f s l1; foldM f s' l2).
Proof.
  revert s. induction l1 as [|x l1 IH]; intros s; simpl; [done|].
  destruct (f s x) as [s'|e]; simpl; [apply IH|done].
Qed.

Lemma py_idx_nat (len i : nat) : i < len → py_idx len (Z.of_nat i) = Ok i.
Proof.
  intros Hi. unfold py_idx. rewrite bool_decide_eq_true_2 by lia.
  by rewrite Nat2Z.id.
Qed.

Lemma py_idx_nat_ge (len i : nat) : len ≤ i → py_idx len (Z.of_nat i) = Raise IndexError.
Proof.
  intros Hi. unfold py_idx.
  rewrite bool_decide_eq_false_2 by lia. by rewrite bool_decide_eq_false_2 by lia.
Qed.

Lemma getitem_nat {A : Type} (l : list A) (i : nat) (x : A) :
  l !! i = Some x → getitem l (Z.of_nat i) = Ok x.
Proof.
  intros Hx. unfold getitem. rewrite py_idx_nat by (by eapply lookup_lt_Some).
  simpl. by rewrite Hx.
Qed.

Lemma getitem_nat_ge {A : Type} (l : list A) (i : nat) :
  length l ≤ i → getitem l (Z.of_nat i) = Raise IndexError.
Proof. intros Hi. unfold getitem. by rewrite py_idx_nat_ge. Qed.

Lemma setitem_nat {A : Type} (l : list A) (i : nat) (x : A) :
  i < length l → setitem l (Z.of_nat i) x = Ok (<[i:=x]> l).
Proof. intros Hi. unfold setitem. by rewrite py_idx_nat. Qed.

Lemma py_range_nat (a n : nat) :
  py_range (Z.of_nat a) (Z.of_nat (a + n)) = Z.of_nat <$> seq a n.
Proof.
  unfold py_range. replace (Z.to_nat _) with n by lia.
  apply list_eq. intros i. rewrite !list_lookup_fmap.
  destruct (decide (i < n)) as [Hi|Hi].
  - rewrite !lookup_seq_lt by done. simpl. f_equal. lia.
  - rewrite !lookup_seq_ge by lia. done.
Qed.

Lemma py_range_empty (a b : Z) : (b ≤ a)%Z → py_range a b = [].
Proof. intros H. unfold py_range. by replace (Z.to_nat _) with 0 by lia. Qed.

Lemma py_range_elem (a b x : Z) : x ∈ py_range a b ↔ (a ≤ x < b)%Z.
Proof.
  unfold py_range. rewrite list_elem_of_fmap. split.
  - intros (i & -> & Hi). apply elem_of_seq in Hi. lia.
  - intros Hx. exists (Z.to_nat (x - a)). split; [lia|]. apply elem_of_seq. lia.
Qed.

Lemma foldl_max_le (l : list nat) (x : nat) : x ≤ foldl Nat.max x l.
Proof. revert x. induction l as [|y l IH]; intros x; simpl; [done|]. etrans; [|apply IH]. lia. Qed.

Lemma foldl_max_elem (l : list nat) (x y : nat) : y ∈ l → y ≤ foldl Nat.max x l.
Proof.
  revert x. induction l as [|z l IH]; intros x Hy; simpl.
  - by apply elem_of_nil in Hy.
  - apply elem_of_cons in Hy as [->|Hy]; [|by apply IH].
    etrans; [|apply foldl_max_le]. lia.
Qed.

Lemma py_max_bound (l : list nat) (m : nat) :
  py_max l = Ok m → Forall (λ x, x ≤ m) l.
Proof.
  destruct l as [|x l]; simpl; [done|]. intros [= <-].
  apply Forall_forall. intros y Hy. apply elem_of_cons in Hy as [->|Hy].
  - apply foldl_max_le.
  - by apply foldl_max_elem.
Qed.

Lemma py_max_is_Ok (l : list nat) : l ≠ [] → ∃ m, py_max l = Ok m.
Proof. destruct l; [done|]. intros _. simpl. eauto. Qed.

Lemma foldl_min_const (l : list nat) (q : nat) :
  Forall (λ x, q ≤ x) l → foldl Nat.min q l = q.
Proof.
  induction 1 as [|x l Hx _ IH]; simpl; [done|].
  by replace (q `min` x) with q by lia.
Qed.

(** ** Column geometry *)

Lemma longs_con_lookup (q k : nat) (idxs : list nat) (i : nat) :
  i < k → longs_con q k idxs !! i = Some (q + (if bool_decide (i ∈ idxs) then 1 else 0)).
Proof.
  intros Hi. unfold longs_con. rewrite list_lookup_fmap, lookup_seq_lt by done. done.
Qed.

Lemma longs_con_length (q k : nat) (idxs : list nat) : length (longs_con q k idxs) = k.
Proof. unfold longs_con. by rewrite length_fmap, length_seq. Qed.

Lemma longs_con_nil (q k : nat) : longs_con q k [] = replicate k q.
Proof.
  apply list_eq. intros i. destruct (decide (i < k)) as [Hi|Hi].
  - rewrite longs_con_lookup, lookup_replicate_2 by done.
    rewrite bool_decide_eq_false_2 by apply not_elem_of_nil. f_equal. lia.
  - rewrite !lookup_ge_None_2; [done| |]; rewrite ?length_replicate, ?longs_con_length; lia.
Qed.

Lemma incr_item_longs_con (q k : nat) (idxs : list nat) (i : nat) :
  i < k → i ∉ idxs →
  TranspositionWord.incr_item (longs_con q k idxs) (Z.of_nat i)
  = Ok (longs_con q k (idxs ++ [i])).
Proof.
  intros Hi Hni. unfold TranspositionWord.incr_item.
  erewrite getitem_nat by (by apply longs_con_lookup). simpl.
  rewrite setitem_nat by (by rewrite longs_con_length). f_equal.
  apply list_eq. intros j. destruct (decide (j < k)) as [Hj|Hj].
  - rewrite longs_con_lookup by done. destruct (decide (j = i)) as [->|Hne].
    + rewrite list_lookup_insert_eq by (by rewrite longs_con_length).
      rewrite bool_decide_eq_false_2 by done.
      rewrite bool_decide_eq_true_2 by (apply elem_of_app; right; by apply list_elem_of_singleton).
      f_equal. lia.
    + rewrite list_lookup_insert_ne by done. rewrite longs_con_lookup by done.
      do 2 f_equal. rewrite (bool_decide_ext (j ∈ idxs) (j ∈ idxs ++ [i])); [done|].
      rewrite elem_of_app, list_elem_of_singleton. intuition.
  - rewrite !lookup_ge_None_2; [done| |]; rewrite ?length_insert, ?longs_con_length; lia.
Qed.

Lemma incr_loop_longs_con (q k : nat) (idxs pre : list nat) :
  Forall (λ i, i < k) idxs → NoDup (pre ++ idxs) →
  foldM (λ longs i, TranspositionWord.incr_item longs (Z.of_nat i))
        (longs_con q k pre) idxs
  = Ok (longs_con q k (pre ++ idxs)).
Proof.
  revert pre. induction idxs as [|i idxs IH]; intros pre Hlt Hnd; simpl.
  - by rewrite app_nil_r.
  - inversion_clear Hlt as [|?? Hi Hlt'].
    rewrite incr_item_longs_con; [|done|].
    + simpl. rewrite IH; [by rewrite <-app_assoc|done|by rewrite <-app_assoc].
    + apply NoDup_app in Hnd as (_ & Hd & _). intros Hin. apply (Hd i Hin). left.
Qed.

(** The loop of the read rule visits the first [r] entries of the order. *)
Lemma read_loop_take (order0 : list Z) (r : nat) (longs : list nat) :
  r ≤ length order0 →
  foldM (λ longs j, i ← getitem order0 (Z.of_nat j); TranspositionWord.incr_item longs i)
        longs (seq 0 r)
  = foldM TranspositionWord.incr_item longs (take r order0).
Proof.
  revert longs. induction r as [|r IH]; intros longs Hr; [done|].
  rewrite seq_S, foldM_app. simpl.
  destruct (lookup_lt_is_Some_2 order0 r) as [i Hi]; [lia|].
  rewrite (take_S_r _ _ _ Hi), foldM_app, IH by lia.
  destruct (foldM _ longs (take r order0)) as [longs'|e]; simpl; [|done].
  erewrite getitem_nat by done. simpl. by destruct (TranspositionWord.incr_item longs' i).
Qed.

Lemma foldM_fmap {A B S : Type} (f : S → B → res S) (g : A → B) (s : S) (l : list A) :
  foldM f s (g <$> l) = foldM (λ s x, f s (g x)) s l.
Proof.
  revert s. induction l as [|x l IH]; intros s; simpl; [done|].
  destruct (f s (g x)); simpl; [apply IH|done].
Qed.

Lemma valid_order0_length (k : nat) (order0 : list Z) :
  valid_order0 k order0 → length order0 = k.
Proof. intros H. rewrite H. by rewrite length_fmap, length_seq. Qed.

(** A valid order is the image of a list of column indices. *)
Lemma valid_order0_nat (k : nat) (order0 : list Z) :
  valid_order0 k order0 →
  ∃ idxs : list nat, order0 = Z.of_nat <$> idxs ∧ idxs ≡ₚ seq 0 k.
Proof.
  intros H. exists (Z.to_nat <$> order0). split.
  - rewrite <-list_fmap_compose. rewrite <-(list_fmap_id order0) at 1.
    apply Forall_fmap_ext_1, Forall_forall. intros x Hx. simpl.
    rewrite H in Hx. apply list_elem_of_fmap in Hx as (i & -> & _). lia.
  - rewrite H, <-list_fmap_compose.
    assert (Z.to_nat ∘ Z.of_nat <$> seq 0 k = seq 0 k) as ->; [|done].
    rewrite <-(list_fmap_id (seq 0 k)) at 2.
    apply Forall_fmap_ext_1, Forall_forall. intros x _. simpl. lia.
Qed.

Lemma perm_seq_facts (k : nat) (idxs : list nat) :
  idxs ≡ₚ seq 0 k → NoDup idxs ∧ Forall (λ i, i < k) idxs ∧ length idxs = k.
Proof.
  intros H. split_and!.
  - rewrite H. apply NoDup_seq.
  - rewrite H. apply Forall_seq. lia.
  - by rewrite H, length_seq.
Qed.

Lemma sum_list_insert (l : list nat) (i x y : nat) :
  l !! i = Some x → sum_list (<[i:=y]> l) + x = sum_list l + y.
Proof.
  intros Hi. rewrite insert_take_drop by (by eapply lookup_lt_Some).
  rewrite <-(take_drop_middle l i x Hi) at 3.
  rewrite !sum_list_with_app. simpl. lia.
Qed.

Lemma sum_longs_con (q k : nat) (idxs : list nat) :
  NoDup idxs → Forall (λ i, i < k) idxs →
  sum_list (longs_con q k idxs) = q * k + length idxs.
Proof.
  induction idxs as [|i idxs IH] using rev_ind; intros Hnd Hlt.
  - rewrite longs_con_nil. simpl. rewrite sum_list_replicate. lia.
  - apply NoDup_app in Hnd as (Hnd & Hd & _).
    apply Forall_app in Hlt as [Hlt Hi]. inversion_clear Hi as [|?? Hi' _].
    assert (i ∉ idxs) as Hni by (intros Hin; apply (Hd i Hin); left).
    pose proof (incr_item_longs_con q k idxs i Hi' Hni) as Hinc.
    unfold TranspositionWord.incr_item in Hinc.
    erewrite getitem_nat in Hinc by (by apply longs_con_lookup). simpl in Hinc.
    rewrite setitem_nat in Hinc by (by rewrite longs_con_length).
    injection Hinc as <-.
    pose proof (sum_list_insert (longs_con q k idxs) i _
      (q + (if bool_decide (i ∈ idxs) then 1 else 0) + 1) (longs_con_lookup q k idxs i Hi')).
    rewrite length_app. simpl. rewrite IH in H by done. lia.
Qed.

Lemma cuantas_insert (L : nat) (l : list nat) (i x y : nat) :
  l !! i = Some x →
  cuantas L (<[i:=y]> l) + (if bool_decide (x = L) then 1 else 0)
  = cuantas L l + (if bool_decide (y = L) then 1 else 0).
Proof.
  intros Hi. unfold cuantas. rewrite insert_take_drop by (by eapply lookup_lt_Some).
  rewrite <-(take_drop_middle l i x Hi) at 3.
  rewrite !filter_app, !filter_cons, !length_app.
  repeat case_bool_decide; repeat case_decide; simpl; try lia; done.
Qed.

Lemma cuantas_replicate (L q k : nat) :
  cuantas L (replicate k q) = if bool_decide (q = L) then k else 0.
Proof.
  unfold cuantas. induction k as [|k IH]; simpl.
  - by case_bool_decide.
  - rewrite filter_cons. case_decide; case_bool_decide; simpl; try done; lia.
Qed.

Lemma cuantas_longs_con (q k : nat) (idxs : list nat) :
  NoDup idxs → Forall (λ i, i < k) idxs →
  cuantas (q + 1) (longs_con q k idxs) = length idxs ∧
  cuantas q (longs_con q k idxs) = k - length idxs.
Proof.
  induction idxs as [|i idxs IH] using rev_ind; intros Hnd Hlt.
  - rewrite longs_con_nil, !cuantas_replicate.
    rewrite bool_decide_eq_false_2 by lia. rewrite bool_decide_eq_true_2 by done.
    simpl. lia.
  - apply NoDup_app in Hnd as (Hnd & Hd & _).
    apply Forall_app in Hlt as [Hlt Hi]. inversion_clear Hi as [|?? Hi' _].
    assert (i ∉ idxs) as Hni by (intros Hin; apply (Hd i Hin); left).
    destruct (IH Hnd Hlt) as [IH1 IH2].
    pose proof (incr_item_longs_con q k idxs i Hi' Hni) as Hinc.
    unfold TranspositionWord.incr_item in Hinc.
    erewrite getitem_nat in Hinc by (by apply longs_con_lookup). simpl in Hinc.
    rewrite setitem_nat in Hinc by (by rewrite longs_con_length).
    injection Hinc as <-.
    pose proof (longs_con_lookup q k idxs i Hi') as Hlk.
    rewrite bool_decide_eq_false_2 in Hlk by done.
    pose proof (cuantas_insert (q + 1) _ i _ (q + 0 + 1) Hlk) as H1.
    pose proof (cuantas_insert q _ i _ (q + 0 + 1) Hlk) as H2.
    rewrite bool_decide_eq_false_2 in H1 by lia.
    rewrite bool_decide_eq_true_2 in H1 by lia.
    rewrite bool_decide_eq_true_2 in H2 by lia.
    rewrite bool_decide_eq_false_2 in H2 by lia.
    rewrite bool_decide_eq_false_2 by done.
    rewrite length_app. simpl.
    assert (length idxs < k).
    { assert (NoDup (idxs ++ [i])) as Hnd'.
      { apply NoDup_app. split_and!; [done| |apply NoDup_singleton].
        intros x Hx Hx'. apply list_elem_of_singleton in Hx' as ->. done. }
      assert (length (idxs ++ [i]) ≤ length (seq 0 k)).
      { apply submseteq_length, NoDup_submseteq; [done|].
        intros x Hx. apply elem_of_seq. split; [lia|]. simpl.
        apply elem_of_app in Hx as [Hx|Hx].
        - by eapply Forall_forall in Hlt.
        - apply list_elem_of_singleton in Hx as ->. done. }
      rewrite length_app, length_seq in H. simpl in H. lia. }
    lia.
Qed.

Lemma longs_natural_con (N k : nat) :
  longs_natural N k = longs_con (N / k) k (seq 0 (N mod k)).
Proof.
  unfold longs_natural, longs_con. apply list_fmap_ext. intros _ i _.
  f_equal. rewrite (bool_decide_ext (i < N mod k) (i ∈ seq 0 (N mod k))); [done|].
  rewrite elem_of_seq. lia.
Qed.

(** The natural rule never looks at the order. *)
Lemma longitudes_natural (N k : nat) (order0 : list Z) :
  1 ≤ k →
  TranspositionWord.longitudes_columnas N k order0 Natural = Ok (longs_natural N k).
Proof.
  intros Hk. unfold TranspositionWord.longitudes_columnas.
  rewrite bool_decide_eq_false_2 by lia.
  assert (N mod k < k) as Hr by (apply Nat.mod_upper_bound; lia).
  rewrite longs_natural_con. case_bool_decide as H0.
  - rewrite <-longs_con_nil.
    rewrite (incr_loop_longs_con (N / k) k (seq 0 (N mod k)) []); [done| |apply NoDup_seq].
    apply Forall_seq. lia.
  - replace (N mod k) with 0 by lia. simpl. by rewrite longs_con_nil.
Qed.

Lemma longitudes_read (N k : nat) (idxs : list nat) :
  1 ≤ k → idxs ≡ₚ seq 0 k →
  TranspositionWord.longitudes_columnas N k (Z.of_nat <$> idxs) Read
  = Ok (longs_con (N / k) k (take (N mod k) idxs)).
Proof.
  intros Hk Hp. destruct (perm_seq_facts k idxs Hp) as (Hnd & Hlt & Hlen).
  unfold TranspositionWord.longitudes_columnas.
  rewrite bool_decide_eq_false_2 by lia.
  assert (N mod k < k) as Hr by (apply Nat.mod_upper_bound; lia).
  case_bool_decide as H0.
  - rewrite read_loop_take by (rewrite length_fmap; lia).
    rewrite <-fmap_take, foldM_fmap, <-longs_con_nil.
    rewrite (incr_loop_longs_con _ k (take (N mod k) idxs) []); [done| |].
    + by apply Forall_take.
    + simpl. rewrite <-(take_drop (N mod k) idxs) in Hnd.
      by apply NoDup_app in Hnd as (? & _).
  - replace (N mod k) with 0 by lia. simpl. by rewrite longs_con_nil.
Qed.

Lemma longitudes_auto_natural (N k : nat) :
  1 ≤ k → AutoTranspo.longitudes_columnas N k = Ok (longs_natural N k).
Proof.
  intros Hk. unfold AutoTranspo.longitudes_columnas.
  by rewrite bool_decide_eq_false_2 by lia.
Qed.

Lemma longs_natural_sum (N k : nat) : 1 ≤ k → sum_list (longs_natural N k) = N.
Proof.
  intros Hk. assert (N mod k < k) as Hr by (apply Nat.mod_upper_bound; lia).
  rewrite longs_natural_con, sum_longs_con;
    [|apply NoDup_seq|apply Forall_seq; lia].
  rewrite length_seq. pose proof (Nat.div_mod_eq N k). lia.
Qed.

Lemma take_elem_index (idxs : list nat) (r j i : nat) :
  NoDup idxs → idxs !! j = Some i → i ∈ take r idxs ↔ j < r.
Proof.
  intros Hnd Hj. split.
  - intros Hin. apply list_elem_of_lookup in Hin as (j' & Hj').
    pose proof (lookup_lt_Some _ _ _ Hj') as Hlt. rewrite length_take in Hlt.
    rewrite lookup_take_lt in Hj' by lia.
    rewrite (NoDup_lookup _ _ _ _ Hnd Hj Hj'). lia.
  - intros Hlt. apply list_elem_of_lookup. exists j. by rewrite lookup_take_lt.
Qed.

(** Under either rule the result is the base length everywhere plus one on
    [N mod k] distinct columns. *)
Lemma longitudes_shape (N k : nat) (order0 : list Z) (rule : long_rule) :
  1 ≤ k →
  rule = Natural ∨ valid_order0 k order0 →
  ∃ idxs,
    NoDup idxs ∧ Forall (λ i, i < k) idxs ∧ length idxs = N mod k ∧
    TranspositionWord.longitudes_columnas N k order0 rule = Ok (longs_con (N / k) k idxs) ∧
    (rule = Natural → idxs = seq 0 (N mod k)) ∧
    (rule = Read → ∀ j i, order0 !! j = Some (Z.of_nat i) →
                   i < k ∧ (i ∈ idxs ↔ j < N mod k)).
Proof.
  intros Hk Hv.
  assert (N mod k < k) as Hr by (apply Nat.mod_upper_bound; lia).
  destruct rule.
  - exists (seq 0 (N mod k)). split_and!; [apply NoDup_seq|apply Forall_seq; lia
      |apply length_seq| |done|done].
    by rewrite longitudes_natural, longs_natural_con.
  - destruct Hv as [|Hv]; [done|].
    destruct (valid_order0_nat k order0 Hv) as (all & -> & Hp).
    destruct (perm_seq_facts k all Hp) as (Hnd & Hlt & Hlen).
    exists (take (N mod k) all). split_and!.
    + rewrite <-(take_drop (N mod k) all) in Hnd. by apply NoDup_app in Hnd as (? & _).
    + by apply Forall_take.
    + rewrite length_take. lia.
    + by apply longitudes_read.
    + done.
    + intros _ j i Hj. rewrite list_lookup_fmap in Hj.
      destruct (all !! j) as [i'|] eqn:Hj'; [|done]. simpl in Hj.
      assert (i' = i) as -> by (injection Hj; lia). split.
      * eapply Forall_forall in Hlt; [done|]. by eapply list_elem_of_lookup_2.
      * by apply take_elem_index.
Qed.

(** The geometry of a valid call: [k] lengths that sum to [N]. *)
Lemma longitudes_total (N k : nat) (order0 : list Z) (rule : long_rule) :
  1 ≤ k →
  rule = Natural ∨ valid_order0 k order0 →
  ∃ longs,
    TranspositionWord.longitudes_columnas N k order0 rule = Ok longs ∧
    length longs = k ∧ sum_list longs = N.
Proof.
  intros Hk Hv.
  destruct (longitudes_shape N k order0 rule Hk Hv) as (idxs & Hnd & Hlt & Hlen & Heq & _).
  exists (longs_con (N / k) k idxs). split_and!; [done|apply longs_con_length|].
  rewrite sum_longs_con by done. pose proof (Nat.div_mod_eq N k). lia.
Qed.

(** C3. Column geometry: for every N, every k >= 1 and either remainder
    rule (with a read order that is a permutation of the k columns when the
    rule looks at it), [longitudes_columnas] returns k lengths that sum to N;
    exactly N mod k of them are N div k + 1 and the other k - N mod k are
    N div k.  Under the natural rule the longer columns are the columns
    0 .. N mod k - 1, under the read rule they are the columns at the first
    N mod k positions of the read order.  The geometry of [auto_transpo.py]
    is the natural one. *)
Theorem geometry_lengths (N k : nat) (order0 : list Z) (rule : long_rule) :
  1 ≤ k →
  rule = Natural ∨ valid_order0 k order0 →
  ∃ longs,
    TranspositionWord.longitudes_columnas N k order0 rule = Ok longs ∧
    length longs = k ∧
    sum_list longs = N ∧
    cuantas (N / k + 1) longs = N mod k ∧
    cuantas (N / k) longs = k - N mod k ∧
    (rule = Natural →
       AutoTranspo.longitudes_columnas N k = Ok longs ∧
       ∀ i, i < k →
         longs !! i = Some (N / k + (if bool_decide (i < N mod k) then 1 else 0))) ∧
    (rule = Read →
       ∀ j i, order0 !! j = Some (Z.of_nat i) →
         longs !! i = Some (N / k + (if bool_decide (j < N mod k) then 1 else 0))).
Proof.
  intros Hk Hv.
  assert (N mod k < k) as Hr by (apply Nat.mod_upper_bound; lia).
  pose proof (Nat.div_mod_eq N k) as Hdm.
  destruct (longitudes_shape N k order0 rule Hk Hv)
    as (idxs & Hnd & Hlt & Hlen & Heq & Hnat & Hread).
  exists (longs_con (N / k) k idxs). split_and!.
  - done.
  - apply longs_con_length.
  - rewrite sum_longs_con by done. lia.
  - destruct (cuantas_longs_con (N / k) k idxs Hnd Hlt) as [H1 _]. lia.
  - destruct (cuantas_longs_con (N / k) k idxs Hnd Hlt) as [_ H2]. lia.
  - intros Hrule. rewrite (Hnat Hrule), <-longs_natural_con. split.
    + by apply longitudes_auto_natural.
    + intros i Hi. unfold longs_natural. by rewrite list_lookup_fmap, lookup_seq_lt.
  - intros Hrule j i Hj. destruct (Hread Hrule j i Hj) as [Hi Hiff].
    rewrite longs_con_lookup by done. do 2 f_equal.
    by rewrite (bool_decide_ext _ _ Hiff).
Qed.

Lemma geometry_lengths_witness :
  ∃ longs,
    TranspositionWord.longitudes_columnas 32 5 [2; 4; 0; 1; 3]%Z Read = Ok longs ∧
    length longs = 5 ∧
    sum_list longs = 32 ∧
    cuantas (32 / 5 + 1) longs = 32 mod 5 ∧
    cuantas (32 / 5) longs = 5 - 32 mod 5 ∧
    (Read = Natural →
       AutoTranspo.longitudes_columnas 32 5 = Ok longs ∧
       ∀ i, i < 5 →
         longs !! i = Some (32 / 5 + (if bool_decide (i < 32 mod 5) then 1 else 0))) ∧
    (Read = Read →
       ∀ j i, [2; 4; 0; 1; 3]%Z !! j = Some (Z.of_nat i) →
         longs !! i = Some (32 / 5 + (if bool_decide (j < 32 mod 5) then 1 else 0))).
Proof.
  apply (geometry_lengths 32 5 [2; 4; 0; 1; 3]%Z Read).
  - lia.
  - right. unfold valid_order0. by apply (bool_decide_unpack _).
Defined.

Example geometry_30_5 :
  TranspositionWord.longitudes_columnas 30 5 [] Natural = Ok [6; 6; 6; 6; 6].
Proof. reflexivity. Qed.

Example geometry_32_5 :
  TranspositionWord.longitudes_columnas 32 5 [] Natural = Ok [7; 7; 6; 6; 6].
Proof. reflexivity. Qed.

Example geometry_32_5_read :
  TranspositionWord.longitudes_columnas 32 5 [2; 4; 0; 1; 3]%Z Read = Ok [6; 6; 7; 6; 7].
Proof. reflexivity. Qed.

Example geometry_32_5_auto :
  AutoTranspo.longitudes_columnas 32 5 = Ok [7; 7; 6; 6; 6].
Proof. reflexivity. Qed.

(** ** Reading the grid row by row *)

Lemma celda_lookup (cols : list (list N)) (r c : nat) :
  celda cols r c = option_list (cols !! c ≫= (.!! r)).
Proof. unfold celda. destruct (cols !! c) as [col|]; simpl; [|done]. by destruct (col !! r). Qed.

Lemma bind_lookup_seq {A : Type} (l : list A) (a n : nat) :
  (seq a n ≫= λ c, option_list (l !! c)) = take n (drop a l).
Proof.
  revert a. induction n as [|n IH]; intros a; [done|].
  simpl. rewrite IH. destruct (l !! a) as [x|] eqn:Ha; simpl.
  - by rewrite (drop_S _ _ _ Ha).
  - apply lookup_ge_None in Ha.
    rewrite (drop_ge l (S a)), (drop_ge l a) by lia. by rewrite take_nil.
Qed.

Lemma list_bind_ext_seq {B : Type} (f g : nat → list B) (a n : nat) :
  (∀ i, a ≤ i < a + n → f i = g i) → seq a n ≫= f = seq a n ≫= g.
Proof.
  revert a. induction n as [|n IH]; intros a Hfg; [done|].
  simpl. rewrite Hfg by lia. f_equal. apply IH. intros i Hi. apply Hfg. lia.
Qed.

(** When the columns are the cyclic distribution of [P], the row-major read
    gives [P] back, one row of [n] symbols at a time. *)
Lemma leer_filas_take (cols : list (list N)) (P : list N) (n m : nat) :
  (∀ c r, c < n → celda cols r c = option_list (P !! (r * n + c))) →
  leer_filas cols n m = take (m * n) P.
Proof.
  intros Hc. unfold leer_filas. induction m as [|m IH]; [done|].
  rewrite seq_S, bind_app, IH. simpl. rewrite app_nil_r.
  rewrite (list_bind_ext_seq _ (λ c, option_list (drop (m * n) P !! c))).
  - rewrite bind_lookup_seq, drop_0, take_take_drop. f_equal. lia.
  - intros c Hlt. rewrite Hc by lia. rewrite lookup_drop. done.
Qed.

Lemma bind_nil_const {A B : Type} (l : list A) : (l ≫= λ _ : A, @nil B) = [].
Proof. induction l; simpl; [done|]. done. Qed.

Lemma bind_app_perm {A B : Type} (f g : A → list B) (l : list A) :
  (l ≫= λ x, f x ++ g x) ≡ₚ (l ≫= f) ++ (l ≫= g).
Proof.
  induction l as [|x l IH]; simpl; [done|]. rewrite IH.
  rewrite <-!app_assoc. apply Permutation_app_head.
  rewrite !app_assoc. apply Permutation_app_tail. apply Permutation_app_comm.
Qed.

Lemma bind_swap_perm {A B C : Type} (f : A → B → list C) (l1 : list A) (l2 : list B) :
  (l1 ≫= λ x, l2 ≫= λ y, f x y) ≡ₚ (l2 ≫= λ y, l1 ≫= λ x, f x y).
Proof.
  induction l1 as [|x l1 IH]; simpl.
  - by rewrite bind_nil_const.
  - rewrite IH. by rewrite bind_app_perm.
Qed.

Lemma bind_seq_lookup {A B : Type} (g : option A → list B) (l : list A) (a : nat) :
  (seq a (length l) ≫= λ c, g (l !! (c - a))) = (l ≫= λ x, g (Some x)).
Proof.
  revert a. induction l as [|x l IH]; intros a; [done|].
  change (seq a (length (x :: l))) with (a :: seq (S a) (length l)).
  rewrite !bind_cons. replace (a - a) with 0 by lia. simpl. f_equal.
  rewrite <-(IH (S a)). apply list_bind_ext_seq. intros i Hi.
  replace (i - a) with (S (i - S a)) by lia. done.
Qed.

Lemma list_bind_ext_elem {A B : Type} (f g : A → list B) (l : list A) :
  (∀ x, x ∈ l → f x = g x) → l ≫= f = l ≫= g.
Proof.
  induction l as [|x l IH]; intros Hfg; [done|]. simpl.
  rewrite Hfg by left. f_equal. apply IH. intros y Hy. apply Hfg. by right.
Qed.

Lemma list_bind_id {A : Type} (l : list (list A)) : (l ≫= id) = concat l.
Proof. induction l as [|x l IH]; [done|]. rewrite bind_cons, IH. done. Qed.

(** The row-major read loses and repeats nothing. *)
Lemma leer_filas_perm (cols : list (list N)) (m : nat) :
  Forall (λ col, length col ≤ m) cols →
  leer_filas cols (length cols) m ≡ₚ concat cols.
Proof.
  intros Hm. unfold leer_filas.
  rewrite (list_bind_ext_seq _ (λ r, cols ≫= λ col, option_list (col !! r))).
  2:{ intros r _.
      etrans; [|exact (bind_seq_lookup
        (λ o : option (list N),
           match o with Some col => option_list (col !! r) | None => [] end) cols 0)].
      apply list_bind_ext_seq. intros c _. rewrite Nat.sub_0_r. unfold celda.
      destruct (cols !! c) as [col|]; [|done]. by destruct (col !! r). }
  rewrite bind_swap_perm. rewrite <-list_bind_id.
  rewrite (list_bind_ext_elem _ id); [done|].
  intros col Hcol. rewrite bind_lookup_seq, drop_0. simpl.
  apply take_ge. by eapply Forall_forall in Hm.
Qed.

(** ** Cutting the cryptogram into segments *)

Lemma cortar_length (C : list N) (cur : nat) (ls : list nat) :
  length (cortar C cur ls) = length ls.
Proof. revert cur. induction ls as [|L ls IH]; intros cur; simpl; [done|]. by rewrite IH. Qed.

Lemma slice_take_drop {A : Type} (s : list A) (a L : nat) :
  slice s a (a + L) = take L (drop a s).
Proof. unfold slice. f_equal. lia. Qed.

Lemma cortar_concat (C : list N) (cur : nat) (ls : list nat) :
  concat (cortar C cur ls) = take (sum_list ls) (drop cur C).
Proof.
  revert cur. induction ls as [|L ls IH]; intros cur; simpl; [done|].
  rewrite IH, slice_take_drop. rewrite <-take_take_drop. by rewrite drop_drop.
Qed.

Lemma cortar_exact (pre post : list N) (segs : list (list N)) :
  cortar (pre ++ concat segs ++ post) (length pre) (length <$> segs) = segs.
Proof.
  revert pre. induction segs as [|s segs IH]; intros pre; simpl; [done|].
  rewrite slice_take_drop, drop_app_length, <-app_assoc, take_app_length. f_equal.
  rewrite <-length_app. rewrite (app_assoc pre s). apply IH.
Qed.

Lemma colocar_length (cols0 : list (list N)) (idxs : list nat) (segs : list (list N)) :
  length (colocar cols0 idxs segs) = length cols0.
Proof.
  unfold colocar. revert cols0 segs. induction idxs as [|i idxs IH]; intros cols0 segs; [done|].
  destruct segs as [|s segs]; [done|]. simpl. by rewrite IH, length_insert.
Qed.

Lemma colocar_notin (cols0 : list (list N)) (idxs : list nat) (segs : list (list N)) (i : nat) :
  i ∉ idxs → colocar cols0 idxs segs !! i = cols0 !! i.
Proof.
  unfold colocar. revert cols0 segs. induction idxs as [|j idxs IH]; intros cols0 segs Hi; [done|].
  destruct segs as [|s segs]; [done|]. simpl.
  apply not_elem_of_cons in Hi as [Hne Hi].
  rewrite IH by done. by rewrite list_lookup_insert_ne.
Qed.

Lemma colocar_lookup (cols0 : list (list N)) (idxs : list nat) (segs : list (list N))
    (j i : nat) (s : list N) :
  NoDup idxs → idxs !! j = Some i → segs !! j = Some s → i < length cols0 →
  colocar cols0 idxs segs !! i = Some s.
Proof.
  revert cols0 segs j. induction idxs as [|i' idxs IH]; intros cols0 segs j Hnd Hj Hs Hi; [done|].
  destruct segs as [|s' segs]; [done|].
  apply NoDup_cons in Hnd as [Hni Hnd].
  change (colocar cols0 (i' :: idxs) (s' :: segs)) with (colocar (<[i':=s']> cols0) idxs segs).
  destruct j as [|j]; simpl in *.
  - injection Hj as ->. injection Hs as ->.
    rewrite colocar_notin by done. by apply list_lookup_insert_eq.
  - eapply IH; [done|done|done|]. by rewrite length_insert.
Qed.

(** When every column occurs once in [idxs], the grid is a rearrangement of
    the segments... *)
Lemma colocar_perm (cols0 : list (list N)) (idxs : list nat) (segs : list (list N)) :
  idxs ≡ₚ seq 0 (length cols0) → length segs = length idxs →
  colocar cols0 idxs segs ≡ₚ segs.
Proof.
  intros Hp Hlen. destruct (perm_seq_facts _ _ Hp) as (Hnd & Hlt & Hlen').
  remember (colocar cols0 idxs segs) as cols eqn:Hcols.
  assert (length cols = length cols0) as Hcl by (rewrite Hcols; apply colocar_length).
  assert (segs = (λ i, cols !!! i) <$> idxs) as Hsegs.
  { apply list_eq. intros j. rewrite list_lookup_fmap.
    destruct (idxs !! j) as [i|] eqn:Hj; simpl.
    - destruct (lookup_lt_is_Some_2 segs j) as [s Hs].
      { rewrite Hlen. by eapply lookup_lt_Some. }
      rewrite Hs. f_equal. symmetry. apply list_lookup_total_correct.
      rewrite Hcols. eapply colocar_lookup; [done|done|done|].
      eapply Forall_forall in Hlt; [done|]. by eapply list_elem_of_lookup_2.
    - apply lookup_ge_None. apply lookup_ge_None in Hj. lia. }
  rewrite Hsegs, Hp, <-Hcl. clear.
  assert (cols = (λ i, cols !!! i) <$> seq 0 (length cols)) as Hself; [|by rewrite <-Hself].
  apply list_eq. intros i. rewrite list_lookup_fmap.
  destruct (decide (i < length cols)) as [Hi|Hi].
  - rewrite lookup_seq_lt by done. simpl.
    destruct (lookup_lt_is_Some_2 cols i Hi) as [x Hx].
    rewrite Hx. f_equal. symmetry. by apply list_lookup_total_correct.
  - rewrite lookup_seq_ge by lia. simpl. apply lookup_ge_None. lia.
Qed.

(** ... and it is exactly [cols] when the segments are the columns of
    [cols] taken in the order [idxs]. *)
Lemma colocar_exact (cols0 cols : list (list N)) (idxs : list nat) :
  idxs ≡ₚ seq 0 (length cols0) → length cols = length cols0 →
  colocar cols0 idxs ((λ i, cols !!! i) <$> idxs) = cols.
Proof.
  intros Hp Hlen. destruct (perm_seq_facts _ _ Hp) as (Hnd & Hlt & Hlen').
  apply list_eq. intros i. destruct (decide (i < length cols0)) as [Hi|Hi].
  - assert (i ∈ idxs) as Hin by (rewrite Hp; apply elem_of_seq; lia).
    apply list_elem_of_lookup in Hin as [j Hj].
    destruct (lookup_lt_is_Some_2 cols i) as [col Hcol]; [lia|].
    rewrite Hcol. eapply colocar_lookup; [done|done| |done].
    rewrite list_lookup_fmap, Hj. simpl. f_equal. by apply list_lookup_total_correct.
  - rewrite !lookup_ge_None_2; [done|lia|]. rewrite colocar_length. lia.
Qed.

Lemma foldM_cons {A S : Type} (f : S → A → res S) (s : S) (x : A) (l : list A) :
  foldM f s (x :: l) = (s' ← f s x; foldM f s' l).
Proof. done. Qed.

Lemma tomar_segmento_nat (C : list N) (longs : list nat) (cols : list (list N))
    (cur i L : nat) :
  longs !! i = Some L → i < length cols →
  tomar_segmento C longs (cols, cur) (Z.of_nat i)
  = Ok (<[i := slice C cur (cur + L)]> cols, cur + L).
Proof.
  intros HL Hi. unfold tomar_segmento. rewrite (getitem_nat _ _ _ HL). simpl.
  by rewrite setitem_nat.
Qed.

(** The segment loop of the decoders, for column indices in range. *)
Lemma tomar_segmento_loop (C : list N) (longs : list nat) (idxs : list nat)
    (cols0 : list (list N)) (cur : nat) :
  Forall (λ i, i < length cols0) idxs → length longs = length cols0 →
  foldM (tomar_segmento C longs) (cols0, cur) (Z.of_nat <$> idxs)
  = Ok (colocar cols0 idxs (cortar C cur ((λ i, longs !!! i) <$> idxs)),
        cur + sum_list ((λ i, longs !!! i) <$> idxs)).
Proof.
  revert cols0 cur. induction idxs as [|i idxs IH]; intros cols0 cur Hlt Hlen.
  - unfold colocar. simpl. f_equal. f_equal. lia.
  - inversion_clear Hlt as [|?? Hi Hlt'].
    rewrite fmap_cons, foldM_cons.
    destruct (lookup_lt_is_Some_2 longs i) as [L HL]; [lia|].
    rewrite (tomar_segmento_nat _ _ _ _ _ L) by done. cbn [mbind res_bind].
    rewrite IH; [|by rewrite length_insert|by rewrite length_insert].
    rewrite !fmap_cons, (list_lookup_total_correct _ _ _ HL).
    unfold colocar. simpl. do 2 f_equal. lia.
Qed.

(** ** Decoding keeps the symbols *)

Lemma concat_perm {A : Type} (l1 l2 : list (list A)) :
  l1 ≡ₚ l2 → concat l1 ≡ₚ concat l2.
Proof.
  induction 1 as [|x l1 l2 _ IH|x y l|l1 l2 l3 _ IH1 _ IH2]; simpl.
  - done.
  - by rewrite IH.
  - rewrite !app_assoc. apply Permutation_app_tail, Permutation_app_comm.
  - by rewrite IH1.
Qed.

Lemma sum_list_perm (l1 l2 : list nat) : l1 ≡ₚ l2 → sum_list l1 = sum_list l2.
Proof.
  induction 1 as [|x l1 l2 _ IH|x y l|l1 l2 l3 _ IH1 _ IH2]; simpl; lia.
Qed.

Lemma concat_reverse_perm {A : Type} (l : list (list A)) :
  concat (reverse <$> l) ≡ₚ concat l.
Proof.
  induction l as [|x l IH]; simpl; [done|]. by rewrite IH, reverse_Permutation.
Qed.

Lemma fmap_lookup_total_seq {A : Type} `{!Inhabited A} (l : list A) :
  (λ i, l !!! i) <$> seq 0 (length l) = l.
Proof.
  apply list_eq. intros i. rewrite list_lookup_fmap.
  destruct (decide (i < length l)) as [Hi|Hi].
  - rewrite lookup_seq_lt by done. simpl.
    destruct (lookup_lt_is_Some_2 l i Hi) as [x Hx].
    rewrite Hx. f_equal. by apply list_lookup_total_correct.
  - rewrite lookup_seq_ge by lia. simpl. symmetry. apply lookup_ge_None. lia.
Qed.

Lemma valid_order1_to_0 (k : nat) (order1 : list Z) :
  valid_order1 k order1 → valid_order0 k ((λ i, i - 1)%Z <$> order1).
Proof.
  unfold valid_order1, valid_order0. intros ->.
  rewrite <-list_fmap_compose, <-fmap_S_seq, <-list_fmap_compose.
  assert ((λ i, i - 1)%Z ∘ Z.of_nat ∘ S <$> seq 0 k = Z.of_nat <$> seq 0 k) as ->; [|done].
  apply Forall_fmap_ext_1, Forall_forall. intros x _. simpl. lia.
Qed.

Lemma valid_order1_length (k : nat) (order1 : list Z) :
  valid_order1 k order1 → length order1 = k.
Proof. intros ->. by rewrite length_fmap, length_seq. Qed.

(** The segment loop on a valid order: every column is filled once and the
    grid holds the cryptogram's symbols. *)
Lemma tomar_segmento_valid (C : list N) (longs : list nat) (k : nat) (idxs : list nat) :
  idxs ≡ₚ seq 0 k → length longs = k → sum_list longs = length C →
  ∃ cols,
    foldM (tomar_segmento C longs) (replicate k [], 0) (Z.of_nat <$> idxs)
    = Ok (cols, length C) ∧
    length cols = k ∧ concat cols ≡ₚ C.
Proof.
  intros Hp Hlen Hsum. destruct (perm_seq_facts k idxs Hp) as (Hnd & Hlt & Hlen').
  assert ((λ i, longs !!! i) <$> idxs ≡ₚ longs) as Hl.
  { rewrite Hp, <-Hlen. by rewrite fmap_lookup_total_seq. }
  eexists. split_and!.
  - rewrite tomar_segmento_loop; rewrite ?length_replicate; [|done|done].
    rewrite (sum_list_perm _ _ Hl), Hsum. done.
  - by rewrite colocar_length, length_replicate.
  - rewrite colocar_perm.
    + rewrite cortar_concat, (sum_list_perm _ _ Hl), Hsum, drop_0. by rewrite take_ge.
    + by rewrite length_replicate.
    + by rewrite cortar_length, length_fmap.
Qed.

Lemma leer_filas_max_perm (cols : list (list N)) (m : nat) :
  py_max (length <$> cols) = Ok m →
  leer_filas cols (length cols) m ≡ₚ concat cols.
Proof.
  intros Hm. apply leer_filas_perm. apply py_max_bound in Hm.
  apply Forall_fmap in Hm. done.
Qed.

(** The decoder on a valid order returns, and returns a rearrangement of
    the normalised cryptogram. *)
Lemma descifrar_valid {U : Unicode} (C : list N) (k : nat)
    (order1 : list Z) (rule : long_rule) (dir : col_direction) :
  1 ≤ k →
  valid_order1 k order1 →
  ∃ plain,
    TranspositionWord.descifrar_por_orden C order1 rule dir = Ok plain ∧
    plain ≡ₚ TranspositionWord.normalizar_AZ C.
Proof.
  intros Hk Hv. pose proof (valid_order1_length k order1 Hv) as Hlen.
  apply valid_order1_to_0 in Hv.
  destruct (valid_order0_nat k _ Hv) as (idxs & Hidxs & Hp).
  unfold TranspositionWord.descifrar_por_orden. rewrite Hlen.
  set (C' := TranspositionWord.normalizar_AZ C).
  destruct (longitudes_total (length C') k ((λ i, i - 1)%Z <$> order1) rule Hk)
    as (longs & -> & Hll & Hsum); [by right|].
  cbn [mbind res_bind]. unfold TranspositionWord.asignar. rewrite Hidxs.
  destruct (tomar_segmento_valid C' longs k idxs Hp Hll Hsum) as (cols & -> & Hcl & Hcc).
  cbn [mbind res_bind fst].
  set (cols' := match dir with Up => reverse <$> cols | Down => cols end).
  assert (length cols' = k) as Hcl' by (unfold cols'; destruct dir; by rewrite ?length_fmap).
  assert (concat cols' ≡ₚ C') as Hcc'.
  { unfold cols'. destruct dir; [done|]. by rewrite concat_reverse_perm. }
  destruct (py_max_is_Ok (length <$> cols')) as [m Hm].
  { destruct cols'; simpl in *; [lia|done]. }
  rewrite Hm. cbn [mbind res_bind]. eexists. split; [done|].
  rewrite <-Hcl'. by rewrite (leer_filas_max_perm cols' m Hm).
Qed.

(** C10. Decoding preserves the symbol multiset: for every cryptogram,
    every read order that is a permutation of 1..k (k >= 1) and every
    structural variant, [descifrar_por_orden] returns a plaintext that is a
    rearrangement of the normalised cryptogram, of the same length; and so
    does the decoder of [auto_transpo.py] ([asignar_columnas] followed by
    [leer_por_filas]) on its cryptogram. *)
Theorem decode_preserves_symbols {U : Unicode} (C : list N) (k : nat)
    (order1 : list Z) (rule : long_rule) (dir : col_direction) :
  1 ≤ k →
  valid_order1 k order1 →
  (∃ plain,
     TranspositionWord.descifrar_por_orden C order1 rule dir = Ok plain ∧
     plain ≡ₚ TranspositionWord.normalizar_AZ C ∧
     length plain = length (TranspositionWord.normalizar_AZ C)) ∧
  (∃ cols plain,
     AutoTranspo.asignar_columnas C k ((λ i, i - 1)%Z <$> order1) = Ok cols ∧
     AutoTranspo.leer_por_filas cols = Ok plain ∧
     plain ≡ₚ C ∧ length plain = length C).
Proof.
  intros Hk Hv. split.
  - destruct (descifrar_valid C k order1 rule dir Hk Hv) as (plain & Heq & Hperm).
    exists plain. split_and!; [done|done|by rewrite Hperm].
  - apply valid_order1_to_0 in Hv.
    destruct (valid_order0_nat k _ Hv) as (idxs & Hidxs & Hp).
    unfold AutoTranspo.asignar_columnas. rewrite longitudes_auto_natural by done.
    cbn [mbind res_bind]. rewrite Hidxs.
    destruct (tomar_segmento_valid C (longs_natural (length C) k) k idxs Hp)
      as (cols & -> & Hcl & Hcc).
    { unfold longs_natural. by rewrite length_fmap, length_seq. }
    { by apply longs_natural_sum. }
    cbn [mbind res_bind fst]. exists cols. unfold AutoTranspo.leer_por_filas.
    destruct (py_max_is_Ok (length <$> cols)) as [m Hm].
    { destruct cols; simpl in *; [lia|done]. }
    rewrite Hm. cbn [mbind res_bind]. eexists. split_and!; [done|done| |].
    + by rewrite (leer_filas_max_perm cols m Hm).
    + by rewrite (leer_filas_max_perm cols m Hm), Hcc.
Qed.

Lemma decode_preserves_symbols_witness :
  (∃ plain,
     @TranspositionWord.descifrar_por_orden ascii_unicode
       (pystr "EIBWOUSTQCRNXMHUKOFJP") [3; 1; 2]%Z Read Up = Ok plain ∧
     plain ≡ₚ @TranspositionWord.normalizar_AZ ascii_unicode (pystr "EIBWOUSTQCRNXMHUKOFJP") ∧
     length plain
     = length (@TranspositionWord.normalizar_AZ ascii_unicode (pystr "EIBWOUSTQCRNXMHUKOFJP"))) ∧
  (∃ cols plain,
     AutoTranspo.asignar_columnas (pystr "EIBWOUSTQCRNXMHUKOFJP") 3
       ((λ i, i - 1)%Z <$> [3; 1; 2]%Z) = Ok cols ∧
     AutoTranspo.leer_por_filas cols = Ok plain ∧
     plain ≡ₚ pystr "EIBWOUSTQCRNXMHUKOFJP" ∧
     length plain = length (pystr "EIBWOUSTQCRNXMHUKOFJP")).
Proof.
  apply (@decode_preserves_symbols ascii_unicode _ 3 [3; 1; 2]%Z Read Up).
  - lia.
  - unfold valid_order1. by apply (bool_decide_unpack _).
Defined.

(** ** The encoder *)

Lemma es_reparto_length (P : list N) (n : nat) (cols : list (list N)) (c : nat)
    (col : list N) :
  1 ≤ n → es_reparto P n cols → cols !! c = Some col →
  length col = length P / n + (if bool_decide (c < length P mod n) then 1 else 0).
Proof.
  intros Hn [Hlen Hinv] Hc.
  assert (c < n) as Hcn by (rewrite <-Hlen; by eapply lookup_lt_Some).
  pose proof (Hinv c col Hc) as Hr.
  pose proof (Nat.div_mod_eq (length P) n) as Hdm.
  assert (length P mod n < n) as Hm by (apply Nat.mod_upper_bound; lia).
  set (q := length P / n) in *. set (rr := length P mod n) in *.
  set (L := q + (if bool_decide (c < rr) then 1 else 0)).
  assert (∀ r, r < length col ↔ r < L) as Hiff.
  { intros r. rewrite <-lookup_lt_is_Some, Hr, lookup_lt_is_Some.
    unfold L. case_bool_decide; nia. }
  pose proof (Hiff (length col)). pose proof (Hiff L). lia.
Qed.

Lemma repartir_loop (n : nat) (P2 P1 : list N) (cols : list (list N)) :
  1 ≤ n → es_reparto P1 n cols →
  ∃ cols',
    foldM (λ (st : list (list N) * nat) ch,
             col ← getitem st.1 (Z.of_nat st.2);
             cols ← setitem st.1 (Z.of_nat st.2) (col ++ [ch]);
             Ok (cols, (st.2 + 1) mod n))
          (cols, length P1 mod n) P2
    = Ok (cols', length (P1 ++ P2) mod n) ∧
    es_reparto (P1 ++ P2) n cols'.
Proof.
  intros Hn. revert P1 cols. induction P2 as [|ch P2 IH]; intros P1 cols Hinv.
  - exists cols. rewrite app_nil_r. done.
  - rewrite foldM_cons. cbn [fst snd].
    pose proof Hinv as [Hlen Hrows].
    set (m := length P1) in *.
    assert (m mod n < n) as Hc0 by (apply Nat.mod_upper_bound; lia).
    destruct (lookup_lt_is_Some_2 cols (m mod n)) as [col Hcol]; [lia|].
    rewrite (getitem_nat _ _ _ Hcol). cbn [mbind res_bind].
    rewrite setitem_nat by lia. cbn [mbind res_bind].
    assert ((m mod n + 1) mod n = length (P1 ++ [ch]) mod n) as ->.
    { rewrite length_app. simpl. fold m. by rewrite Nat.Div0.add_mod_idemp_l. }
    destruct (IH (P1 ++ [ch]) (<[m mod n := col ++ [ch]]> cols)) as (cols' & Heq & Hinv').
    + pose proof (es_reparto_length P1 n cols (m mod n) col Hn Hinv Hcol) as HL.
      fold m in HL. rewrite bool_decide_eq_false_2 in HL by lia.
      pose proof (Nat.div_mod_eq m n) as Hdm.
      split; [by rewrite length_insert|].
      intros c col' Hc' r.
      assert (c < n) as Hcn.
      { apply lookup_lt_Some in Hc'. rewrite length_insert in Hc'. lia. }
      destruct (decide (c = m mod n)) as [->|Hne].
      * rewrite list_lookup_insert_eq in Hc' by lia. injection Hc' as <-.
        destruct (decide (r < m / n)) as [Hr|Hr].
        -- rewrite !lookup_app_l by (fold m; nia). by apply Hrows.
        -- destruct (decide (r = m / n)) as [->|Hr'].
           ++ rewrite !list_lookup_middle by (fold m; nia). done.
           ++ rewrite !lookup_ge_None_2; [done| |];
                rewrite length_app; simpl; fold m; nia.
      * rewrite list_lookup_insert_ne in Hc' by done.
        rewrite (Hrows c col' Hc' r).
        destruct (decide (r * n + c < m)) as [Hlt|Hge].
        -- by rewrite lookup_app_l.
        -- assert (r * n + c ≠ m).
           { intros Heq. apply Hne. rewrite <-Heq.
             rewrite Nat.add_comm, Nat.Div0.mod_add. by rewrite Nat.mod_small. }
           rewrite !lookup_ge_None_2; [done| |]; rewrite ?length_app; simpl; fold m; lia.
    + exists cols'. rewrite <-app_assoc in Heq, Hinv'. done.
Qed.

Lemma es_reparto_nil (n : nat) : es_reparto [] n (replicate n []).
Proof.
  split; [by rewrite length_replicate|].
  intros c col Hc r. apply lookup_replicate in Hc as [-> _]. done.
Qed.

Lemma repartir_spec {U : Unicode} (P : list N) (n : nat) :
  1 ≤ n → ∃ cols, TranspositionWord.repartir P n = Ok cols ∧ es_reparto P n cols.
Proof.
  intros Hn. unfold TranspositionWord.repartir.
  destruct (repartir_loop n P [] (replicate n []) Hn (es_reparto_nil n)) as (cols & Heq & Hinv).
  simpl in Heq. rewrite Nat.Div0.mod_0_l in Heq. rewrite Heq. simpl. by exists cols.
Qed.

Lemma es_reparto_celda (P : list N) (n : nat) (cols : list (list N)) (c r : nat) :
  es_reparto P n cols → c < n → celda cols r c = option_list (P !! (r * n + c)).
Proof.
  intros [Hlen Hrows] Hc. unfold celda.
  destruct (lookup_lt_is_Some_2 cols c) as [col Hcol]; [lia|].
  rewrite Hcol, (Hrows c col Hcol r). by destruct (P !! (r * n + c)).
Qed.

(** Reading the distribution of [P] row by row gives [P]. *)
Lemma es_reparto_leer (P : list N) (n m : nat) (cols : list (list N)) :
  1 ≤ n → es_reparto P n cols → py_max (length <$> cols) = Ok m →
  leer_filas cols n m = P.
Proof.
  intros Hn Hinv Hm.
  rewrite (leer_filas_take cols P) by (intros; by apply es_reparto_celda).
  apply take_ge. pose proof Hinv as [Hlen Hrows].
  destruct (lookup_lt_is_Some_2 cols 0) as [col Hcol]; [lia|].
  pose proof (es_reparto_length P n cols 0 col Hn Hinv Hcol) as HL.
  apply py_max_bound in Hm.
  assert (length col ≤ m).
  { eapply Forall_forall in Hm; [done|]. apply list_elem_of_fmap. exists col.
    split; [done|]. by eapply list_elem_of_lookup_2. }
  pose proof (Nat.div_mod_eq (length P) n).
  assert (length P mod n < n) by (apply Nat.mod_upper_bound; lia).
  case_bool_decide; nia.
Qed.

Lemma leer_columnas_loop (cols : list (list N)) (idxs : list nat) (out : list N) :
  Forall (λ i, i < length cols) idxs →
  foldM (λ out j, col ← getitem cols j; Ok (out ++ col)) out (Z.of_nat <$> idxs)
  = Ok (out ++ concat ((λ i, cols !!! i) <$> idxs)).
Proof.
  revert out. induction idxs as [|i idxs IH]; intros out Hlt.
  - simpl. by rewrite app_nil_r.
  - inversion_clear Hlt as [|?? Hi Hlt'].
    rewrite fmap_cons, foldM_cons.
    destruct (lookup_lt_is_Some_2 cols i Hi) as [col Hcol].
    rewrite (getitem_nat _ _ _ Hcol). cbn [mbind res_bind].
    rewrite IH by done. rewrite fmap_cons. simpl.
    rewrite (list_lookup_total_correct _ _ _ Hcol). by rewrite <-app_assoc.
Qed.

Lemma forallb_is_AZ_Forall (s : list N) :
  forallb is_AZ s = true ↔ Forall (λ ch, is_AZ ch = true) s.
Proof. rewrite forallb_forall, Forall_forall. by setoid_rewrite list_elem_of_In. Qed.

(** On upper-case A-Z text the normaliser does nothing. *)
Lemma normalizar_AZ_id {U : Unicode} {UA : UnicodeAZ U} (s : list N) :
  forallb is_AZ s = true → TranspositionWord.normalizar_AZ s = s.
Proof.
  intros Hs. unfold TranspositionWord.normalizar_AZ. destruct s as [|a s']; [done|].
  rewrite str_upper_AZ, normalize_NFD_AZ by done.
  apply forallb_is_AZ_Forall in Hs. revert Hs. generalize (a :: s'). clear -UA.
  induction 1 as [|ch s Hch Hs IH]; [done|].
  rewrite fmap_cons. rewrite (bool_decide_eq_false_2 (ch = 209%N)).
  2:{ intros ->. done. }
  rewrite filter_cons_True by (by apply category_Mn_AZ).
  rewrite filter_cons_True by done. by rewrite IH.
Qed.

(** The encoder on a valid order: the columns of the cyclic distribution of
    the normalised text, oriented, concatenated in reading order. *)
Lemma cifrar_spec {U : Unicode} (P : list N) (k : nat)
    (idxs : list nat) (order1 : list Z) (dir : col_direction) :
  1 ≤ k → length order1 = k →
  (λ i, i - 1)%Z <$> order1 = Z.of_nat <$> idxs → idxs ≡ₚ seq 0 k →
  ∃ cols,
    es_reparto (TranspositionWord.normalizar_AZ P) k cols ∧
    TranspositionWord.cifrar_por_orden_var P order1 dir
    = Ok (concat ((λ i, orientar dir cols !!! i) <$> idxs)).
Proof.
  intros Hk Hlen Hidxs Hp. destruct (perm_seq_facts k idxs Hp) as (Hnd & Hlt & Hlen').
  unfold TranspositionWord.cifrar_por_orden_var.
  rewrite Hlen, Hidxs.
  destruct (repartir_spec (TranspositionWord.normalizar_AZ P) k Hk) as (cols & -> & Hinv).
  cbn [mbind res_bind].
  exists cols. split; [done|]. destruct Hinv as [Hcl _].
  change (match dir with Up => reverse <$> cols | Down => cols end) with (orientar dir cols).
  rewrite leer_columnas_loop; [done|].
  assert (length (orientar dir cols) = k) as -> by (destruct dir; simpl; by rewrite ?length_fmap).
  done.
Qed.

Lemma orientar_length (dir : col_direction) (cols : list (list N)) :
  length (orientar dir cols) = length cols.
Proof. destruct dir; simpl; by rewrite ?length_fmap. Qed.

Lemma orientar_involutive (dir : col_direction) (cols : list (list N)) :
  orientar dir (orientar dir cols) = cols.
Proof.
  destruct dir; simpl; [done|]. rewrite <-list_fmap_compose.
  rewrite <-(list_fmap_id cols) at 2. apply Forall_fmap_ext_1, Forall_forall.
  intros col _. simpl. apply reverse_involutive.
Qed.

Lemma orientar_lookup_length (dir : col_direction) (cols : list (list N)) (i : nat) :
  length (orientar dir cols !!! i) = length (cols !!! i).
Proof.
  destruct dir; simpl; [done|].
  destruct (decide (i < length cols)) as [Hi|Hi].
  - destruct (lookup_lt_is_Some_2 cols i Hi) as [col Hcol].
    rewrite (list_lookup_total_correct _ _ _ Hcol).
    erewrite list_lookup_total_correct; [|by rewrite list_lookup_fmap, Hcol].
    apply length_reverse.
  - rewrite !list_lookup_total_alt. rewrite !lookup_ge_None_2; [done|lia|].
    rewrite length_fmap. lia.
Qed.

(** The cryptogram is a rearrangement of the plaintext. *)
Lemma cifrar_perm (P : list N) (k : nat) (idxs : list nat) (dir : col_direction)
    (cols : list (list N)) :
  1 ≤ k → es_reparto P k cols → idxs ≡ₚ seq 0 k →
  concat ((λ i, orientar dir cols !!! i) <$> idxs) ≡ₚ P.
Proof.
  intros Hk Hinv Hp. pose proof Hinv as [Hcl _].
  rewrite Hp, <-Hcl, <-(orientar_length dir cols), fmap_lookup_total_seq.
  trans (concat cols).
  { destruct dir; simpl; [done|]. apply concat_reverse_perm. }
  destruct (py_max_is_Ok (length <$> cols)) as [m Hm].
  { destruct cols; simpl in *; [lia|done]. }
  rewrite <-(leer_filas_max_perm cols m Hm), Hcl.
  by rewrite (es_reparto_leer P k m cols).
Qed.

(** ** Round trip *)

Lemma longs_natural_lookup_total (N k i : nat) :
  i < k → longs_natural N k !!! i = N / k + (if bool_decide (i < N mod k) then 1 else 0).
Proof.
  intros Hi. apply list_lookup_total_correct. unfold longs_natural.
  by rewrite list_lookup_fmap, lookup_seq_lt.
Qed.

(** Decoding with the natural geometry what the encoder produced. *)
Lemma descifrar_cifrado {U : Unicode} {UA : UnicodeAZ U} (P : list N) (k : nat)
    (order1 : list Z) (rule : long_rule) (dir : col_direction) :
  1 ≤ k →
  forallb is_AZ P = true →
  valid_order1 k order1 →
  TranspositionWord.longitudes_columnas (length P) k ((λ i, i - 1)%Z <$> order1) rule
  = Ok (longs_natural (length P) k) →
  ∃ C, TranspositionWord.cifrar_por_orden_var P order1 dir = Ok C ∧
       C ≡ₚ P ∧
       TranspositionWord.descifrar_por_orden C order1 rule dir = Ok P.
Proof.
  intros Hk HP Hv Hgeo. pose proof (valid_order1_length k order1 Hv) as Hlen.
  apply valid_order1_to_0 in Hv.
  destruct (valid_order0_nat k _ Hv) as (idxs & Hidxs & Hp).
  destruct (perm_seq_facts k idxs Hp) as (Hnd & Hlt & Hlen').
  destruct (cifrar_spec P k idxs order1 dir Hk Hlen Hidxs Hp) as (cols & Hinv & Hcif).
  rewrite normalizar_AZ_id in Hinv by done.
  pose proof (cifrar_perm P k idxs dir cols Hk Hinv Hp) as Hperm.
  set (X := orientar dir cols) in *.
  set (C := concat ((λ i, X !!! i) <$> idxs)) in *.
  pose proof Hinv as [Hcl _].
  assert (length X = k) as HXl by (unfold X; by rewrite orientar_length).
  exists C. split; [done|]. split; [done|].
  assert (forallb is_AZ C = true) as HC.
  { apply forallb_is_AZ_Forall. rewrite Hperm. by apply forallb_is_AZ_Forall. }
  unfold TranspositionWord.descifrar_por_orden.
  rewrite normalizar_AZ_id, Hlen by done.
  assert (length C = length P) as -> by (by rewrite Hperm).
  rewrite Hgeo. cbn [mbind res_bind].
  unfold TranspositionWord.asignar. rewrite Hidxs.
  rewrite tomar_segmento_loop; rewrite ?length_replicate;
    [|done|by unfold longs_natural; rewrite length_fmap, length_seq].
  cbn [mbind res_bind fst].
  assert ((λ i, longs_natural (length P) k !!! i) <$> idxs
          = length <$> ((λ i, X !!! i) <$> idxs)) as ->.
  { rewrite <-list_fmap_compose. apply Forall_fmap_ext_1.
    eapply Forall_impl; [exact Hlt|]. intros i Hi. simpl in Hi |- *.
    rewrite longs_natural_lookup_total by done. unfold X.
    rewrite orientar_lookup_length.
    destruct (lookup_lt_is_Some_2 cols i) as [col Hcol]; [lia|].
    rewrite (list_lookup_total_correct _ _ _ Hcol).
    symmetry. by eapply es_reparto_length. }
  pose proof (cortar_exact [] [] ((λ i, X !!! i) <$> idxs)) as Hcut.
  simpl in Hcut. rewrite app_nil_r in Hcut. fold C in Hcut. rewrite Hcut.
  rewrite colocar_exact; rewrite ?length_replicate; [|done|done].
  change (match dir with Up => reverse <$> X | Down => X end) with (orientar dir X).
  unfold X. rewrite orientar_involutive.
  destruct (py_max_is_Ok (length <$> cols)) as [m Hm].
  { destruct cols; simpl in *; [lia|done]. }
  rewrite Hm. cbn [mbind res_bind]. f_equal. by apply es_reparto_leer.
Qed.

(** The read rule gives the natural geometry when [k] divides [N]. *)
Lemma longitudes_read_divisible (N k : nat) (order0 : list Z) :
  1 ≤ k → N mod k = 0 →
  TranspositionWord.longitudes_columnas N k order0 Read = Ok (longs_natural N k).
Proof.
  intros Hk Hr. rewrite <-(longitudes_natural N k order0 Hk).
  unfold TranspositionWord.longitudes_columnas.
  rewrite bool_decide_eq_false_2 by lia. rewrite Hr. done.
Qed.

(** C1 (amended). Round trip: for every plaintext P over A-Z, every read
    order O that is a permutation of 1..k (k >= 1), either column direction,
    and every remainder rule whose geometry for (len P, k, O) is the one the
    encoder builds (the natural one: always under the natural rule, and
    under the read rule when it yields the same lengths, as it does when k
    divides len P), decoding the encoding of P gives P again. *)
Theorem round_trip {U : Unicode} {UA : UnicodeAZ U} (P : list N) (k : nat)
    (order1 : list Z) (rule : long_rule) (dir : col_direction) :
  1 ≤ k →
  forallb is_AZ P = true →
  valid_order1 k order1 →
  TranspositionWord.longitudes_columnas (length P) k ((λ i, i - 1)%Z <$> order1) rule
  = TranspositionWord.longitudes_columnas (length P) k ((λ i, i - 1)%Z <$> order1) Natural →
  ∃ C, TranspositionWord.cifrar_por_orden_var P order1 dir = Ok C ∧
       TranspositionWord.descifrar_por_orden C order1 rule dir = Ok P.
Proof.
  intros Hk HP Hv Hgeo. rewrite longitudes_natural in Hgeo by done.
  destruct (descifrar_cifrado P k order1 rule dir Hk HP Hv Hgeo) as (C & HC & _ & HD).
  by exists C.
Qed.

#[global] Instance ascii_unicode_AZ : UnicodeAZ ascii_unicode.
Proof.
  split.
  - intros s Hs. simpl. rewrite <-(list_fmap_id s) at 2.
    apply Forall_fmap_ext_1. apply forallb_is_AZ_Forall in Hs.
    eapply Forall_impl; [exact Hs|]. intros ch Hch. simpl.
    unfold is_AZ in Hch. apply andb_true_iff in Hch as [H1 H2].
    apply bool_decide_eq_true in H1, H2.
    rewrite (bool_decide_eq_false_2 (97 ≤ ch)%N) by lia. done.
  - done.
  - done.
Qed.

Lemma round_trip_witness :
  ∃ C, @TranspositionWord.cifrar_por_orden_var ascii_unicode
         (pystr "THEQUICKBROWNFOXJUMPS") [3; 1; 2]%Z Down = Ok C ∧
       @TranspositionWord.descifrar_por_orden ascii_unicode C [3; 1; 2]%Z Read Down
       = Ok (pystr "THEQUICKBROWNFOXJUMPS").
Proof.
  apply (@round_trip ascii_unicode ascii_unicode_AZ
           (pystr "THEQUICKBROWNFOXJUMPS") 3 [3; 1; 2]%Z Read Down).
  - lia.
  - reflexivity.
  - unfold valid_order1. by apply (bool_decide_unpack _).
  - reflexivity.
Defined.

(** C1 as stated fails under the read rule: "ABCD" encoded with the order
    [3,1,2] is "CADB", which the read rule cuts as 2+1+1 and decodes to
    "DBCA". *)
Lemma round_trip_read_counterexample :
  1 ≤ 3 ∧ forallb is_AZ (pystr "ABCD") = true ∧ valid_order1 3 [3; 1; 2]%Z ∧
  @TranspositionWord.cifrar_por_orden_var ascii_unicode (pystr "ABCD") [3; 1; 2]%Z Down
  = Ok (pystr "CADB") ∧
  @TranspositionWord.descifrar_por_orden ascii_unicode (pystr "CADB") [3; 1; 2]%Z Read Down
  = Ok (pystr "DBCA") ∧
  pystr "DBCA" ≠ pystr "ABCD".
Proof.
  split_and!; [lia|reflexivity|by apply (bool_decide_unpack _)|reflexivity|reflexivity|done].
Qed.

Example round_trip_quick_brown :
  @TranspositionWord.cifrar_por_orden_var ascii_unicode
    (pystr "THEQUICKBROWNFOXJUMPS") [3; 1; 2]%Z Down = Ok (pystr "EIBWOUSTQCRNXMHUKOFJP") ∧
  @TranspositionWord.descifrar_por_orden ascii_unicode
    (pystr "EIBWOUSTQCRNXMHUKOFJP") [3; 1; 2]%Z Natural Down
  = Ok (pystr "THEQUICKBROWNFOXJUMPS").
Proof. split; reflexivity. Qed.

(** ** The permutation generator *)


Lemma selections_elem {A : Type} (l : list A) (x : A) (rest : list A) :
  (x, rest) ∈ selections l ↔ ∃ l1 l2, l = l1 ++ x :: l2 ∧ rest = l1 ++ l2.
Proof.
  revert x rest. induction l as [|y l IH]; intros x rest; simpl.
  - split; [by intros ?%elem_of_nil|]. intros (l1 & l2 & H & _). by destruct l1.
  - rewrite elem_of_cons, list_elem_of_fmap. split.
    + intros [[= -> ->]|([x' rest'] & [= -> ->] & Hin)].
      * by exists [], l.
      * apply IH in Hin as (l1 & l2 & -> & ->). by exists (y :: l1), l2.
    + intros (l1 & l2 & Hl & ->). destruct l1 as [|z l1]; simpl in *.
      * injection Hl as -> ->. by left.
      * injection Hl as -> ->. right. exists (x, l1 ++ l2). split; [done|].
        apply IH. by exists l1, l2.
Qed.

Lemma selections_perm {A : Type} (l : list A) (x : A) (rest : list A) :
  (x, rest) ∈ selections l → l ≡ₚ x :: rest.
Proof.
  intros (l1 & l2 & -> & ->)%selections_elem. by rewrite Permutation_middle.
Qed.

Lemma selections_rest_length {A : Type} (l : list A) (p : A * list A) :
  p ∈ selections l → S (length p.2) = length l.
Proof.
  destruct p as [x rest]. intros Hp%selections_perm. rewrite Hp. done.
Qed.

Lemma permutations_n_elem {A : Type} (n : nat) (l p : list A) :
  length l = n → p ∈ permutations_n n l ↔ p ≡ₚ l.
Proof.
  revert l p. induction n as [|n IH]; intros l p Hlen.
  - destruct l; [|done]. simpl. rewrite list_elem_of_singleton. split.
    + by intros ->.
    + intros Hp. by apply Permutation_nil_r in Hp.
  - simpl. rewrite list_elem_of_bind. split.
    + intros ([x rest] & Hin & Hsel). simpl in Hin.
      apply list_elem_of_fmap in Hin as (p' & -> & Hp').
      pose proof (selections_rest_length _ _ Hsel) as Hl. simpl in Hl.
      apply IH in Hp'; [|lia]. rewrite Hp'. symmetry. by apply selections_perm.
    + intros Hp. destruct p as [|x p'].
      { apply Permutation_nil_l in Hp. by subst. }
      assert (x ∈ l) as Hx by (rewrite <-Hp; left).
      apply list_elem_of_split in Hx as (l1 & l2 & ->).
      exists (x, l1 ++ l2). split.
      * simpl. apply list_elem_of_fmap. exists p'. split; [done|].
        apply IH; [rewrite length_app in *; simpl in *; lia|].
        rewrite <-Permutation_middle in Hp. by apply Permutation_cons_inv in Hp.
      * apply selections_elem. by exists l1, l2.
Qed.




Lemma py_range_1 (k : Z) : py_range 1 (k + 1) = Z.of_nat <$> seq 1 (Z.to_nat k).
Proof.
  unfold py_range. replace (Z.to_nat (k + 1 - 1)) with (Z.to_nat k) by lia.
  rewrite <-fmap_S_seq, <-list_fmap_compose.
  apply Forall_fmap_ext_1, Forall_forall. intros i _. simpl. lia.
Qed.

Lemma foldl_mul_fact (n : nat) (a : nat) :
  foldl Z.mul (Z.of_nat (fact a)) (Z.of_nat <$> seq (S a) n) = Z.of_nat (fact (a + n)).
Proof.
  revert a. induction n as [|n IH]; intros a.
  - simpl. by rewrite Nat.add_0_r.
  - cbn [seq]. rewrite fmap_cons. cbn [foldl].
    replace (Z.of_nat (fact a) * Z.of_nat (S a))%Z with (Z.of_nat (fact (S a))).
    + rewrite IH. do 2 f_equal. lia.
    + change (fact (S a)) with (S a * fact a). lia.
Qed.

(** The running product [total] is [k!]. *)
Lemma total_fact (k : Z) :
  foldl Z.mul 1%Z (py_range 2 (k + 1)) = Z.of_nat (fact (Z.to_nat k)).
Proof.
  destruct (decide (k < 1)%Z) as [Hk|Hk].
  - rewrite py_range_empty by lia. replace (Z.to_nat k) with 0 by lia. done.
  - replace (py_range 2 (k + 1)) with (Z.of_nat <$> seq 2 (Z.to_nat k - 1)).
    + change 1%Z with (Z.of_nat (fact 1)). rewrite foldl_mul_fact. do 2 f_equal. lia.
    + unfold py_range. replace (Z.to_nat (k + 1 - 2)) with (Z.to_nat k - 1) by lia.
      change 2 with (S (S 0)) at 1. rewrite <-!fmap_S_seq, <-!list_fmap_compose.
      apply Forall_fmap_ext_1, Forall_forall. intros i _. simpl. lia.
Qed.


Lemma muestras_perm {R : Random} {RS : RandomShuffles R} (g : rng) (elems : list Z) (m : nat) :
  Forall (λ p, p ≡ₚ elems) (TranspositionWord.muestras g elems (length elems) m).
Proof.
  revert g. induction m as [|m IH]; intros g; simpl; [constructor|].
  constructor; [apply random_sample_all|apply IH].
Qed.

(** The candidate orders are permutations of 1..k whatever the mode. *)
Lemma perms_valid {R : Random} {RS : RandomShuffles R} (g : rng) (k maxperms : Z)
    (order1 : list Z) :
  order1 ∈ TranspositionWord.perms g k maxperms → valid_order1 (Z.to_nat k) order1.
Proof.
  unfold TranspositionWord.perms, valid_order1. rewrite py_range_1.
  case_bool_decide.
  - unfold itertools_permutations. by intros ?%permutations_n_elem.
  - intros Hin.
    pose proof (muestras_perm (random_seed 42) (Z.of_nat <$> seq 1 (Z.to_nat k))
                  (Z.to_nat maxperms)) as Hall.
    rewrite length_fmap, length_seq in Hall.
    by eapply Forall_forall in Hall.
Qed.


Lemma rotate_perm {A : Type} (n : nat) (l : list A) : rotate n l ≡ₚ l.
Proof.
  unfold rotate. rewrite Permutation_app_comm. by rewrite take_drop.
Qed.

#[global] Instance rotating_random_shuffles : RandomShuffles rotating_random.
Proof.
  split. intros g l. simpl. rewrite take_ge by (by rewrite length_rotate).
  apply rotate_perm.
Qed.

Example perms_3_exhaustive :
  @TranspositionWord.perms rotating_random 0 3 6
  = [[1; 2; 3]; [1; 3; 2]; [2; 1; 3]; [2; 3; 1]; [3; 1; 2]; [3; 2; 1]]%Z.
Proof. reflexivity. Qed.

Example perms_3_sampled :
  length (@TranspositionWord.perms rotating_random 0 3 5) = 5.
Proof. reflexivity. Qed.


(** ** Crib search *)

Lemma empieza_por_spec (w s : list N) :
  empieza_por w s = true ↔ ∃ b, s = w ++ b.
Proof.
  revert s. induction w as [|a w IH]; intros s; simpl.
  - split; [intros _; by exists s|done].
  - destruct s as [|c s]; simpl.
    + split; [done|]. by intros [b ?].
    + rewrite andb_true_iff, bool_decide_eq_true, IH. split.
      * intros [-> [b ->]]. by exists b.
      * intros [b [= -> ->]]. split; [done|]. by exists b.
Qed.

(** [str_in] is the substring test. *)
Lemma str_in_spec (w s : list N) :
  str_in w s = true ↔ ∃ a b, s = a ++ w ++ b.
Proof.
  induction s as [|c s IH]; simpl.
  - rewrite orb_false_r, empieza_por_spec. split.
    + intros [b Hb]. by exists [], b.
    + intros (a & b & H). symmetry in H. apply app_eq_nil in H as [-> H].
      by exists b.
  - rewrite orb_true_iff, empieza_por_spec, IH. split.
    + intros [[b Hb]|(a & b & ->)].
      * by exists [], b.
      * by exists (c :: a), b.
    + intros ([|c' a] & b & H); simpl in H.
      * left. by exists b.
      * right. injection H as -> ->. by exists a, b.
Qed.

Lemma cifrar_total {U : Unicode} (P : list N) (k : nat) (order1 : list Z)
    (dir : col_direction) :
  1 ≤ k → valid_order1 k order1 →
  ∃ C, TranspositionWord.cifrar_por_orden_var P order1 dir = Ok C.
Proof.
  intros Hk Hv. pose proof (valid_order1_length k order1 Hv) as Hlen.
  apply valid_order1_to_0 in Hv.
  destruct (valid_order0_nat k _ Hv) as (idxs & Hidxs & Hp).
  destruct (cifrar_spec P k idxs order1 dir Hk Hlen Hidxs Hp) as (cols & _ & ->).
  eauto.
Qed.

Lemma omap_cons_res {A B : Type} (f : A → option B) (x : A) (l : list A) :
  omap f (x :: l) = match f x with Some y => y :: omap f l | None => omap f l end.
Proof. done. Qed.

(** On a valid order no variant raises, so [probar_perm]'s loop is a filter
    of the variants, cut after the first hit under [stopfirst]. *)
Lemma probar_variantes_spec {U : Unicode} (cipher : list N) (k : nat)
    (order1 : list Z) (crib : list N) (stopfirst : bool)
    (vs : list (long_rule * col_direction)) (soluciones : list TranspositionWord.solucion) :
  1 ≤ k → valid_order1 k order1 →
  TranspositionWord.probar_variantes cipher order1 crib stopfirst vs soluciones
  = Ok (soluciones ++
        if stopfirst then take 1 (omap (acepta cipher order1 crib) vs)
        else omap (acepta cipher order1 crib) vs).
Proof.
  intros Hk Hv. revert soluciones. induction vs as [|[lr cd] vs IH]; intros soluciones.
  - simpl. destruct stopfirst; simpl; by rewrite app_nil_r.
  - cbn [TranspositionWord.probar_variantes]. rewrite omap_cons_res.
    destruct (descifrar_valid cipher k order1 lr cd Hk Hv) as (plain & Hd & _).
    assert (acepta cipher order1 crib (lr, cd)
            = if str_in crib plain
                 && bool_decide (TranspositionWord.cifrar_por_orden_var plain order1 cd
                                 = Ok (TranspositionWord.normalizar_AZ cipher))
              then Some (order1, lr, cd, plain) else None) as ->.
    { unfold acepta. cbn [fst snd]. by rewrite Hd. }
    rewrite Hd. cbn [mbind res_bind].
    destruct (str_in crib plain) eqn:Hin; cbn [andb]; [|apply IH].
    destruct (cifrar_total plain k order1 cd Hk Hv) as [rec Hrec].
    rewrite Hrec. cbn [mbind res_bind].
    destruct (decide (rec = TranspositionWord.normalizar_AZ cipher)) as [Heq|Hne].
    + rewrite !bool_decide_eq_true_2 by (by rewrite ?Heq).
      destruct stopfirst; [done|]. rewrite IH. by rewrite <-app_assoc.
    + rewrite !bool_decide_eq_false_2 by (by intros [= ?]). apply IH.
Qed.

Lemma acepta_Some {U : Unicode} (cipher : list N) (order1 : list Z) (crib : list N)
    (v : long_rule * col_direction) (s : TranspositionWord.solucion) :
  acepta cipher order1 crib v = Some s ↔
  ∃ plain,
    s = (order1, v.1, v.2, plain) ∧
    TranspositionWord.descifrar_por_orden cipher order1 v.1 v.2 = Ok plain ∧
    (∃ a b, plain = a ++ crib ++ b) ∧
    TranspositionWord.cifrar_por_orden_var plain order1 v.2
    = Ok (TranspositionWord.normalizar_AZ cipher).
Proof.
  unfold acepta. setoid_rewrite <-str_in_spec. split.
  - destruct (TranspositionWord.descifrar_por_orden _ _ _ _) as [plain|]; [|done].
    destruct (str_in crib plain) eqn:Hin; [|done]. cbn [andb].
    case_bool_decide; [|done]. intros [= <-]. exists plain. by split_and!.
  - intros (plain & -> & -> & -> & Hrec). cbn [andb].
    by rewrite bool_decide_eq_true_2.
Qed.

Lemma variantes_elem (lrs : list long_rule) (cds : list col_direction)
    (lr : long_rule) (cd : col_direction) :
  (lr, cd) ∈ TranspositionWord.variantes lrs cds ↔ lr ∈ lrs ∧ cd ∈ cds.
Proof.
  unfold TranspositionWord.variantes. rewrite list_elem_of_bind. split.
  - intros (lr' & Hin & Hlr). apply list_elem_of_bind in Hin as (cd' & Hin & Hcd).
    apply list_elem_of_singleton in Hin as [= -> ->]. done.
  - intros [Hlr Hcd]. exists lr. split; [|done]. apply list_elem_of_bind.
    exists cd. split; [|done]. by apply list_elem_of_singleton.
Qed.

(** [probar_perm] on a valid order. *)
Lemma probar_perm_spec {U : Unicode} (cipher : list N) (k : nat)
    (order1 : list Z) (crib : list N) (lrs : list long_rule)
    (cds : list col_direction) (stopfirst : bool) :
  1 ≤ k → valid_order1 k order1 →
  TranspositionWord.probar_perm cipher order1 crib lrs cds stopfirst
  = Ok (if stopfirst
        then take 1 (omap (acepta cipher order1 crib) (TranspositionWord.variantes lrs cds))
        else omap (acepta cipher order1 crib) (TranspositionWord.variantes lrs cds)).
Proof.
  intros Hk Hv. unfold TranspositionWord.probar_perm.
  by rewrite (probar_variantes_spec cipher k).
Qed.

(** C2 (amended). Crib-search acceptance on a candidate order (a
    permutation of 1..k, k >= 1): [probar_perm] raises nothing; every
    solution it emits is a configured variant whose decoded plaintext
    contains the crib as a contiguous substring and whose re-encryption
    under the same order and column direction is the normalised cryptogram;
    without stop-on-first-match every such variant is emitted, so a variant
    is emitted exactly when both tests pass; with stop-on-first-match only
    the first one of them is emitted. *)
Theorem crib_acceptance {U : Unicode} (cipher : list N) (k : nat)
    (order1 : list Z) (crib : list N) (lrs : list long_rule)
    (cds : list col_direction) (stopfirst : bool) :
  1 ≤ k →
  valid_order1 k order1 →
  ∃ sols,
    TranspositionWord.probar_perm cipher order1 crib lrs cds stopfirst = Ok sols ∧
    (∀ s, s ∈ sols →
       ∃ lr cd plain,
         s = (order1, lr, cd, plain) ∧ lr ∈ lrs ∧ cd ∈ cds ∧
         TranspositionWord.descifrar_por_orden cipher order1 lr cd = Ok plain ∧
         (∃ a b, plain = a ++ crib ++ b) ∧
         TranspositionWord.cifrar_por_orden_var plain order1 cd
         = Ok (TranspositionWord.normalizar_AZ cipher)) ∧
    (stopfirst = false →
       ∀ lr cd plain,
         lr ∈ lrs → cd ∈ cds →
         TranspositionWord.descifrar_por_orden cipher order1 lr cd = Ok plain →
         (∃ a b, plain = a ++ crib ++ b) →
         TranspositionWord.cifrar_por_orden_var plain order1 cd
         = Ok (TranspositionWord.normalizar_AZ cipher) →
         (order1, lr, cd, plain) ∈ sols) ∧
    (stopfirst = true →
       ∀ todas,
         TranspositionWord.probar_perm cipher order1 crib lrs cds false = Ok todas →
         sols = take 1 todas).
Proof.
  intros Hk Hv. rewrite (probar_perm_spec cipher k) by done.
  set (todas := omap (acepta cipher order1 crib) (TranspositionWord.variantes lrs cds)).
  eexists. split; [done|]. split_and!.
  - intros s Hs.
    assert (s ∈ todas) as Hs'.
    { destruct stopfirst; [|done]. apply list_elem_of_lookup in Hs as [i Hi].
      apply lookup_take_Some in Hi as [Hi _]. by eapply list_elem_of_lookup_2. }
    apply list_elem_of_omap in Hs' as ([lr cd] & Hv' & Hacc).
    apply variantes_elem in Hv' as [Hlr Hcd].
    apply acepta_Some in Hacc as (plain & -> & Hd & Hc & Hr).
    by exists lr, cd, plain.
  - intros -> lr cd plain Hlr Hcd Hd Hc Hr.
    apply list_elem_of_omap. exists (lr, cd). split; [by apply variantes_elem|].
    apply acepta_Some. by exists plain.
  - intros -> todas' Htodas. rewrite (probar_perm_spec cipher k) in Htodas by done.
    by injection Htodas as <-.
Qed.

Lemma crib_acceptance_witness :
  ∃ sols,
    @TranspositionWord.probar_perm ascii_unicode (pystr "CADB") [3; 1; 2]%Z (pystr "AB")
      [Natural; Read] [Down; Up] false = Ok sols ∧
    (∀ s, s ∈ sols →
       ∃ lr cd plain,
         s = ([3; 1; 2]%Z, lr, cd, plain) ∧ lr ∈ [Natural; Read] ∧ cd ∈ [Down; Up] ∧
         @TranspositionWord.descifrar_por_orden ascii_unicode (pystr "CADB") [3; 1; 2]%Z lr cd
         = Ok plain ∧
         (∃ a b, plain = a ++ pystr "AB" ++ b) ∧
         @TranspositionWord.cifrar_por_orden_var ascii_unicode plain [3; 1; 2]%Z cd
         = Ok (@TranspositionWord.normalizar_AZ ascii_unicode (pystr "CADB"))) ∧
    (false = false →
       ∀ lr cd plain,
         lr ∈ [Natural; Read] → cd ∈ [Down; Up] →
         @TranspositionWord.descifrar_por_orden ascii_unicode (pystr "CADB") [3; 1; 2]%Z lr cd
         = Ok plain →
         (∃ a b, plain = a ++ pystr "AB" ++ b) →
         @TranspositionWord.cifrar_por_orden_var ascii_unicode plain [3; 1; 2]%Z cd
         = Ok (@TranspositionWord.normalizar_AZ ascii_unicode (pystr "CADB")) →
         ([3; 1; 2]%Z, lr, cd, plain) ∈ sols) ∧
    (false = true →
       ∀ todas,
         @TranspositionWord.probar_perm ascii_unicode (pystr "CADB") [3; 1; 2]%Z (pystr "AB")
           [Natural; Read] [Down; Up] false = Ok todas →
         sols = take 1 todas).
Proof.
  apply (@crib_acceptance ascii_unicode (pystr "CADB") 3 [3; 1; 2]%Z (pystr "AB")
           [Natural; Read] [Down; Up] false).
  - lia.
  - by apply (bool_decide_unpack _).
Defined.

(** C2 as stated fails under stop-on-first-match: on "ABCD" with the order
    [1,2] both geometries decode to "ACBD", which contains the crib "A" and
    re-encrypts to "ABCD"; the read variant passes both tests and is not
    emitted, because the search returned on the natural one. *)
Lemma crib_acceptance_counterexample :
  @TranspositionWord.probar_perm ascii_unicode (pystr "ABCD") [1; 2]%Z (pystr "A")
    [Natural; Read] [Down] true
  = Ok [([1; 2]%Z, Natural, Down, pystr "ACBD")] ∧
  Read ∈ [Natural; Read] ∧ Down ∈ [Down] ∧
  @TranspositionWord.descifrar_por_orden ascii_unicode (pystr "ABCD") [1; 2]%Z Read Down
  = Ok (pystr "ACBD") ∧
  (∃ a b, pystr "ACBD" = a ++ pystr "A" ++ b) ∧
  @TranspositionWord.cifrar_por_orden_var ascii_unicode (pystr "ACBD") [1; 2]%Z Down
  = Ok (@TranspositionWord.normalizar_AZ ascii_unicode (pystr "ABCD")) ∧
  ([1; 2]%Z, Read, Down, pystr "ACBD") ∉ [([1; 2]%Z, Natural, Down, pystr "ACBD")].
Proof.
  split_and!.
  - reflexivity.
  - set_solver.
  - set_solver.
  - reflexivity.
  - by exists [], (pystr "CBD").
  - reflexivity.
  - intros Hin. apply list_elem_of_singleton in Hin. discriminate Hin.
Qed.

(** ** The sweep over permutations and column counts *)

(** Without stop-on-first-match the loop over the candidate orders gathers
    what every order yields. *)
Lemma explorar_bucle_todas {U : Unicode} (cipher crib : list N) (k : nat)
    (lrs : list long_rule) (cds : list col_direction) (ps : list (list Z))
    (soluciones : list TranspositionWord.solucion) :
  1 ≤ k → Forall (valid_order1 k) ps →
  TranspositionWord.explorar_bucle cipher crib lrs cds false ps soluciones
  = Ok (soluciones ++
        (ps ≫= λ order1, omap (acepta cipher order1 crib)
                          (TranspositionWord.variantes lrs cds))).
Proof.
  intros Hk Hps. revert soluciones.
  induction Hps as [|order1 ps Hv _ IH]; intros soluciones.
  - simpl. by rewrite app_nil_r.
  - cbn [TranspositionWord.explorar_bucle]. rewrite (probar_perm_spec cipher k) by done.
    cbn [mbind res_bind]. rewrite bind_cons.
    destruct (omap _ _) as [|s sols].
    + apply IH.
    + rewrite IH. by rewrite <-app_assoc.
Qed.

Lemma perms_exhaustive {R : Random} (g : rng) (k : nat) (maxperms : Z) :
  (Z.of_nat (fact k) ≤ maxperms)%Z →
  TranspositionWord.perms g (Z.of_nat k) maxperms
  = itertools_permutations (Z.of_nat <$> seq 1 k).
Proof.
  intros Hle. unfold TranspositionWord.perms.
  rewrite total_fact, Nat2Z.id, py_range_1, Nat2Z.id.
  by rewrite bool_decide_eq_true_2.
Qed.

Lemma explorar_permutaciones_todas {U : Unicode} {R : Random} {RS : RandomShuffles R}
    (g : rng) (cipher crib : list N) (k : Z) (lrs : list long_rule)
    (cds : list col_direction) (maxperms : Z) :
  (1 ≤ k)%Z →
  TranspositionWord.explorar_permutaciones g cipher k crib lrs cds false maxperms
  = Ok (TranspositionWord.perms g k maxperms
        ≫= λ order1, omap (acepta cipher order1 crib)
                       (TranspositionWord.variantes lrs cds)).
Proof.
  intros Hk. unfold TranspositionWord.explorar_permutaciones.
  rewrite (explorar_bucle_todas cipher crib (Z.to_nat k)); [done|lia|].
  apply Forall_forall. intros order1. apply perms_valid.
Qed.

Lemma barrer_k_todas {U : Unicode} {R : Random} {RS : RandomShuffles R}
    (g : rng) (C W : list N) (lrs : list long_rule) (cds : list col_direction)
    (maxperms : Z) (ks : list Z) (soluciones : list TranspositionWord.solucion) :
  Forall (λ k, 1 ≤ k)%Z ks →
  TranspositionWord.barrer_k g C W lrs cds false maxperms ks soluciones
  = Ok (soluciones ++
        (ks ≫= λ k, TranspositionWord.perms g k maxperms
                     ≫= λ order1, omap (acepta C order1 W)
                                    (TranspositionWord.variantes lrs cds))).
Proof.
  intros Hks. revert soluciones. induction Hks as [|k ks Hk _ IH]; intros soluciones.
  - simpl. by rewrite app_nil_r.
  - cbn [TranspositionWord.barrer_k]. rewrite explorar_permutaciones_todas by done.
    cbn [mbind res_bind]. rewrite bind_cons.
    generalize (TranspositionWord.perms g k maxperms
                ≫= λ order1, omap (acepta C order1 W) (TranspositionWord.variantes lrs cds)).
    intros [|s sols].
    + apply IH.
    + rewrite IH. by rewrite <-app_assoc.
Qed.

(** C4 (amended). Planted key: let P be a plaintext over A-Z that contains
    the crib, O a permutation of 1..k (k >= 1), and V = (rule, dir) a variant
    whose geometry for (len P, k, O) is the natural one that the encoder
    builds (always under the natural rule).  If C = encode(P, O, dir), then
    the crib search on C without stop-on-first-match, over a range of column
    counts [kmin, kmax] with 1 <= kmin <= k <= kmax, a variant set that
    includes V and a permutation budget of at least k!, returns a list of
    solutions that contains (O, V, P). *)
Theorem planted_key {U : Unicode} {UA : UnicodeAZ U} {R : Random}
    {RS : RandomShuffles R} (g : rng) (P crib C : list N) (k : nat)
    (order1 : list Z) (rule : long_rule) (dir : col_direction)
    (kmin kmax maxperms : Z) (lrs : list long_rule) (cds : list col_direction) :
  1 ≤ k →
  forallb is_AZ P = true →
  (∃ a b, P = a ++ crib ++ b) →
  valid_order1 k order1 →
  TranspositionWord.longitudes_columnas (length P) k ((λ i, i - 1)%Z <$> order1) rule
  = TranspositionWord.longitudes_columnas (length P) k ((λ i, i - 1)%Z <$> order1) Natural →
  TranspositionWord.cifrar_por_orden_var P order1 dir = Ok C →
  (1 ≤ kmin ∧ kmin ≤ Z.of_nat k ∧ Z.of_nat k ≤ kmax)%Z →
  rule ∈ lrs → dir ∈ cds →
  (Z.of_nat (fact k) ≤ maxperms)%Z →
  ∃ sols,
    TranspositionWord.buscar_crib g C crib kmin kmax lrs cds false maxperms = Ok sols ∧
    (order1, rule, dir, P) ∈ sols.
Proof.
  intros Hk HP Hcrib Hv Hgeo HC (Hmin & Hle & Hmax) Hrule Hdir Hbudget.
  rewrite longitudes_natural in Hgeo by done.
  destruct (descifrar_cifrado P k order1 rule dir Hk HP Hv Hgeo) as (C' & HC' & Hperm & HD).
  rewrite HC in HC'. injection HC' as <-.
  assert (forallb is_AZ C = true) as HCaz.
  { apply forallb_is_AZ_Forall. rewrite Hperm. by apply forallb_is_AZ_Forall. }
  unfold TranspositionWord.buscar_crib. rewrite barrer_k_todas.
  2:{ apply Forall_forall. intros k' Hk'. apply py_range_elem in Hk'. lia. }
  eexists. split; [done|]. simpl.
  apply list_elem_of_bind. exists (Z.of_nat k). split; [|apply py_range_elem; lia].
  apply list_elem_of_bind. exists order1. split.
  - apply list_elem_of_omap. exists (rule, dir). split; [by apply variantes_elem|].
    apply acepta_Some. exists P. split_and!; [done|done|done|].
    simpl. by rewrite normalizar_AZ_id.
  - rewrite perms_exhaustive by done. unfold itertools_permutations.
    apply permutations_n_elem; [by rewrite length_fmap, length_seq|done].
Qed.

Lemma planted_key_witness :
  ∃ sols,
    @TranspositionWord.buscar_crib ascii_unicode rotating_random 0
      (pystr "CADB") (pystr "AB") 2 3 [Natural; Read] [Down; Up] false 6 = Ok sols ∧
    ([3; 1; 2]%Z, Natural, Down, pystr "ABCD") ∈ sols.
Proof.
  apply (@planted_key ascii_unicode ascii_unicode_AZ rotating_random
           rotating_random_shuffles 0 (pystr "ABCD") (pystr "AB") (pystr "CADB") 3
           [3; 1; 2]%Z Natural Down 2 3 6 [Natural; Read] [Down; Up]).
  - lia.
  - reflexivity.
  - by exists [], (pystr "CD").
  - by apply (bool_decide_unpack _).
  - reflexivity.
  - reflexivity.
  - lia.
  - by apply (bool_decide_unpack _).
  - by apply (bool_decide_unpack _).
  - simpl. lia.
Defined.

(** C4 as stated fails in two ways.  Under the read rule: "ABCD" with the
    crib "AB", encoded with the order [3,1,2], is "CADB", and the search over
    k = 3 with the variant (read, down) and the full budget finds nothing.
    Under stop-on-first-match: "AB" with the crib "A", encoded with the order
    [2,1], is "BA", and the search returns the first order that passes, whose
    plaintext is "BA". *)
Lemma planted_key_counterexample :
  (forallb is_AZ (pystr "ABCD") = true ∧
   (∃ a b, pystr "ABCD" = a ++ pystr "AB" ++ b) ∧
   valid_order1 3 [3; 1; 2]%Z ∧
   @TranspositionWord.cifrar_por_orden_var ascii_unicode (pystr "ABCD") [3; 1; 2]%Z Down
   = Ok (pystr "CADB") ∧
   (Z.of_nat (fact 3) ≤ 6)%Z ∧
   @TranspositionWord.buscar_crib ascii_unicode rotating_random 0
     (pystr "CADB") (pystr "AB") 3 3 [Read] [Down] false 6 = Ok []) ∧
  (forallb is_AZ (pystr "AB") = true ∧
   (∃ a b, pystr "AB" = a ++ pystr "A" ++ b) ∧
   valid_order1 2 [2; 1]%Z ∧
   @TranspositionWord.cifrar_por_orden_var ascii_unicode (pystr "AB") [2; 1]%Z Down
   = Ok (pystr "BA") ∧
   (Z.of_nat (fact 2) ≤ 2)%Z ∧
   @TranspositionWord.buscar_crib ascii_unicode rotating_random 0
     (pystr "BA") (pystr "A") 2 2 [Natural] [Down] true 2
   = Ok [([1; 2]%Z, Natural, Down, pystr "BA")] ∧
   pystr "BA" ≠ pystr "AB").
Proof.
  split; split_and!.
  - reflexivity.
  - by exists [], (pystr "CD").
  - by apply (bool_decide_unpack _).
  - reflexivity.
  - simpl. lia.
  - reflexivity.
  - reflexivity.
  - by exists [], (pystr "B").
  - by apply (bool_decide_unpack _).
  - reflexivity.
  - simpl. lia.
  - reflexivity.
  - done.
Qed.

(** ** Scoring *)

Lemma ventanas_length (s : list N) : length (ventanas s) = length s - 2.
Proof.
  induction s as [|a s IH]; [done|].
  destruct s as [|b [|c s']]; [done|done|].
  change (ventanas (a :: b :: c :: s')) with ([a; b; c] :: ventanas (b :: c :: s')).
  simpl length in *. lia.
Qed.

Lemma ventanas_lookup (s : list N) (i : nat) :
  i + 3 ≤ length s → ventanas s !! i = Some (take 3 (drop i s)).
Proof.
  revert i. induction s as [|a s IH]; intros i Hi; [simpl in Hi; lia|].
  destruct s as [|b [|c s']]; [simpl in Hi; lia|simpl in Hi; lia|].
  change (ventanas (a :: b :: c :: s')) with ([a; b; c] :: ventanas (b :: c :: s')).
  destruct i as [|i]; [done|].
  simpl lookup. rewrite IH by (simpl in *; lia). done.
Qed.

Lemma ventanas_slices (s : list N) :
  ventanas s = (λ i, slice s i (i + 3)) <$> seq 0 (length s - 2).
Proof.
  apply list_eq. intros i. rewrite list_lookup_fmap.
  destruct (decide (i < length s - 2)) as [Hi|Hi].
  - rewrite lookup_seq_lt by done. simpl.
    rewrite ventanas_lookup by lia. by rewrite slice_take_drop.
  - rewrite lookup_seq_ge by lia. simpl. apply lookup_ge_None.
    rewrite ventanas_length. lia.
Qed.

Lemma foldl_fmap_res {A B C : Type} (f : C → B → C) (g : A → B) (c : C) (l : list A) :
  foldl f c (g <$> l) = foldl (λ c x, f c (g x)) c l.
Proof. revert c. induction l as [|x l IH]; intros c; simpl; [done|]. apply IH. Qed.

(** C7. Scoring: on a text shorter than 3 symbols [score_text] returns the
    sentinel (-1e9); on a text of length L >= 3 it returns the sum, taken
    from 0.0 left to right, over the L - 2 overlapping three-symbol windows
    (window i is the symbols i, i+1, i+2), of the table's log-probability of
    the window, with the floor [TRI_DEF] for a window that the table does
    not hold. *)
Theorem score_text_spec {M : Scoring} (s : list N) :
  (length s < 3 → AutoTranspo.score_text s = score_sentinel) ∧
  (3 ≤ length s →
     AutoTranspo.score_text s
     = foldl score_add score_zero
         ((λ tri, match TRI !! tri with Some lp => lp | None => TRI_DEF end)
            <$> ventanas s) ∧
     length (ventanas s) = length s - 2 ∧
     ∀ i, i < length s - 2 →
       ∃ a b c, s !! i = Some a ∧ s !! (i + 1) = Some b ∧ s !! (i + 2) = Some c ∧
                ventanas s !! i = Some [a; b; c]).
Proof.
  split.
  - intros Hlt. unfold AutoTranspo.score_text. by rewrite bool_decide_eq_true_2.
  - intros Hge. split_and!.
    + unfold AutoTranspo.score_text. rewrite bool_decide_eq_false_2 by lia.
      rewrite ventanas_slices, <-list_fmap_compose, foldl_fmap_res. reflexivity.
    + apply ventanas_length.
    + intros i Hi.
      destruct (lookup_lt_is_Some_2 s i) as [a Ha]; [lia|].
      destruct (lookup_lt_is_Some_2 s (i + 1)) as [b Hb]; [lia|].
      destruct (lookup_lt_is_Some_2 s (i + 2)) as [c Hc]; [lia|].
      exists a, b, c. split_and!; [done|done|done|].
      rewrite ventanas_lookup by lia. f_equal.
      rewrite (drop_S _ _ _ Ha). replace (S i) with (i + 1) by lia.
      rewrite (drop_S _ _ _ Hb). replace (S (i + 1)) with (i + 2) by lia.
      rewrite (drop_S _ _ _ Hc). done.
Qed.

Example score_text_short :
  @AutoTranspo.score_text toy_scoring (pystr "QU") = (-10000000000)%Z.
Proof. reflexivity. Qed.

Example score_text_theque :
  @AutoTranspo.score_text toy_scoring (pystr "THEQUE") = (-25 + -105 + -105 + -25)%Z.
Proof. reflexivity. Qed.

(** ** The beam search *)

Lemma mapM_res_cons {A B : Type} (f : A → res B) (x : A) (l : list A) :
  mapM_res f (x :: l) = (y ← f x; ys ← mapM_res f l; Ok (y :: ys)).
Proof. done. Qed.

(** The partial reconstruction indexes every column of [range(n)] at every
    row below [min_rows]: with a column that is still empty it raises. *)
Lemma parcial_de_raises (cols2 : list (list N)) (n min_rows : nat) (seg : list N) :
  2 ≤ n → 1 ≤ min_rows →
  cols2 !! 0 = Some seg → 1 ≤ length seg → cols2 !! 1 = Some [] →
  AutoTranspo.parcial_de cols2 n min_rows = Raise IndexError.
Proof.
  intros Hn Hm H0 Hseg H1. unfold AutoTranspo.parcial_de.
  destruct n as [|[|n]]; [lia|lia|]. destruct min_rows as [|m]; [lia|].
  cbn [seq]. rewrite !bind_cons. cbn [app].
  rewrite !mapM_res_cons. cbn [fst snd].
  rewrite (getitem_nat cols2 0 seg H0). cbn [mbind res_bind].
  destruct seg as [|ch seg]; [simpl in Hseg; lia|].
  rewrite (getitem_nat (ch :: seg) 0 ch) by done. cbn [mbind res_bind].
  rewrite (getitem_nat cols2 1 [] H1). cbn [mbind res_bind].
  rewrite (getitem_nat_ge [] 0) by done. done.
Qed.

Lemma longs_natural_length (N k : nat) : length (longs_natural N k) = k.
Proof. unfold longs_natural. by rewrite length_fmap, length_seq. Qed.

(** The first extension of the first step already raises. *)
Lemma extender_con_raises {M : Scoring} (cipher : list N) (n : nat) :
  2 ≤ n → cipher ≠ [] →
  AutoTranspo.extender_con cipher n (longs_natural (length cipher) n)
    ([], replicate n [], 0, score_zero) 0
  = Raise IndexError.
Proof.
  intros Hn Hc. unfold AutoTranspo.extender_con.
  assert (1 ≤ length cipher) as HN by (destruct cipher; [done|simpl; lia]).
  set (L := length cipher / n + (if bool_decide (0 < length cipher mod n) then 1 else 0)).
  assert (longs_natural (length cipher) n !! 0 = Some L) as HL.
  { unfold longs_natural. rewrite list_lookup_fmap, lookup_seq_lt by lia. done. }
  assert (1 ≤ L) as HL1.
  { unfold L. pose proof (Nat.div_mod_eq (length cipher) n).
    case_bool_decide; [lia|]. destruct (length cipher / n); [nia|lia]. }
  rewrite (getitem_nat _ 0 L HL). cbn [mbind res_bind].
  rewrite (setitem_nat _ 0) by (rewrite length_replicate; lia). cbn [mbind res_bind].
  set (seg := slice cipher 0 (0 + L)).
  assert (1 ≤ length seg) as Hseg.
  { unfold seg, slice. rewrite length_take, length_drop. lia. }
  set (cols2 := <[0:=seg]> (replicate n [])).
  assert (cols2 !! 0 = Some seg) as H0.
  { unfold cols2. apply list_lookup_insert_eq. rewrite length_replicate. lia. }
  assert (cols2 !! 1 = Some []) as H1.
  { unfold cols2. rewrite list_lookup_insert_ne by done.
    apply lookup_replicate_2. lia. }
  unfold AutoTranspo.min_filas. cbn [app mapM_res].
  rewrite (getitem_nat cols2 0 seg H0). cbn [mbind res_bind py_min foldl].
  by rewrite (parcial_de_raises cols2 n (length seg) seg).
Qed.

Lemma paso_haz_raises {M : Scoring} (cipher : list N) (n : nat) (beam : Z) :
  2 ≤ n → cipher ≠ [] →
  AutoTranspo.paso_haz cipher n (longs_natural (length cipher) n) beam
    [([], replicate n [], 0, score_zero)]
  = Raise IndexError.
Proof.
  intros Hn Hc. unfold AutoTranspo.paso_haz. rewrite mapM_res_cons.
  unfold AutoTranspo.extender. cbn [fst snd].
  destruct n as [|n]; [lia|]. cbn [seq].
  rewrite filter_cons_True by apply not_elem_of_nil.
  rewrite mapM_res_cons. by rewrite extender_con_raises.
Qed.

(** C5 (the defect). For every non-empty cryptogram and every column count
    n >= 2, whatever the beam width and the number of results asked for,
    [beam_search] raises [IndexError] in its first step: it never returns a
    ranking that could be compared with the exhaustive scorer. *)
Theorem beam_search_raises {M : Scoring} (cipher : list N) (n : nat) (beam topk : Z) :
  2 ≤ n →
  cipher ≠ [] →
  AutoTranspo.beam_search cipher n beam topk = Raise IndexError.
Proof.
  intros Hn Hc. unfold AutoTranspo.beam_search.
  rewrite longitudes_auto_natural by lia. cbn [mbind res_bind].
  assert (seq 0 n = 0 :: seq 1 (n - 1)) as -> by (destruct n; [lia|]; simpl; f_equal; f_equal; lia).
  rewrite foldM_cons. by rewrite paso_haz_raises.
Qed.

Lemma beam_search_raises_witness :
  @AutoTranspo.beam_search toy_scoring (pystr "ABCDEF") 2 2 1 = Raise IndexError.
Proof.
  apply (@beam_search_raises toy_scoring (pystr "ABCDEF") 2 2 1).
  - lia.
  - discriminate.
Defined.

(** On the same input the exhaustive scorer ranks both orders. *)
Example fuerza_bruta_ABCDEF :
  @AutoTranspo.fuerza_bruta toy_scoring (pystr "ABCDEF") 2
  = Ok [((-70)%Z, [0; 1], pystr "ADBECF"); ((-70)%Z, [1; 0], pystr "DAEBFC")].
Proof. reflexivity. Qed.

(** With a single column nothing is left unassigned and the search returns. *)
Example beam_search_one_column :
  @AutoTranspo.beam_search toy_scoring (pystr "ABCDEF") 1 2 1
  = Ok [((-70)%Z, [0], pystr "ABCDEF")].
Proof. reflexivity. Qed.

(** ** The sweep over column counts *)

Lemma foldl_min_is (l : list nat) (a q : nat) :
  q ≤ a → Forall (λ x, q ≤ x) l → a = q ∨ q ∈ l → foldl Nat.min a l = q.
Proof.
  revert a. induction l as [|x l IH]; intros a Ha Hl Hq; simpl.
  - destruct Hq as [->|Hq]; [done|]. by apply elem_of_nil in Hq.
  - inversion_clear Hl as [|?? Hx Hl']. apply IH; [lia|done|].
    destruct Hq as [->|Hq]; [left; lia|].
    apply elem_of_cons in Hq as [->|Hq]; [left; lia|by right].
Qed.

Lemma py_min_is (l : list nat) (q : nat) :
  Forall (λ x, q ≤ x) l → q ∈ l → py_min l = Ok q.
Proof.
  intros Hl Hq. destruct l as [|x l]; [by apply elem_of_nil in Hq|].
  simpl. f_equal. inversion_clear Hl as [|?? Hx Hl'].
  apply foldl_min_is; [done|done|].
  apply elem_of_cons in Hq as [->|Hq]; [by left|by right].
Qed.

(** The shortest column under the natural rule has [N div n] symbols. *)
Lemma py_min_longs_natural (N n : nat) :
  1 ≤ n → py_min (longs_natural N n) = Ok (N / n).
Proof.
  intros Hn. assert (N mod n < n) as Hr by (apply Nat.mod_upper_bound; lia).
  apply py_min_is.
  - unfold longs_natural. apply Forall_fmap, Forall_forall. intros i _. simpl. lia.
  - unfold longs_natural. apply list_elem_of_fmap. exists (n - 1). split.
    + rewrite bool_decide_eq_false_2 by lia. lia.
    + apply elem_of_seq. lia.
Qed.

(** What [search_n] rejects, in terms of the quotient. *)
Lemma sin_geometria_div (cipher : list N) (n : Z) :
  sin_geometria cipher n ↔ (n < 2)%Z ∨ length cipher / Z.to_nat n < 3.
Proof.
  unfold sin_geometria. destruct (decide (n < 2)%Z) as [Hn|Hn]; [by split; left|].
  rewrite longitudes_auto_natural by lia. split.
  - intros [?|(longs & m & [= <-] & Hm & Hlt)]; [by left|right].
    rewrite py_min_longs_natural in Hm by lia. injection Hm as <-. done.
  - intros [?|Hlt]; [by left|right]. eexists _, _. split_and!; [done| |exact Hlt].
    apply py_min_longs_natural. lia.
Qed.

Lemma foldM_id {A S : Type} (f : S → A → res S) (s : S) (l : list A) :
  (∀ x, x ∈ l → f s x = Ok s) → foldM f s l = Ok s.
Proof.
  induction l as [|x l IH]; intros Hf; [done|].
  rewrite foldM_cons, Hf by left. cbn [mbind res_bind]. apply IH.
  intros y Hy. apply Hf. by right.
Qed.

Lemma slice_to_nil {A : Type} (b : Z) : slice_to (@nil A) b = [].
Proof. unfold slice_to. case_bool_decide; by rewrite take_nil. Qed.

#[global] Instance sin_geometria_dec (cipher : list N) (n : Z) :
  Decision (sin_geometria cipher n).
Proof.
  destruct (decide ((n < 2)%Z ∨ length cipher / Z.to_nat n < 3)) as [H|H];
    [left|right]; by rewrite sin_geometria_div.
Defined.

(** C9. Empty-result semantics of the sweep: a column count below 2, or
    with a shortest column below 3 symbols, is passed over (the loop body
    leaves the candidates as they are and raises nothing), so the sweep over
    any list of column counts is the sweep over those of them that have a
    geometry; and when no column count of [nmin, nmax] has one, [search_n]
    returns the empty list. *)
Theorem search_n_no_geometry {M : Scoring} (cipher : list N) (nmin nmax beam kbest : Z) :
  (∀ candidatos n,
     sin_geometria cipher n →
     AutoTranspo.search_n_paso cipher beam kbest candidatos n = Ok candidatos) ∧
  (∀ candidatos ns,
     foldM (AutoTranspo.search_n_paso cipher beam kbest) candidatos ns
     = foldM (AutoTranspo.search_n_paso cipher beam kbest) candidatos
         (filter (λ n, ¬ sin_geometria cipher n) ns)) ∧
  ((∀ n, (nmin ≤ n ≤ nmax)%Z → sin_geometria cipher n) →
   AutoTranspo.search_n cipher nmin nmax beam kbest = Ok []).
Proof.
  assert (∀ candidatos n, sin_geometria cipher n →
            AutoTranspo.search_n_paso cipher beam kbest candidatos n = Ok candidatos) as Hpaso.
  { intros candidatos n Hn. unfold AutoTranspo.search_n_paso.
    destruct Hn as [Hlt|(longs & m & Hlongs & Hm & Hlt)].
    - by rewrite bool_decide_eq_true_2.
    - case_bool_decide; [done|]. rewrite Hlongs. cbn [mbind res_bind].
      rewrite Hm. cbn [mbind res_bind]. by rewrite bool_decide_eq_true_2. }
  split_and!.
  - done.
  - intros candidatos ns. revert candidatos.
    induction ns as [|n ns IH]; intros candidatos; [done|].
    rewrite filter_cons. destruct (decide (¬ sin_geometria cipher n)) as [Hn|Hn].
    + rewrite !foldM_cons.
      destruct (AutoTranspo.search_n_paso _ _ _ _ _) as [c|e]; [|done].
      cbn [mbind res_bind]. apply IH.
    + apply dec_stable in Hn. rewrite foldM_cons, Hpaso by done.
      cbn [mbind res_bind]. apply IH.
  - intros Hall. unfold AutoTranspo.search_n. rewrite foldM_id.
    + cbn [mbind res_bind sort_desc]. by rewrite slice_to_nil.
    + intros n Hn. apply py_range_elem in Hn. apply Hpaso, Hall. lia.
Qed.

Lemma search_n_no_geometry_witness :
  (∀ n, (0 ≤ n ≤ 4)%Z → sin_geometria (pystr "ABCDE") n) ∧
  @AutoTranspo.search_n toy_scoring (pystr "ABCDE") 0 4 5 5 = Ok [].
Proof.
  assert (∀ n, (0 ≤ n ≤ 4)%Z → sin_geometria (pystr "ABCDE") n) as Hall.
  { intros n Hn. apply sin_geometria_div.
    destruct (decide (n < 2)%Z) as [|Hge]; [by left|right].
    assert ((n = 2)%Z ∨ (n = 3)%Z ∨ (n = 4)%Z) as Hcases by lia.
    destruct Hcases as [Hc|[Hc|Hc]]; rewrite Hc; simpl; lia. }
  split; [exact Hall|].
  exact (proj2 (proj2 (@search_n_no_geometry toy_scoring (pystr "ABCDE") 0 4 5 5)) Hall).
Defined.

(** ** The stable descending sort *)

Section SortFacts.
Context {A K : Type} (ltb : K → K → bool) (key : A → K).
Hypothesis ltb_asym : ∀ a b, ltb a b = true → ltb b a = false.
Hypothesis ltb_negtrans : ∀ a b c, ltb a b = false → ltb b c = false → ltb a c = false.

Lemma insert_desc_perm (x : A) (l : list A) : insert_desc ltb key x l ≡ₚ x :: l.
Proof.
  induction l as [|y l IH]; simpl; [done|].
  destruct (ltb (key x) (key y)); [|done]. rewrite IH. apply perm_swap.
Qed.

Lemma sort_desc_perm (l : list A) : sort_desc ltb key l ≡ₚ l.
Proof. induction l as [|x l IH]; simpl; [done|]. by rewrite insert_desc_perm, IH. Qed.


(** Sortedness, stated on the head and the tail. *)
Lemma descendente_cons (x : A) (l : list A) :
  descendente ltb key (x :: l) ↔
  Forall (λ y, ltb (key x) (key y) = false) l ∧ descendente ltb key l.
Proof.
  unfold descendente. split.
  - intros H. split.
    + apply Forall_forall. intros y Hy. apply list_elem_of_lookup in Hy as [j Hj].
      apply (H 0 (S j) x y); [lia|done|done].
    + intros i j a b Hij Ha Hb. apply (H (S i) (S j) a b); [lia|done|done].
  - intros [Hx Hl] i j a b Hij Ha Hb. destruct j as [|j]; [lia|]. simpl in Hb.
    destruct i as [|i]; simpl in Ha.
    + injection Ha as <-. eapply Forall_forall in Hx; [done|].
      by eapply list_elem_of_lookup_2.
    + apply (Hl i j a b); [lia|done|done].
Qed.

Lemma descendente_nil : descendente ltb key [].
Proof. intros i j x y _ H. done. Qed.

Lemma insert_desc_descendente (x : A) (l : list A) :
  descendente ltb key l → descendente ltb key (insert_desc ltb key x l).
Proof.
  induction l as [|y l IH]; intros Hl; simpl.
  - apply descendente_cons. split; [constructor|apply descendente_nil].
  - apply descendente_cons in Hl as [Hy Hl].
    destruct (ltb (key x) (key y)) eqn:Hxy.
    + apply descendente_cons. split; [|by apply IH].
      rewrite insert_desc_perm. constructor; [by apply ltb_asym|done].
    + apply descendente_cons. split; [|by apply descendente_cons].
      constructor; [done|]. eapply Forall_impl; [exact Hy|].
      intros z Hz. simpl in *. by eapply ltb_negtrans.
Qed.

Lemma sort_desc_descendente (l : list A) : descendente ltb key (sort_desc ltb key l).
Proof.
  induction l as [|x l IH]; simpl; [apply descendente_nil|].
  by apply insert_desc_descendente.
Qed.

End SortFacts.

(** ** The stable descending sort on the keys it is given *)

Section SortFactsEn.
Context {A K : Type} (ltb : K → K → bool) (key : A → K) (dom : K → Prop).
Hypothesis ltb_asym_en : ∀ a b, dom a → dom b → ltb a b = true → ltb b a = false.
Hypothesis ltb_negtrans_en :
  ∀ a b c, dom a → dom b → dom c → ltb a b = false → ltb b c = false → ltb a c = false.








End SortFactsEn.

(** ** The comparison of binary64 scores *)




(** With NaN among the scores the comparison is not a strict weak order. *)
Example nan_no_ordena : ¬ orden_debil_en PrimFloat.ltb [1%float; nan; 0%float].
Proof.
  intros [_ H]. specialize (H 0%float nan 1%float).
  assert (PrimFloat.ltb 0 1 = false) as Hc.
  { apply H; try reflexivity; repeat (first [left | right]). }
  vm_compute in Hc. done.
Qed.

(** ** Pruning *)

Lemma slice_to_nonneg {A : Type} (l : list A) (b : Z) :
  (0 ≤ b)%Z → slice_to l b = take (Z.to_nat b) l.
Proof. intros Hb. unfold slice_to. by rewrite bool_decide_eq_false_2 by lia. Qed.


Example podar_tres_estados :
  @AutoTranspo.podar toy_scoring 2 tres_estados
  = [([1], [[]], 0, (-3)%Z); ([0], [[]], 0, (-5)%Z)].
Proof. reflexivity. Qed.


(** A step over two states with the scores 0.0 and 1.0: the extensions of
    the second state pass before those of the first, each pair in generation
    order, and a beam of width 3 drops the last one. *)
Example paso_haz_ordena :
  @AutoTranspo.paso_haz float_scoring (pystr "AB") 2 [1; 1] 3 dos_estados
  = Ok [([0], [[65%N]; [66%N]], 1, (-499999999)%float);
        ([1], [[65%N]; [65%N]], 1, (-499999999)%float);
        ([0], [[65%N]; [66%N]], 1, (-500000000)%float)].
Proof. reflexivity. Qed.
(** * Further properties of the two programs *)

(** ** The normalisers *)

Lemma filter_is_AZ (s : list N) :
  forallb is_AZ (filter (λ ch, is_AZ ch = true) s) = true.
Proof.
  apply forallb_is_AZ_Forall, Forall_forall. intros ch Hch.
  by apply list_elem_of_filter in Hch as [? _].
Qed.

Lemma normalizar_AZ_solo_AZ {U : Unicode} (s : list N) :
  forallb is_AZ (TranspositionWord.normalizar_AZ s) = true.
Proof.
  unfold TranspositionWord.normalizar_AZ. destruct s; [done|]. apply filter_is_AZ.
Qed.



Lemma filter_id_Forall {A : Type} (P : A → Prop) `{∀ x, Decision (P x)} (l : list A) :
  Forall P l → filter P l = l.
Proof.
  induction 1 as [|x l Hx _ IH]; [done|]. rewrite filter_cons_True by done. by rewrite IH.
Qed.




(** ** The stable ascending sort *)

Section SortedFacts.
Context {A K : Type} (ltb : K → K → bool) (key : A → K).
Hypothesis ltb_asym : ∀ a b, ltb a b = true → ltb b a = false.
Hypothesis ltb_negtrans : ∀ a b c, ltb a b = false → ltb b c = false → ltb a c = false.

(** Sorting upwards is sorting downwards for the converse comparison. *)
Lemma py_sorted_sort_desc (l : list A) :
  py_sorted ltb key l = sort_desc (flip ltb) key l.
Proof.
  induction l as [|x l IH]; simpl; [done|]. rewrite IH.
  generalize (sort_desc (flip ltb) key l). intros m.
  induction m as [|y m IHm]; simpl; [done|]. unfold flip at 1. by rewrite IHm.
Qed.

Lemma py_sorted_perm (l : list A) : py_sorted ltb key l ≡ₚ l.
Proof. rewrite py_sorted_sort_desc. apply sort_desc_perm. Qed.

Lemma py_sorted_ascendente (l : list A) :
  ∀ i j x y, i < j → py_sorted ltb key l !! i = Some x → py_sorted ltb key l !! j = Some y →
    ltb (key y) (key x) = false.
Proof.
  rewrite py_sorted_sort_desc.
  apply (sort_desc_descendente (flip ltb) key).
  - intros a b. unfold flip. apply ltb_asym.
  - intros a b c. unfold flip. intros H1 H2. by apply (ltb_negtrans c b a).
Qed.

End SortedFacts.

Lemma ascendente_StronglySorted {A : Type} (R : relation A) (l : list A) :
  (∀ i j x y, i < j → l !! i = Some x → l !! j = Some y → R x y) →
  StronglySorted R l.
Proof.
  induction l as [|x l IH]; intros H; constructor.
  - apply IH. intros i j a b Hij Ha Hb. by apply (H (S i) (S j)); [lia|..].
  - apply Forall_forall. intros y Hy. apply list_elem_of_lookup in Hy as [j Hj].
    by apply (H 0 (S j)); [lia|..].
Qed.

(** ** The order of two-element tuples *)

Lemma tuple_ltb_N_nat (p q : N * nat) :
  tuple_ltb N.ltb Nat.ltb p q = true ↔ (p.1 < q.1)%N ∨ (p.1 = q.1 ∧ p.2 < q.2).
Proof.
  unfold tuple_ltb. case_bool_decide as H.
  - rewrite Nat.ltb_lt. split; [by right|]. intros [?|[_ ?]]; [lia|done].
  - rewrite N.ltb_lt. split; [by left|]. intros [?|[? _]]; done.
Qed.

Lemma tuple_ltb_nat_nat (p q : nat * nat) :
  tuple_ltb Nat.ltb Nat.ltb p q = true ↔ p.1 < q.1 ∨ (p.1 = q.1 ∧ p.2 < q.2).
Proof.
  unfold tuple_ltb. case_bool_decide as H.
  - rewrite Nat.ltb_lt. split; [by right|]. intros [?|[_ ?]]; [lia|done].
  - rewrite Nat.ltb_lt. split; [by left|]. intros [?|[? _]]; done.
Qed.

Lemma tuple_ltb_N_nat_false (p q : N * nat) :
  tuple_ltb N.ltb Nat.ltb p q = false ↔ (q.1 < p.1)%N ∨ (p.1 = q.1 ∧ q.2 ≤ p.2).
Proof.
  rewrite <-not_true_iff_false, tuple_ltb_N_nat. lia.
Qed.

Lemma tuple_ltb_nat_nat_false (p q : nat * nat) :
  tuple_ltb Nat.ltb Nat.ltb p q = false ↔ q.1 < p.1 ∨ (p.1 = q.1 ∧ q.2 ≤ p.2).
Proof.
  rewrite <-not_true_iff_false, tuple_ltb_nat_nat. lia.
Qed.

(** ** Keyword to read order *)

Lemma imap_snd_seq {A : Type} (l : list A) (a : nat) :
  snd <$> imap (λ i (ch : A), (ch, a + i)) l = seq a (length l).
Proof.
  revert a. induction l as [|x l IH]; intros a; [done|].
  rewrite imap_cons. cbn [fmap list_fmap snd length seq]. rewrite Nat.add_0_r. f_equal.
  rewrite <-IH. f_equal. apply imap_ext. intros i y _. simpl. f_equal. lia.
Qed.

Lemma imap_lookup_pair {A : Type} (l : list A) (i : nat) (p : A * nat) :
  imap (λ i (ch : A), (ch, i)) l !! i = Some p → p.2 = i ∧ l !! i = Some p.1.
Proof.
  rewrite list_lookup_imap. destruct (l !! i) as [x|]; simpl; [|done].
  intros [= <-]. done.
Qed.

Lemma imap_elem_pair {A : Type} (l : list A) (p : A * nat) :
  p ∈ imap (λ i (ch : A), (ch, i)) l ↔ l !! p.2 = Some p.1.
Proof.
  rewrite list_elem_of_lookup. split.
  - intros [i Hi]. apply imap_lookup_pair in Hi as [<- H]. done.
  - intros H. exists p.2. rewrite list_lookup_imap, H. simpl. by destruct p.
Qed.

(** The rank loop: the column of the [j]-th pair receives the rank
    [r0 + j]. *)
Lemma rangos_loop (pares : list (N * nat)) (rank0 : list nat) (r0 : nat) :
  Forall (λ p : N * nat, p.2 < length rank0) pares →
  NoDup (snd <$> pares) →
  ∃ rank,
    foldM (λ (st : list nat * nat) (p : N * nat),
             rank ← setitem st.1 (Z.of_nat p.2) st.2; Ok (rank, st.2 + 1))
          (rank0, r0) pares
    = Ok (rank, r0 + length pares) ∧
    length rank = length rank0 ∧
    (∀ j p, pares !! j = Some p → rank !! p.2 = Some (r0 + j)) ∧
    (∀ i, i ∉ snd <$> pares → rank !! i = rank0 !! i).
Proof.
  revert rank0 r0. induction pares as [|p pares IH]; intros rank0 r0 Hlt Hnd.
  - exists rank0. simpl. rewrite Nat.add_0_r. repeat split; [|done..]. done.
  - apply Forall_cons in Hlt as [Hp Hlt]. rewrite fmap_cons in Hnd.
    apply NoDup_cons in Hnd as [Hnotin Hnd].
    rewrite foldM_cons. cbn [fst snd]. rewrite setitem_nat by done.
    cbn [mbind res_bind].
    destruct (IH (<[p.2 := r0]> rank0) (r0 + 1)) as (rank & Hrun & Hlen & Hin & Hout).
    { eapply Forall_impl; [exact Hlt|]. intros q Hq. simpl. by rewrite length_insert. }
    { done. }
    exists rank. rewrite Hrun. repeat split.
    + f_equal. f_equal. simpl. lia.
    + by rewrite Hlen, length_insert.
    + intros [|j] q Hq; simpl in Hq.
      * injection Hq as <-. rewrite Hout by done. rewrite Nat.add_0_r.
        by apply list_lookup_insert_eq.
      * rewrite (Hin j q Hq). f_equal. lia.
    + intros i Hi. rewrite fmap_cons in Hi. apply not_elem_of_cons in Hi as [Hne Hi].
      rewrite Hout by done. by apply list_lookup_insert_ne.
Qed.

Lemma mapM_res_Ok {A B : Type} (f : A → res B) (g : A → B) (l : list A) :
  (∀ x, x ∈ l → f x = Ok (g x)) → mapM_res f l = Ok (g <$> l).
Proof.
  induction l as [|x l IH]; intros H; [done|].
  rewrite mapM_res_cons, H by left. cbn [mbind res_bind].
  rewrite IH; [done|]. intros y Hy. apply H. by right.
Qed.

Lemma fmap_imap_lookup {A B : Type} (f : nat → A → B) (g : A → B) (l : list A) :
  (∀ j x, l !! j = Some x → g x = f j x) → g <$> l = imap f l.
Proof.
  intros H. apply list_eq. intros j. rewrite list_lookup_fmap, list_lookup_imap.
  destruct (l !! j) as [x|] eqn:Hx; simpl; [|done]. f_equal. by apply H.
Qed.

(** What [keyword_to_order_read] returns on the normalised keyword: the
    positions of the sorted pairs. *)
Lemma orden_de_palabra_pares (w : list N) :
  orden_de_palabra w
  = Ok (snd <$> py_sorted (tuple_ltb N.ltb Nat.ltb) id (imap (λ i ch, (ch, i)) w)).
Proof.
  unfold orden_de_palabra, rangos.
  set (pares := py_sorted _ id _).
  assert (pares ≡ₚ imap (λ i ch, (ch, i)) w) as Hperm by apply py_sorted_perm.
  assert (snd <$> pares ≡ₚ seq 0 (length w)) as Hidx.
  { rewrite Hperm. by rewrite <-(imap_snd_seq w 0). }
  destruct (rangos_loop pares (replicate (length w) 0) 1) as (rank & Hrun & Hlen & Hin & _).
  { apply Forall_forall. intros p Hp. rewrite length_replicate.
    assert (p.2 ∈ snd <$> pares) as H2 by (apply list_elem_of_fmap; eauto).
    rewrite Hidx in H2. apply elem_of_seq in H2. lia. }
  { rewrite Hidx. apply NoDup_seq. }
  rewrite Hrun. cbn [mbind res_bind fst]. rewrite length_replicate in Hlen.
  (* every column has a rank *)
  assert (∀ i, i < length w → ∃ r, rank !! i = Some r) as Hrank.
  { intros i Hi. apply lookup_lt_is_Some. lia. }
  rewrite (mapM_res_Ok _ (λ i, (rank !!! i, i))).
  2:{ intros i Hi. apply elem_of_seq in Hi. destruct (Hrank i) as [r Hr]; [lia|].
      rewrite (getitem_nat _ _ _ Hr). cbn [mbind res_bind].
      by rewrite (list_lookup_total_correct _ _ _ Hr). }
  cbn [mbind res_bind]. f_equal.
  set (target := imap (λ j (p : N * nat), (1 + j, p.2)) pares).
  assert (snd <$> target = snd <$> pares) as <-.
  { unfold target. apply list_eq. intros j.
    rewrite !list_lookup_fmap, list_lookup_imap. by destruct (pares !! j). }
  f_equal.
  apply (StronglySorted_unique_strong
           (λ p q : nat * nat, tuple_ltb Nat.ltb Nat.ltb q p = false)).
  - intros p q _ _ Hpq Hqp. apply tuple_ltb_nat_nat_false in Hpq, Hqp.
    destruct p, q; simpl in *. f_equal; lia.
  - apply ascendente_StronglySorted.
    apply (py_sorted_ascendente (tuple_ltb Nat.ltb Nat.ltb) id).
    + intros a b Hab. apply tuple_ltb_nat_nat in Hab. apply tuple_ltb_nat_nat_false. lia.
    + intros a b c Hab Hbc. apply tuple_ltb_nat_nat_false in Hab, Hbc.
      apply tuple_ltb_nat_nat_false. lia.
  - apply ascendente_StronglySorted. intros i j x y Hij Hx Hy.
    unfold target in Hx, Hy. rewrite list_lookup_imap in Hx, Hy.
    destruct (pares !! i) as [p|]; [|done]. destruct (pares !! j) as [q|]; [|done].
    simpl in Hx, Hy. injection Hx as <-. injection Hy as <-.
    apply tuple_ltb_nat_nat_false. simpl. lia.
  - rewrite py_sorted_perm.
    transitivity ((λ i, (rank !!! i, i)) <$> (snd <$> pares)).
    { by rewrite Hidx. }
    rewrite <-list_fmap_compose. unfold target.
    erewrite fmap_imap_lookup; [done|].
    intros j p Hp. simpl. by rewrite (list_lookup_total_correct _ _ _ (Hin j p Hp)).
Qed.

Lemma orden_de_palabra_spec (w : list N) :
  ∃ order0,
    orden_de_palabra w = Ok order0 ∧
    order0 ≡ₚ seq 0 (length w) ∧
    (∀ a b i j x y, a < b → order0 !! a = Some i → order0 !! b = Some j →
       w !! i = Some x → w !! j = Some y → (x < y)%N ∨ (x = y ∧ i < j)).
Proof.
  eexists. split; [apply orden_de_palabra_pares|].
  set (pares := py_sorted _ id _).
  assert (pares ≡ₚ imap (λ i ch, (ch, i)) w) as Hperm by apply py_sorted_perm.
  split.
  - rewrite Hperm. by rewrite <-(imap_snd_seq w 0).
  - intros a b i j x y Hab Hi Hj Hx Hy.
    rewrite list_lookup_fmap in Hi, Hj.
    destruct (pares !! a) as [p|] eqn:Hp; [|done].
    destruct (pares !! b) as [q|] eqn:Hq; [|done].
    simpl in Hi, Hj. injection Hi as <-. injection Hj as <-.
    assert (p ∈ imap (λ i ch, (ch, i)) w) as Hpin.
    { rewrite <-Hperm. by eapply list_elem_of_lookup_2. }
    assert (q ∈ imap (λ i ch, (ch, i)) w) as Hqin.
    { rewrite <-Hperm. by eapply list_elem_of_lookup_2. }
    apply imap_elem_pair in Hpin, Hqin.
    assert (p.1 = x) as <- by congruence. assert (q.1 = y) as <- by congruence.
    pose proof (py_sorted_ascendente (tuple_ltb N.ltb Nat.ltb) id) as Hs.
    specialize (Hs ltac:(intros u v Huv; apply tuple_ltb_N_nat in Huv;
                         apply tuple_ltb_N_nat_false; lia)).
    specialize (Hs ltac:(intros u v t Huv Hvt; apply tuple_ltb_N_nat_false in Huv, Hvt;
                         apply tuple_ltb_N_nat_false; lia)).
    specialize (Hs _ a b p q Hab Hp Hq). simpl in Hs.
    apply tuple_ltb_N_nat_false in Hs.
    destruct Hs as [Hs|[Hs1 Hs2]]; [by left|].
    right. split; [done|].
    (* the two pairs are different elements of a list without duplicates *)
    assert (p.2 ≠ q.2); [|lia].
    intros Heq.
    assert (NoDup (snd <$> pares)) as Hnd.
    { assert (snd <$> pares ≡ₚ seq 0 (length w)) as ->; [|apply NoDup_seq].
      rewrite Hperm. by rewrite <-(imap_snd_seq w 0). }
    assert (a = b); [|lia].
    eapply NoDup_lookup; [exact Hnd|..].
    + by rewrite list_lookup_fmap, Hp.
    + by rewrite list_lookup_fmap, Hq, Heq.
Qed.

Lemma es_orden_de_unique (w : list N) (o1 o2 : list nat) :
  es_orden_de w o1 → es_orden_de w o2 → o1 = o2.
Proof.
  intros [Hp1 Hs1] [Hp2 Hs2].
  set (R := λ i j : nat, ∀ x y, w !! i = Some x → w !! j = Some y →
                          (x < y)%N ∨ (x = y ∧ i < j)).
  apply (StronglySorted_unique_strong R).
  - intros i j Hi Hj Hij Hji. exfalso.
    rewrite Hp1 in Hi. rewrite Hp2 in Hj. apply elem_of_seq in Hi, Hj.
    destruct (lookup_lt_is_Some_2 w i) as [x Hx]; [lia|].
    destruct (lookup_lt_is_Some_2 w j) as [y Hy]; [lia|].
    specialize (Hij x y Hx Hy). specialize (Hji y x Hy Hx). lia.
  - apply ascendente_StronglySorted. intros a b i j Hab Hi Hj x y Hx Hy.
    by apply (Hs1 a b i j).
  - apply ascendente_StronglySorted. intros a b i j Hab Hi Hj x y Hx Hy.
    by apply (Hs2 a b i j).
  - by rewrite Hp1, Hp2.
Qed.

Lemma orden_de_palabra_es_orden (w : list N) :
  ∃ order0, orden_de_palabra w = Ok order0 ∧ es_orden_de w order0.
Proof.
  destruct (orden_de_palabra_spec w) as (order0 & Hrun & Hperm & Hs).
  exists order0. by repeat split.
Qed.

Lemma valid_order0_of_nat (k : nat) (order0 : list nat) :
  order0 ≡ₚ seq 0 k → valid_order0 k (Z.of_nat <$> order0).
Proof. intros H. unfold valid_order0. by rewrite H. Qed.

Lemma valid_order1_of_nat (k : nat) (order0 : list nat) :
  order0 ≡ₚ seq 0 k → valid_order1 k ((λ i, Z.of_nat i + 1)%Z <$> order0).
Proof.
  intros H. unfold valid_order1. rewrite H.
  replace (Z.of_nat <$> seq 1 k) with ((λ i, Z.of_nat i + 1)%Z <$> seq 0 k); [done|].
  rewrite <-fmap_S_seq, <-list_fmap_compose.
  apply list_fmap_ext. intros _ i _. simpl. lia.
Qed.

(** X2. [keyword_to_order_read], in both programs, never raises and
    returns the columns of the normalised keyword listed by letter, equal
    letters from left to right; this list is a read order of the columns
    [0..k-1], and it is the only list with that property. *)
Theorem keyword_to_order_read_spec {U : Unicode} (keyword : list N) :
  (∃ order0,
     TranspositionWord.keyword_to_order_read keyword = Ok order0 ∧
     es_orden_de (TranspositionWord.normalizar_AZ keyword) order0 ∧
     valid_order0 (length (TranspositionWord.normalizar_AZ keyword)) (Z.of_nat <$> order0) ∧
     ∀ o, es_orden_de (TranspositionWord.normalizar_AZ keyword) o → o = order0) ∧
  (∃ order0,
     AutoTranspo.keyword_to_order_read keyword = Ok order0 ∧
     es_orden_de (AutoTranspo.normalizar keyword) order0 ∧
     valid_order0 (length (AutoTranspo.normalizar keyword)) (Z.of_nat <$> order0) ∧
     ∀ o, es_orden_de (AutoTranspo.normalizar keyword) o → o = order0).
Proof.
  split.
  - destruct (orden_de_palabra_es_orden (TranspositionWord.normalizar_AZ keyword))
      as (order0 & Hrun & Hes).
    exists order0. repeat split; [done|apply Hes|apply Hes| |].
    + apply valid_order0_of_nat, Hes.
    + intros o Ho. by apply (es_orden_de_unique _ _ _ Ho Hes).
  - destruct (orden_de_palabra_es_orden (AutoTranspo.normalizar keyword))
      as (order0 & Hrun & Hes).
    exists order0. repeat split; [done|apply Hes|apply Hes| |].
    + apply valid_order0_of_nat, Hes.
    + intros o Ho. by apply (es_orden_de_unique _ _ _ Ho Hes).
Qed.

Example keyword_ROMA :
  @TranspositionWord.keyword_to_order_read ascii_unicode (pystr "Roma") = Ok [3; 2; 1; 0] ∧
  @AutoTranspo.keyword_to_order_read ascii_unicode (pystr "diamante")
  = Ok [2; 4; 0; 7; 1; 3; 5; 6].
Proof. split; reflexivity. Qed.

(** ** Subscripts out of range and negative subscripts *)

Lemma envolver_rango (k : nat) (i : Z) :
  en_rango k i → (0 ≤ envolver k i < Z.of_nat k)%Z.
Proof. unfold en_rango, envolver. intros H. case_bool_decide; lia. Qed.

Lemma envolver_en_rango (k : nat) (i : Z) : en_rango k (envolver k i) ↔ en_rango k i.
Proof. unfold en_rango, envolver. case_bool_decide; lia. Qed.

Lemma py_idx_en_rango (len : nat) (i : Z) :
  en_rango len i → py_idx len i = Ok (Z.to_nat (envolver len i)).
Proof.
  unfold en_rango, envolver, py_idx. intros H.
  destruct (decide (i < 0)%Z).
  - rewrite (bool_decide_eq_false_2 (0 ≤ i < _)%Z) by lia.
    by rewrite !bool_decide_eq_true_2 by lia.
  - rewrite (bool_decide_eq_true_2 (0 ≤ i < _)%Z) by lia.
    by rewrite bool_decide_eq_false_2 by lia.
Qed.

Lemma py_idx_fuera (len : nat) (i : Z) :
  ¬ en_rango len i → py_idx len i = Raise IndexError.
Proof.
  unfold en_rango, py_idx. intros H. by rewrite !bool_decide_eq_false_2 by lia.
Qed.

Lemma py_idx_envolver (len : nat) (i : Z) : py_idx len (envolver len i) = py_idx len i.
Proof.
  destruct (decide (en_rango len i)) as [H|H].
  - rewrite (py_idx_en_rango len i H).
    pose proof (envolver_rango len i H) as Hr.
    rewrite py_idx_en_rango by (unfold en_rango; lia).
    do 2 f_equal. unfold envolver at 1. by rewrite bool_decide_eq_false_2 by lia.
  - unfold envolver. by rewrite bool_decide_eq_false_2 by (unfold en_rango in H; lia).
Qed.

Lemma getitem_en_rango {A : Type} (l : list A) (i : Z) :
  en_rango (length l) i → ∃ x, getitem l i = Ok x ∧ l !! Z.to_nat (envolver (length l) i) = Some x.
Proof.
  intros H. unfold getitem. rewrite py_idx_en_rango by done. cbn [mbind res_bind].
  pose proof (envolver_rango _ _ H).
  destruct (lookup_lt_is_Some_2 l (Z.to_nat (envolver (length l) i))) as [x Hx]; [lia|].
  exists x. by rewrite Hx.
Qed.

Lemma getitem_fuera {A : Type} (l : list A) (i : Z) :
  ¬ en_rango (length l) i → getitem l i = Raise IndexError.
Proof. intros H. unfold getitem. by rewrite py_idx_fuera. Qed.

Lemma getitem_envolver {A : Type} (l : list A) (i : Z) :
  getitem l (envolver (length l) i) = getitem l i.
Proof. unfold getitem. by rewrite py_idx_envolver. Qed.

Lemma setitem_en_rango {A : Type} (l : list A) (i : Z) (x : A) :
  en_rango (length l) i → ∃ l', setitem l i x = Ok l' ∧ length l' = length l.
Proof.
  intros H. unfold setitem. rewrite py_idx_en_rango by done. cbn [mbind res_bind].
  eexists. split; [done|]. by rewrite length_insert.
Qed.

Lemma setitem_fuera {A : Type} (l : list A) (i : Z) (x : A) :
  ¬ en_rango (length l) i → setitem l i x = Raise IndexError.
Proof. intros H. unfold setitem. by rewrite py_idx_fuera. Qed.

Lemma setitem_envolver {A : Type} (l : list A) (i : Z) (x : A) :
  setitem l (envolver (length l) i) x = setitem l i x.
Proof. unfold setitem. by rewrite py_idx_envolver. Qed.

(** A loop over subscripts whose body accepts exactly the subscripts in
    range and reads a negative subscript as the position it denotes. *)
Section FoldSubscripts.
Context {S : Type} (k : nat) (f : S → Z → res S) (I : S → Prop).
Hypothesis f_ok : ∀ s x, I s → en_rango k x → ∃ s', f s x = Ok s' ∧ I s'.
Hypothesis f_fuera : ∀ s x, I s → ¬ en_rango k x → f s x = Raise IndexError.
Hypothesis f_env : ∀ s x, I s → f s (envolver k x) = f s x.

Lemma foldM_en_rango (s : S) (l : list Z) :
  I s → Forall (en_rango k) l → ∃ s', foldM f s l = Ok s' ∧ I s'.
Proof.
  revert s. induction l as [|x l IH]; intros s Hs Hl; [by exists s|].
  apply Forall_cons in Hl as [Hx Hl]. rewrite foldM_cons.
  destruct (f_ok s x Hs Hx) as (s' & -> & Hs'). cbn [mbind res_bind]. by apply IH.
Qed.

Lemma foldM_fuera (s : S) (l : list Z) :
  I s → ¬ Forall (en_rango k) l → foldM f s l = Raise IndexError.
Proof.
  revert s. induction l as [|x l IH]; intros s Hs Hl; [by destruct Hl|].
  rewrite foldM_cons. destruct (decide (en_rango k x)) as [Hx|Hx].
  - destruct (f_ok s x Hs Hx) as (s' & -> & Hs'). cbn [mbind res_bind].
    apply IH; [done|]. intros H. apply Hl. by constructor.
  - by rewrite f_fuera.
Qed.

Lemma foldM_envolver (s : S) (l : list Z) :
  I s → foldM f s (envolver k <$> l) = foldM f s l.
Proof.
  revert s. induction l as [|x l IH]; intros s Hs; [done|].
  rewrite fmap_cons, !foldM_cons, f_env by done.
  destruct (decide (en_rango k x)) as [Hx|Hx].
  - destruct (f_ok s x Hs Hx) as (s' & -> & Hs'). cbn [mbind res_bind]. by apply IH.
  - by rewrite f_fuera.
Qed.

End FoldSubscripts.

(** The three loops of the decoder and the encoder that take their
    subscripts from the read order. *)
Lemma incr_item_en_rango (k : nat) (longs : list nat) (i : Z) :
  length longs = k → en_rango k i →
  ∃ longs', TranspositionWord.incr_item longs i = Ok longs' ∧ length longs' = k.
Proof.
  intros <- Hi. unfold TranspositionWord.incr_item.
  destruct (getitem_en_rango longs i Hi) as (v & -> & _). cbn [mbind res_bind].
  by apply setitem_en_rango.
Qed.

Lemma incr_item_fuera (k : nat) (longs : list nat) (i : Z) :
  length longs = k → ¬ en_rango k i →
  TranspositionWord.incr_item longs i = Raise IndexError.
Proof.
  intros <- Hi. unfold TranspositionWord.incr_item. by rewrite getitem_fuera.
Qed.

Lemma incr_item_envolver (k : nat) (longs : list nat) (i : Z) :
  length longs = k →
  TranspositionWord.incr_item longs (envolver k i) = TranspositionWord.incr_item longs i.
Proof.
  intros <-. unfold TranspositionWord.incr_item. rewrite getitem_envolver.
  destruct (getitem longs i); [|done]. cbn [mbind res_bind]. apply setitem_envolver.
Qed.

Lemma tomar_segmento_en_rango (C : list N) (longs : list nat) (k : nat)
    (st : list (list N) * nat) (i : Z) :
  length longs = k → length st.1 = k → en_rango k i →
  ∃ st', tomar_segmento C longs st i = Ok st' ∧ length st'.1 = k.
Proof.
  intros Hl Hs Hi. unfold tomar_segmento.
  destruct (getitem_en_rango longs i) as (L & -> & _); [by rewrite Hl|].
  cbn [mbind res_bind].
  destruct (setitem_en_rango st.1 i (slice C st.2 (st.2 + L))) as (cols & -> & Hc);
    [by rewrite Hs|].
  cbn [mbind res_bind]. eexists. split; [done|]. simpl. by rewrite Hc.
Qed.

Lemma tomar_segmento_fuera (C : list N) (longs : list nat) (k : nat)
    (st : list (list N) * nat) (i : Z) :
  length longs = k → ¬ en_rango k i →
  tomar_segmento C longs st i = Raise IndexError.
Proof.
  intros <- Hi. unfold tomar_segmento. by rewrite getitem_fuera.
Qed.

Lemma tomar_segmento_envolver (C : list N) (longs : list nat) (k : nat)
    (st : list (list N) * nat) (i : Z) :
  length longs = k → length st.1 = k →
  tomar_segmento C longs st (envolver k i) = tomar_segmento C longs st i.
Proof.
  intros Hl Hs. unfold tomar_segmento. rewrite <-Hl at 1. rewrite getitem_envolver.
  destruct (getitem longs i); [|done]. cbn [mbind res_bind].
  rewrite <-Hs at 1. by rewrite setitem_envolver.
Qed.

Lemma fmap_menos_uno_envolver1 (k : nat) (order1 : list Z) :
  (λ i, i - 1)%Z <$> (envolver1 k <$> order1) = envolver k <$> ((λ i, i - 1)%Z <$> order1).
Proof.
  rewrite <-!list_fmap_compose. apply list_fmap_ext. intros _ i _. simpl.
  unfold envolver1. lia.
Qed.

Lemma Forall_entrada_valida (k : nat) (order1 : list Z) :
  Forall (entrada_valida k) order1 ↔ Forall (en_rango k) ((λ i, i - 1)%Z <$> order1).
Proof.
  rewrite Forall_fmap. apply Forall_proper; [|done]. intros i.
  unfold entrada_valida, en_rango. simpl. lia.
Qed.

(** The geometry for an arbitrary list of subscripts. *)
Lemma longitudes_subscripts (N k : nat) (order0 : list Z) (rule : long_rule) :
  1 ≤ k → length order0 = k →
  TranspositionWord.longitudes_columnas N k (envolver k <$> order0) rule
  = TranspositionWord.longitudes_columnas N k order0 rule ∧
  ((∃ longs, TranspositionWord.longitudes_columnas N k order0 rule = Ok longs ∧
             length longs = k) ∨
   (TranspositionWord.longitudes_columnas N k order0 rule = Raise IndexError ∧
    ¬ Forall (en_rango k) order0)).
Proof.
  intros Hk Hlen. destruct rule.
  { rewrite !longitudes_natural by done. split; [done|]. left.
    eexists. split; [done|]. apply longs_natural_length. }
  unfold TranspositionWord.longitudes_columnas.
  rewrite bool_decide_eq_false_2 by lia. case_bool_decide as Hr.
  2:{ split; [done|]. left. eexists. split; [done|]. by rewrite length_replicate. }
  assert (N mod k < k) as Hlt by (apply Nat.mod_upper_bound; lia).
  rewrite !read_loop_take by (rewrite ?length_fmap; lia).
  rewrite <-fmap_take.
  assert (length (replicate k (N / k)) = k) as Hrep by apply length_replicate.
  split.
  - apply (foldM_envolver k TranspositionWord.incr_item (λ longs, length longs = k));
      [apply incr_item_en_rango|apply incr_item_fuera|apply incr_item_envolver|done].
  - destruct (decide (Forall (en_rango k) (take (N mod k) order0))) as [Hf|Hf].
    + left. apply (foldM_en_rango k TranspositionWord.incr_item (λ longs, length longs = k));
        [apply incr_item_en_rango|done|done].
    + right. split.
      * apply (foldM_fuera k TranspositionWord.incr_item (λ longs, length longs = k));
          [apply incr_item_en_rango|apply incr_item_fuera|done|done].
      * intros H. apply Hf. by apply Forall_take.
Qed.

(** The decoder on an arbitrary non-empty list of entries: the result only
    depends on the positions that the entries denote, and there is a result
    exactly when every entry denotes one. *)
Lemma descifrar_subscripts {U : Unicode} (C : list N) (order1 : list Z)
    (rule : long_rule) (dir : col_direction) :
  order1 ≠ [] →
  TranspositionWord.descifrar_por_orden C (envolver1 (length order1) <$> order1) rule dir
  = TranspositionWord.descifrar_por_orden C order1 rule dir ∧
  ((Forall (entrada_valida (length order1)) order1 ∧
    ∃ plain, TranspositionWord.descifrar_por_orden C order1 rule dir = Ok plain) ∨
   (¬ Forall (entrada_valida (length order1)) order1 ∧
    TranspositionWord.descifrar_por_orden C order1 rule dir = Raise IndexError)).
Proof.
  intros Hne. set (k := length order1).
  assert (1 ≤ k) as Hk by (unfold k; destruct order1; simpl; [done|lia]).
  unfold TranspositionWord.descifrar_por_orden.
  rewrite length_fmap, fmap_menos_uno_envolver1. fold k.
  set (order0 := (λ i, (i - 1)%Z) <$> order1).
  assert (length order0 = k) as Hlen0 by (unfold order0; by rewrite length_fmap).
  set (C' := TranspositionWord.normalizar_AZ C).
  destruct (longitudes_subscripts (length C') k order0 rule Hk Hlen0) as [-> Hcases].
  rewrite Forall_entrada_valida. fold order0.
  destruct Hcases as [(longs & -> & Hll)|[-> Hbad]].
  2:{ split; [done|]. right. done. }
  cbn [mbind res_bind]. unfold TranspositionWord.asignar.
  assert (length (replicate k (@nil N), 0).1 = k) as Hini by apply length_replicate.
  rewrite (foldM_envolver k (tomar_segmento C' longs) (λ st, length st.1 = k));
    [|by intros; apply tomar_segmento_en_rango
     |by intros; apply (tomar_segmento_fuera _ _ k)
     |by intros; apply tomar_segmento_envolver|done].
  split; [done|].
  destruct (decide (Forall (en_rango k) order0)) as [Hf|Hf].
  - left. split; [done|].
    destruct (foldM_en_rango k (tomar_segmento C' longs) (λ st, length st.1 = k))
      with (s := (replicate k (@nil N), 0)) (l := order0) as (st & -> & Hst);
      [by intros; apply tomar_segmento_en_rango|done|done|].
    cbn [mbind res_bind].
    set (cols' := match dir with Up => reverse <$> st.1 | Down => st.1 end).
    assert (length cols' = k) as Hcl'
      by (unfold cols'; destruct dir; by rewrite ?length_fmap).
    destruct (py_max_is_Ok (length <$> cols')) as [m ->]; [|by eexists].
    destruct cols'; simpl in *; [lia|done].
  - right. split; [done|].
    rewrite (foldM_fuera k (tomar_segmento C' longs) (λ st, length st.1 = k));
      [done|by intros; apply tomar_segmento_en_rango
       |by intros; apply (tomar_segmento_fuera _ _ k)|done|done].
Qed.

Lemma descifrar_sin_columnas {U : Unicode} (C : list N) (rule : long_rule)
    (dir : col_direction) :
  TranspositionWord.descifrar_por_orden C [] rule dir = Raise ZeroDivisionError.
Proof. done. Qed.

Lemma leer_columna_en_rango (cols : list (list N)) (out : list N) (j : Z) :
  en_rango (length cols) j →
  ∃ out', (col ← getitem cols j; Ok (out ++ col)) = Ok out' ∧ True.
Proof.
  intros Hj. destruct (getitem_en_rango cols j Hj) as (col & -> & _).
  cbn [mbind res_bind]. by eexists.
Qed.

(** The encoder on an arbitrary non-empty list of entries. *)
Lemma cifrar_subscripts {U : Unicode} (P : list N) (order1 : list Z) (dir : col_direction) :
  order1 ≠ [] →
  TranspositionWord.cifrar_por_orden_var P (envolver1 (length order1) <$> order1) dir
  = TranspositionWord.cifrar_por_orden_var P order1 dir ∧
  ((Forall (entrada_valida (length order1)) order1 ∧
    ∃ C, TranspositionWord.cifrar_por_orden_var P order1 dir = Ok C) ∨
   (¬ Forall (entrada_valida (length order1)) order1 ∧
    TranspositionWord.cifrar_por_orden_var P order1 dir = Raise IndexError)).
Proof.
  intros Hne. set (k := length order1).
  assert (1 ≤ k) as Hk by (unfold k; destruct order1; simpl; [done|lia]).
  unfold TranspositionWord.cifrar_por_orden_var.
  rewrite length_fmap, fmap_menos_uno_envolver1. fold k.
  set (order0 := (λ i, (i - 1)%Z) <$> order1).
  destruct (repartir_spec (TranspositionWord.normalizar_AZ P) k Hk) as (cols & -> & [Hcl _]).
  cbn [mbind res_bind].
  set (cols' := match dir with Up => reverse <$> cols | Down => cols end).
  assert (length cols' = k) as Hcl'
    by (unfold cols'; destruct dir; by rewrite ?length_fmap).
  rewrite Forall_entrada_valida. fold order0.
  set (f := λ (out : list N) (j : Z), col ← getitem cols' j; Ok (out ++ col)).
  assert (∀ s x, True → en_rango k x → ∃ s', f s x = Ok s' ∧ True) as Hok.
  { intros s x _ Hx. apply leer_columna_en_rango. by rewrite Hcl'. }
  assert (∀ s x, True → ¬ en_rango k x → f s x = Raise IndexError) as Hfu.
  { intros s x _ Hx. unfold f. rewrite getitem_fuera; [done|]. by rewrite Hcl'. }
  assert (∀ s x, True → f s (envolver k x) = f s x) as Henv.
  { intros s x _. unfold f. rewrite <-Hcl' at 1. by rewrite getitem_envolver. }
  split.
  - by apply (foldM_envolver k f (λ _, True)).
  - destruct (decide (Forall (en_rango k) order0)) as [Hf|Hf].
    + left. split; [done|].
      destruct (foldM_en_rango k f (λ _, True) Hok [] order0 I Hf) as (out & Hout & _).
      by exists out.
    + right. split; [done|]. by apply (foldM_fuera k f (λ _, True)).
Qed.

Lemma cifrar_sin_columnas {U : Unicode} (P : list N) (dir : col_direction) :
  TranspositionWord.cifrar_por_orden_var P [] dir
  = match TranspositionWord.normalizar_AZ P with
    | [] => Ok []
    | _ :: _ => Raise IndexError
    end.
Proof.
  unfold TranspositionWord.cifrar_por_orden_var, TranspositionWord.repartir.
  by destruct (TranspositionWord.normalizar_AZ P).
Qed.

(** X3. The exceptions of the decoder.  [descifrar_por_orden] raises
    ZeroDivisionError on an empty read order; on a read order of k >= 1
    entries it raises IndexError when some entry lies outside 1-k..k, and
    returns a text otherwise, whether or not the entries are a permutation.
    It raises nothing else. *)
Theorem descifrar_por_orden_errores {U : Unicode} (C : list N) (order1 : list Z)
    (rule : long_rule) (dir : col_direction) :
  (order1 = [] ∧
   TranspositionWord.descifrar_por_orden C order1 rule dir = Raise ZeroDivisionError) ∨
  (order1 ≠ [] ∧ Forall (entrada_valida (length order1)) order1 ∧
   ∃ plain, TranspositionWord.descifrar_por_orden C order1 rule dir = Ok plain) ∨
  (order1 ≠ [] ∧ ¬ Forall (entrada_valida (length order1)) order1 ∧
   TranspositionWord.descifrar_por_orden C order1 rule dir = Raise IndexError).
Proof.
  destruct (decide (order1 = [])) as [->|Hne].
  - left. split; [done|]. apply descifrar_sin_columnas.
  - right. destruct (descifrar_subscripts C order1 rule dir Hne) as [_ [[H1 H2]|[H1 H2]]].
    + by left.
    + by right.
Qed.

(** X4. The exceptions of the encoder.  On an empty read order
    [cifrar_por_orden_var] returns the empty text when the normalised
    plaintext is empty and raises IndexError otherwise (never
    ZeroDivisionError, unlike the decoder); on a read order of k >= 1
    entries it raises IndexError when some entry lies outside 1-k..k and
    returns a text otherwise. *)
Theorem cifrar_por_orden_var_errores {U : Unicode} (P : list N) (order1 : list Z)
    (dir : col_direction) :
  (order1 = [] ∧ TranspositionWord.normalizar_AZ P = [] ∧
   TranspositionWord.cifrar_por_orden_var P order1 dir = Ok []) ∨
  (order1 = [] ∧ TranspositionWord.normalizar_AZ P ≠ [] ∧
   TranspositionWord.cifrar_por_orden_var P order1 dir = Raise IndexError) ∨
  (order1 ≠ [] ∧ Forall (entrada_valida (length order1)) order1 ∧
   ∃ C, TranspositionWord.cifrar_por_orden_var P order1 dir = Ok C) ∨
  (order1 ≠ [] ∧ ¬ Forall (entrada_valida (length order1)) order1 ∧
   TranspositionWord.cifrar_por_orden_var P order1 dir = Raise IndexError).
Proof.
  destruct (decide (order1 = [])) as [->|Hne].
  - rewrite cifrar_sin_columnas.
    destruct (TranspositionWord.normalizar_AZ P) eqn:HP.
    + by left.
    + right. left. done.
  - right. right. destruct (cifrar_subscripts P order1 dir Hne) as [_ [[H1 H2]|[H1 H2]]].
    + by left.
    + by right.
Qed.

Lemma envolver1_rango (k : nat) (i : Z) :
  entrada_valida k i → (1 ≤ envolver1 k i ≤ Z.of_nat k)%Z.
Proof.
  unfold entrada_valida, envolver1. intros H.
  pose proof (envolver_rango k (i - 1)) as Hr. unfold en_rango in Hr. lia.
Qed.

(** X5. Entries of a read order are Python subscripts: an entry 0, -1,
    ..., 1-k is read as k, k-1, ..., 1.  The decoder and the encoder give
    the same result, or raise the same exception, on a read order and on the
    read order with every such entry replaced; an order typed 0-based, like
    [0,1,2], is therefore decoded as [3,1,2] without any error. *)
Theorem entradas_negativas {U : Unicode} (text : list N) (order1 : list Z)
    (rule : long_rule) (dir : col_direction) :
  TranspositionWord.descifrar_por_orden text (envolver1 (length order1) <$> order1) rule dir
  = TranspositionWord.descifrar_por_orden text order1 rule dir ∧
  TranspositionWord.cifrar_por_orden_var text (envolver1 (length order1) <$> order1) dir
  = TranspositionWord.cifrar_por_orden_var text order1 dir ∧
  ∀ i, envolver1 (length order1) i
       = if bool_decide (1 - Z.of_nat (length order1) ≤ i ≤ 0)%Z
         then (i + Z.of_nat (length order1))%Z else i.
Proof.
  assert (∀ i, envolver1 (length order1) i
               = if bool_decide (1 - Z.of_nat (length order1) ≤ i ≤ 0)%Z
                 then (i + Z.of_nat (length order1))%Z else i) as Henv.
  { intros i. unfold envolver1, envolver. do 2 case_bool_decide; lia. }
  destruct (decide (order1 = [])) as [->|Hne]; [done|].
  split; [apply (descifrar_subscripts text order1 rule dir Hne)|].
  split; [apply (cifrar_subscripts text order1 dir Hne)|done].
Qed.

Example orden_base_cero :
  envolver1 3 <$> [0; 1; 2]%Z = [3; 1; 2]%Z ∧
  @TranspositionWord.descifrar_por_orden ascii_unicode (pystr "CADB") [0; 1; 2]%Z Natural Down
  = Ok (pystr "ABCD") ∧
  @TranspositionWord.descifrar_por_orden ascii_unicode (pystr "CADB") [3; 1; 2]%Z Natural Down
  = Ok (pystr "ABCD") ∧
  @TranspositionWord.descifrar_por_orden ascii_unicode (pystr "CADB") [1; 2; 4]%Z Natural Down
  = Raise IndexError ∧
  @TranspositionWord.descifrar_por_orden ascii_unicode (pystr "CADB") [1; 1; 2]%Z Natural Down
  = Ok (pystr "DB").
Proof. repeat split; reflexivity. Qed.

(** ** Re-encryption of a decoded text *)

Lemma cortar_lengths (C : list N) (cur : nat) (ls : list nat) :
  cur + sum_list ls ≤ length C → length <$> cortar C cur ls = ls.
Proof.
  revert cur. induction ls as [|L ls IH]; intros cur H; simpl in *; [done|].
  rewrite IH by lia. f_equal. rewrite slice_take_drop, length_take, length_drop. lia.
Qed.

Lemma es_reparto_unique (P : list N) (n : nat) (c1 c2 : list (list N)) :
  es_reparto P n c1 → es_reparto P n c2 → c1 = c2.
Proof.
  intros [Hl1 H1] [Hl2 H2]. apply list_eq. intros c.
  destruct (c1 !! c) as [col1|] eqn:E1.
  - destruct (lookup_lt_is_Some_2 c2 c) as [col2 E2].
    { apply lookup_lt_Some in E1. lia. }
    rewrite E2. f_equal. apply list_eq. intros r.
    by rewrite (H1 c col1 E1 r), (H2 c col2 E2 r).
  - symmetry. apply lookup_ge_None. apply lookup_ge_None in E1. lia.
Qed.

(** Columns with the lengths of the natural geometry are the cyclic
    distribution of some text. *)
Lemma es_reparto_de_forma (cols : list (list N)) (k q rem : nat) :
  1 ≤ k → rem < k → length cols = k →
  (∀ c col, cols !! c = Some col →
            length col = q + (if bool_decide (c < rem) then 1 else 0)) →
  ∃ P, es_reparto P k cols ∧ length P = q * k + rem.
Proof.
  intros Hk Hrem Hlen Hshape.
  exists ((λ i, (cols !!! (i mod k)) !!! (i / k)) <$> seq 0 (q * k + rem)).
  split; [|by rewrite length_fmap, length_seq].
  split; [done|]. intros c col Hc r.
  assert (c < k) as Hck by (rewrite <-Hlen; by eapply lookup_lt_Some).
  pose proof (Hshape c col Hc) as HL.
  assert ((r * k + c) mod k = c) as Hmod.
  { rewrite Nat.add_comm, Nat.Div0.mod_add. by apply Nat.mod_small. }
  assert ((r * k + c) / k = r) as Hdiv.
  { rewrite Nat.add_comm, Nat.div_add by lia. rewrite Nat.div_small by done. lia. }
  rewrite list_lookup_fmap.
  destruct (decide (r * k + c < q * k + rem)) as [Hin|Hout].
  - rewrite lookup_seq_lt by done. simpl. rewrite Hmod, Hdiv.
    rewrite (list_lookup_total_correct _ _ _ Hc).
    assert (r < length col) as Hr by (rewrite HL; case_bool_decide; nia).
    destruct (lookup_lt_is_Some_2 col r Hr) as [ch Hch].
    by rewrite Hch, (list_lookup_total_correct _ _ _ Hch).
  - rewrite lookup_seq_ge by lia. simpl.
    apply lookup_ge_None. rewrite HL. case_bool_decide; nia.
Qed.

Lemma colocar_lee (cols0 : list (list N)) (idxs : list nat) (segs : list (list N)) :
  NoDup idxs → Forall (λ i, i < length cols0) idxs → length segs = length idxs →
  (λ i, colocar cols0 idxs segs !!! i) <$> idxs = segs.
Proof.
  intros Hnd Hlt Hlen. apply list_eq. intros j. rewrite list_lookup_fmap.
  destruct (idxs !! j) as [i|] eqn:Hi; simpl.
  - destruct (lookup_lt_is_Some_2 segs j) as [s Hs].
    { rewrite Hlen. by eapply lookup_lt_Some. }
    rewrite Hs. f_equal. apply list_lookup_total_correct.
    eapply colocar_lookup; [done..|].
    eapply Forall_forall in Hlt; [exact Hlt|]. by eapply list_elem_of_lookup_2.
  - symmetry. apply lookup_ge_None. rewrite Hlen. by apply lookup_ge_None.
Qed.

Lemma Forall_is_AZ_perm (s t : list N) :
  s ≡ₚ t → forallb is_AZ t = true → forallb is_AZ s = true.
Proof.
  intros Hp Ht. apply forallb_is_AZ_Forall. rewrite Hp. by apply forallb_is_AZ_Forall.
Qed.

(** Encoding what the decoder returned under the natural geometry gives the
    normalised cryptogram back. *)
Lemma cifrar_descifrado {U : Unicode} {UA : UnicodeAZ U} (C : list N) (k : nat)
    (order1 : list Z) (rule : long_rule) (dir : col_direction) :
  1 ≤ k →
  valid_order1 k order1 →
  TranspositionWord.longitudes_columnas (length (TranspositionWord.normalizar_AZ C)) k
    ((λ i, i - 1)%Z <$> order1) rule
  = Ok (longs_natural (length (TranspositionWord.normalizar_AZ C)) k) →
  ∃ plain,
    TranspositionWord.descifrar_por_orden C order1 rule dir = Ok plain ∧
    plain ≡ₚ TranspositionWord.normalizar_AZ C ∧
    TranspositionWord.cifrar_por_orden_var plain order1 dir
    = Ok (TranspositionWord.normalizar_AZ C).
Proof.
  intros Hk Hv Hgeo. pose proof (valid_order1_length k order1 Hv) as Hlen.
  destruct (descifrar_valid C k order1 rule dir Hk Hv) as (plain & Hdec & Hperm).
  exists plain. split; [done|]. split; [done|].
  apply valid_order1_to_0 in Hv.
  destruct (valid_order0_nat k _ Hv) as (idxs & Hidxs & Hp).
  destruct (perm_seq_facts k idxs Hp) as (Hnd & Hlt & Hlen').
  revert Hdec Hperm. unfold TranspositionWord.descifrar_por_orden.
  set (C' := TranspositionWord.normalizar_AZ C) in *.
  rewrite Hlen, Hgeo. cbn [mbind res_bind].
  unfold TranspositionWord.asignar. rewrite Hidxs.
  rewrite tomar_segmento_loop; rewrite ?length_replicate;
    [|done|by rewrite longs_natural_length].
  cbn [mbind res_bind fst].
  set (lens := (λ i, longs_natural (length C') k !!! i) <$> idxs).
  set (segs := cortar C' 0 lens).
  set (cols := colocar (replicate k []) idxs segs).
  change (match dir with Up => reverse <$> cols | Down => cols end) with (orientar dir cols).
  assert (sum_list lens = length C') as Hsum.
  { unfold lens. rewrite (sum_list_perm _ (longs_natural (length C') k)).
    - by apply longs_natural_sum.
    - pose proof (longs_natural_length (length C') k) as Hll.
      revert Hll. generalize (longs_natural (length C') k). intros longs Hll.
      rewrite Hp, <-Hll. by rewrite fmap_lookup_total_seq. }
  assert (length segs = length idxs) as Hsl.
  { unfold segs, lens. by rewrite cortar_length, length_fmap. }
  assert (length cols = k) as Hcl.
  { unfold cols. by rewrite colocar_length, length_replicate. }
  assert ((λ i, cols !!! i) <$> idxs = segs) as Hlee.
  { apply colocar_lee; [done| |done]. by rewrite length_replicate. }
  (* the oriented columns have the natural lengths *)
  assert (∀ c col, orientar dir cols !! c = Some col →
            length col = length C' / k
                         + (if bool_decide (c < length C' mod k) then 1 else 0)) as Hshape.
  { intros c col Hc.
    assert (c < k) as Hck.
    { apply lookup_lt_Some in Hc. by rewrite orientar_length, Hcl in Hc. }
    rewrite <-(list_lookup_total_correct _ _ _ Hc), orientar_lookup_length.
    rewrite <-longs_natural_lookup_total by done.
    assert (c ∈ idxs) as Hin by (rewrite Hp; apply elem_of_seq; lia).
    apply list_elem_of_lookup in Hin as [j Hj].
    assert (length <$> ((λ i, cols !!! i) <$> idxs) = lens) as Hll.
    { rewrite Hlee. unfold segs. apply cortar_lengths. lia. }
    apply (f_equal (.!! j)) in Hll.
    unfold lens in Hll. rewrite !list_lookup_fmap, Hj in Hll. simpl in Hll.
    by injection Hll. }
  destruct (es_reparto_de_forma (orientar dir cols) k (length C' / k) (length C' mod k))
    as (P & HP & _); [done|apply Nat.mod_upper_bound; lia|by rewrite orientar_length|done|].
  destruct (py_max_is_Ok (length <$> orientar dir cols)) as [m Hm].
  { pose proof (orientar_length dir cols). destruct (orientar dir cols); simpl in *; [lia|done]. }
  rewrite Hm. cbn [mbind res_bind].
  rewrite (es_reparto_leer P k m _ Hk HP Hm). intros [= <-] Hperm.
  assert (forallb is_AZ P = true) as HAZ.
  { eapply Forall_is_AZ_perm; [exact Hperm|]. apply normalizar_AZ_solo_AZ. }
  destruct (cifrar_spec P k idxs order1 dir Hk Hlen Hidxs Hp) as (cols2 & Hinv & ->).
  rewrite normalizar_AZ_id in Hinv by done.
  rewrite (es_reparto_unique P k cols2 (orientar dir cols) Hinv HP).
  rewrite orientar_involutive, Hlee. f_equal.
  unfold segs. rewrite cortar_concat, Hsum, drop_0. by apply take_ge.
Qed.

(** X6. For a read order that is a permutation of 1..k and a variant whose
    geometry is the natural one (the natural rule always, the read rule
    when it yields the same lengths), re-encrypting the decoded text gives
    the normalised cryptogram back; the re-encryption test of
    [probar_perm] therefore never rejects such a variant, and a search with
    that single variant accepts exactly when the crib occurs in the decoded
    text. *)
Theorem recifrado_natural {U : Unicode} {UA : UnicodeAZ U} (C crib : list N) (k : nat)
    (order1 : list Z) (rule : long_rule) (dir : col_direction) (stopfirst : bool) :
  1 ≤ k →
  valid_order1 k order1 →
  TranspositionWord.longitudes_columnas (length (TranspositionWord.normalizar_AZ C)) k
    ((λ i, i - 1)%Z <$> order1) rule
  = TranspositionWord.longitudes_columnas (length (TranspositionWord.normalizar_AZ C)) k
      ((λ i, i - 1)%Z <$> order1) Natural →
  ∃ plain,
    TranspositionWord.descifrar_por_orden C order1 rule dir = Ok plain ∧
    TranspositionWord.cifrar_por_orden_var plain order1 dir
    = Ok (TranspositionWord.normalizar_AZ C) ∧
    TranspositionWord.probar_perm C order1 crib [rule] [dir] stopfirst
    = Ok (if str_in crib plain then [(order1, rule, dir, plain)] else []).
Proof.
  intros Hk Hv Hgeo. rewrite longitudes_natural in Hgeo by done.
  destruct (cifrar_descifrado C k order1 rule dir Hk Hv Hgeo) as (plain & Hdec & _ & Hcif).
  exists plain. split; [done|]. split; [done|].
  unfold TranspositionWord.probar_perm, TranspositionWord.variantes.
  cbn [mbind list_bind mret list_ret app]. cbn [TranspositionWord.probar_variantes].
  rewrite Hdec. cbn [mbind res_bind].
  destruct (str_in crib plain); [|done].
  rewrite Hcif. cbn [mbind res_bind]. rewrite bool_decide_eq_true_2 by done.
  by destruct stopfirst.
Qed.

Lemma recifrado_natural_witness :
  ∃ plain,
    @TranspositionWord.descifrar_por_orden ascii_unicode
      (pystr "EIBWOUSTQCRNXMHUKOFJP") [3; 1; 2]%Z Natural Up = Ok plain ∧
    @TranspositionWord.cifrar_por_orden_var ascii_unicode plain [3; 1; 2]%Z Up
    = Ok (@TranspositionWord.normalizar_AZ ascii_unicode (pystr "EIBWOUSTQCRNXMHUKOFJP")) ∧
    @TranspositionWord.probar_perm ascii_unicode
      (pystr "EIBWOUSTQCRNXMHUKOFJP") [3; 1; 2]%Z (pystr "FOX") [Natural] [Up] false
    = Ok (if str_in (pystr "FOX") plain then [([3; 1; 2]%Z, Natural, Up, plain)] else []).
Proof.
  apply (@recifrado_natural ascii_unicode ascii_unicode_AZ
           (pystr "EIBWOUSTQCRNXMHUKOFJP") (pystr "FOX") 3 [3; 1; 2]%Z Natural Up false).
  - lia.
  - by apply (bool_decide_unpack _).
  - reflexivity.
Defined.

(** ** The crib search as a whole *)

Lemma take_1_app {A : Type} (l1 l2 : list A) :
  take 1 (l1 ++ l2) = match l1 with [] => take 1 l2 | x :: _ => [x] end.
Proof. by destruct l1. Qed.

Lemma bind_singleton {A B : Type} (f : A → list B) (x : A) : [x] ≫= f = f x.
Proof. rewrite bind_cons. change ([] ≫= f) with (@nil B). apply app_nil_r. Qed.

Lemma explorar_bucle_spec {U : Unicode} (cipher crib : list N) (k : nat)
    (lrs : list long_rule) (cds : list col_direction) (stopfirst : bool)
    (ps : list (list Z)) (soluciones : list TranspositionWord.solucion) :
  1 ≤ k → Forall (valid_order1 k) ps →
  TranspositionWord.explorar_bucle cipher crib lrs cds stopfirst ps soluciones
  = Ok (soluciones ++
        let todas := ps ≫= λ order1, omap (acepta cipher order1 crib)
                                       (TranspositionWord.variantes lrs cds) in
        if stopfirst then take 1 todas else todas).
Proof.
  intros Hk Hps. destruct stopfirst; [|by apply (explorar_bucle_todas cipher crib k)].
  revert soluciones. induction Hps as [|order1 ps Hv _ IH]; intros soluciones.
  - simpl. by rewrite app_nil_r.
  - cbn [TranspositionWord.explorar_bucle]. rewrite (probar_perm_spec cipher k) by done.
    cbn [mbind res_bind]. cbn zeta in *. rewrite bind_cons, take_1_app.
    destruct (omap _ _) as [|s sols]; [apply IH|done].
Qed.

Lemma explorar_permutaciones_spec {U : Unicode} {R : Random} {RS : RandomShuffles R}
    (g : rng) (cipher crib : list N) (k : Z) (lrs : list long_rule)
    (cds : list col_direction) (stopfirst : bool) (maxperms : Z) :
  (1 ≤ k)%Z →
  TranspositionWord.explorar_permutaciones g cipher k crib lrs cds stopfirst maxperms
  = Ok (if stopfirst then take 1 (aceptadas g cipher crib lrs cds maxperms [k])
        else aceptadas g cipher crib lrs cds maxperms [k]).
Proof.
  intros Hk. unfold TranspositionWord.explorar_permutaciones.
  rewrite (explorar_bucle_spec cipher crib (Z.to_nat k)); [|lia|].
  2:{ apply Forall_forall. intros order1. apply perms_valid. }
  unfold aceptadas. cbn zeta. by rewrite bind_singleton.
Qed.

Lemma aceptadas_cons {U : Unicode} {R : Random} (g : rng) (C W : list N)
    (lrs : list long_rule) (cds : list col_direction) (maxperms : Z) (k : Z) (ks : list Z) :
  aceptadas g C W lrs cds maxperms (k :: ks)
  = aceptadas g C W lrs cds maxperms [k] ++ aceptadas g C W lrs cds maxperms ks.
Proof. unfold aceptadas. by rewrite bind_singleton, bind_cons. Qed.

Lemma barrer_k_spec {U : Unicode} {R : Random} {RS : RandomShuffles R}
    (g : rng) (C W : list N) (lrs : list long_rule) (cds : list col_direction)
    (stopfirst : bool) (maxperms : Z) (ks : list Z)
    (soluciones : list TranspositionWord.solucion) :
  Forall (λ k, 1 ≤ k)%Z ks →
  TranspositionWord.barrer_k g C W lrs cds stopfirst maxperms ks soluciones
  = Ok (soluciones ++
        if stopfirst then take 1 (aceptadas g C W lrs cds maxperms ks)
        else aceptadas g C W lrs cds maxperms ks).
Proof.
  intros Hks. revert soluciones. induction Hks as [|k ks Hk _ IH]; intros soluciones.
  - unfold aceptadas. simpl. destruct stopfirst; by rewrite app_nil_r.
  - cbn [TranspositionWord.barrer_k]. rewrite explorar_permutaciones_spec by done.
    cbn [mbind res_bind]. rewrite (aceptadas_cons g C W lrs cds maxperms k ks).
    generalize (aceptadas g C W lrs cds maxperms [k]). intros l.
    destruct stopfirst.
    + rewrite take_1_app. destruct l as [|s l]; [apply IH|done].
    + destruct l as [|s l]; [apply IH|]. rewrite IH. by rewrite <-app_assoc.
Qed.

Lemma buscar_crib_spec {U : Unicode} {R : Random} {RS : RandomShuffles R}
    (g : rng) (C W : list N) (kmin kmax : Z) (lrs : list long_rule)
    (cds : list col_direction) (stopfirst : bool) (maxperms : Z) :
  (1 ≤ kmin)%Z →
  TranspositionWord.buscar_crib g C W kmin kmax lrs cds stopfirst maxperms
  = Ok (if stopfirst
        then take 1 (aceptadas g C W lrs cds maxperms (py_range kmin (kmax + 1)))
        else aceptadas g C W lrs cds maxperms (py_range kmin (kmax + 1))).
Proof.
  intros Hk. unfold TranspositionWord.buscar_crib. rewrite barrer_k_spec; [done|].
  apply Forall_forall. intros k Hin. apply py_range_elem in Hin. lia.
Qed.

(** X7. Stop-on-first-match returns the head of the full search: for a
    sweep that starts at kmin >= 1, the search without [stopfirst] returns
    a list of solutions, and the search with [stopfirst] returns that
    list cut after its first element (nothing when the list is empty); the
    same holds for the exploration of a single column count k >= 1. *)
Theorem stopfirst_primera {U : Unicode} {R : Random} {RS : RandomShuffles R}
    (g : rng) (C W : list N) (kmin kmax k : Z) (lrs : list long_rule)
    (cds : list col_direction) (maxperms : Z) :
  ((1 ≤ kmin)%Z →
   ∃ todas,
     TranspositionWord.buscar_crib g C W kmin kmax lrs cds false maxperms = Ok todas ∧
     TranspositionWord.buscar_crib g C W kmin kmax lrs cds true maxperms
     = Ok (take 1 todas)) ∧
  ((1 ≤ k)%Z →
   ∃ todas,
     TranspositionWord.explorar_permutaciones g C k W lrs cds false maxperms = Ok todas ∧
     TranspositionWord.explorar_permutaciones g C k W lrs cds true maxperms
     = Ok (take 1 todas)).
Proof.
  split; intros Hk.
  - eexists. split; by rewrite buscar_crib_spec.
  - eexists. split; by rewrite explorar_permutaciones_spec.
Qed.

Lemma stopfirst_primera_witness :
  (∃ todas,
     @TranspositionWord.buscar_crib ascii_unicode rotating_random 0
       (pystr "CADB") (pystr "A") 2 3 [Natural; Read] [Down; Up] false 6 = Ok todas ∧
     @TranspositionWord.buscar_crib ascii_unicode rotating_random 0
       (pystr "CADB") (pystr "A") 2 3 [Natural; Read] [Down; Up] true 6
     = Ok (take 1 todas)) ∧
  (∃ todas,
     @TranspositionWord.explorar_permutaciones ascii_unicode rotating_random 0
       (pystr "CADB") 3 (pystr "A") [Natural; Read] [Down; Up] false 6 = Ok todas ∧
     @TranspositionWord.explorar_permutaciones ascii_unicode rotating_random 0
       (pystr "CADB") 3 (pystr "A") [Natural; Read] [Down; Up] true 6
     = Ok (take 1 todas)).
Proof.
  pose proof (@stopfirst_primera ascii_unicode rotating_random rotating_random_shuffles 0
                (pystr "CADB") (pystr "A") 2 3 3 [Natural; Read] [Down; Up] 6) as [H1 H2].
  split; [apply H1|apply H2]; lia.
Defined.

Lemma aceptadas_elem {U : Unicode} {R : Random} {RS : RandomShuffles R}
    (g : rng) (C W : list N) (lrs : list long_rule) (cds : list col_direction)
    (maxperms : Z) (ks : list Z) (s : TranspositionWord.solucion) :
  Forall (λ k, 1 ≤ k)%Z ks →
  s ∈ aceptadas g C W lrs cds maxperms ks →
  ∃ k order1 lr cd plain,
    s = (order1, lr, cd, plain) ∧ k ∈ ks ∧
    valid_order1 (Z.to_nat k) order1 ∧ lr ∈ lrs ∧ cd ∈ cds ∧
    TranspositionWord.descifrar_por_orden C order1 lr cd = Ok plain ∧
    (∃ a b, plain = a ++ W ++ b) ∧
    TranspositionWord.cifrar_por_orden_var plain order1 cd
    = Ok (TranspositionWord.normalizar_AZ C) ∧
    plain ≡ₚ TranspositionWord.normalizar_AZ C.
Proof.
  intros Hks Hin. unfold aceptadas in Hin.
  apply list_elem_of_bind in Hin as (k & Hin & Hk).
  apply list_elem_of_bind in Hin as (order1 & Hin & Ho).
  apply list_elem_of_omap in Hin as ([lr cd] & Hv & Hs).
  apply variantes_elem in Hv as [Hlr Hcd].
  apply acepta_Some in Hs as (plain & -> & Hdec & Hcrib & Hrec). cbn [fst snd] in *.
  apply perms_valid in Ho.
  exists k, order1, lr, cd, plain. repeat split; try done.
  eapply Forall_forall in Hks; [|exact Hk].
  destruct (descifrar_valid C (Z.to_nat k) order1 lr cd) as (plain' & Hdec' & Hperm);
    [lia|done|].
  congruence.
Qed.

(** X8. Soundness of the search.  For a sweep that starts at kmin >= 1,
    with or without [stopfirst] and whatever the permutation budget, the
    search returns a list, and every solution (order, rule, dir, plain) of
    it has an order that is a permutation of 1..k for a k of the sweep, a
    variant taken from the given options, a plaintext that is what the
    decoder returns for them, contains the crib, is a rearrangement of the
    normalised cryptogram and encrypts back to it; so the verification line
    that [guardar_salida] writes for it is always the affirmative one. *)
Theorem buscar_crib_sound {U : Unicode} {R : Random} {RS : RandomShuffles R}
    (g : rng) (C W : list N) (kmin kmax : Z) (lrs : list long_rule)
    (cds : list col_direction) (stopfirst : bool) (maxperms : Z) :
  (1 ≤ kmin)%Z →
  ∃ sols,
    TranspositionWord.buscar_crib g C W kmin kmax lrs cds stopfirst maxperms = Ok sols ∧
    ∀ s, s ∈ sols →
      ∃ k order1 lr cd plain,
        s = (order1, lr, cd, plain) ∧
        (kmin ≤ k ≤ kmax)%Z ∧ valid_order1 (Z.to_nat k) order1 ∧
        lr ∈ lrs ∧ cd ∈ cds ∧
        TranspositionWord.descifrar_por_orden C order1 lr cd = Ok plain ∧
        (∃ a b, plain = a ++ W ++ b) ∧
        plain ≡ₚ TranspositionWord.normalizar_AZ C ∧
        TranspositionWord.cifrar_por_orden_var plain order1 cd
        = Ok (TranspositionWord.normalizar_AZ C) ∧
        TranspositionWord.recifrado_correcto C s = Ok true.
Proof.
  intros Hk. eexists. split; [by apply buscar_crib_spec|].
  intros s Hs.
  assert (s ∈ aceptadas g C W lrs cds maxperms (py_range kmin (kmax + 1))) as Hin.
  { destruct stopfirst; [|done]. by eapply subseteq_take. }
  apply aceptadas_elem in Hin
    as (k & order1 & lr & cd & plain & -> & Hkin & Hv & Hlr & Hcd & Hdec & Hcrib & Hrec & Hp).
  2:{ apply Forall_forall. intros k' Hin'. apply py_range_elem in Hin'. lia. }
  apply py_range_elem in Hkin.
  exists k, order1, lr, cd, plain. repeat split; try done; try lia.
  unfold TranspositionWord.recifrado_correcto. rewrite Hrec. cbn [mbind res_bind].
  by rewrite bool_decide_eq_true_2.
Qed.

Lemma buscar_crib_sound_witness :
  ∃ sols,
    @TranspositionWord.buscar_crib ascii_unicode rotating_random 0
      (pystr "CADB") (pystr "AB") 2 3 [Natural; Read] [Down; Up] true 6 = Ok sols ∧
    ∀ s, s ∈ sols →
      ∃ k order1 lr cd plain,
        s = (order1, lr, cd, plain) ∧
        (2 ≤ k ≤ 3)%Z ∧ valid_order1 (Z.to_nat k) order1 ∧
        lr ∈ [Natural; Read] ∧ cd ∈ [Down; Up] ∧
        @TranspositionWord.descifrar_por_orden ascii_unicode (pystr "CADB") order1 lr cd
        = Ok plain ∧
        (∃ a b, plain = a ++ pystr "AB" ++ b) ∧
        plain ≡ₚ @TranspositionWord.normalizar_AZ ascii_unicode (pystr "CADB") ∧
        @TranspositionWord.cifrar_por_orden_var ascii_unicode plain order1 cd
        = Ok (@TranspositionWord.normalizar_AZ ascii_unicode (pystr "CADB")) ∧
        @TranspositionWord.recifrado_correcto ascii_unicode (pystr "CADB") s = Ok true.
Proof.
  apply (@buscar_crib_sound ascii_unicode rotating_random rotating_random_shuffles 0
           (pystr "CADB") (pystr "AB") 2 3 [Natural; Read] [Down; Up] true 6).
  lia.
Defined.

(** ** Column counts below 1, budgets below 1, keywords without letters *)

Lemma perms_sin_columnas {R : Random} (g : rng) (k maxperms : Z) :
  (k ≤ 0)%Z → (1 ≤ maxperms)%Z → TranspositionWord.perms g k maxperms = [[]].
Proof.
  intros Hk Hm. unfold TranspositionWord.perms.
  rewrite !py_range_empty by lia. simpl. by rewrite bool_decide_eq_true_2.
Qed.

Lemma perms_sin_presupuesto {R : Random} (g : rng) (k maxperms : Z) :
  (maxperms ≤ 0)%Z → TranspositionWord.perms g k maxperms = [].
Proof.
  intros Hm. unfold TranspositionWord.perms. rewrite total_fact.
  pose proof (fact_neq_0 (Z.to_nat k)).
  rewrite bool_decide_eq_false_2 by lia.
  by replace (Z.to_nat maxperms) with 0 by lia.
Qed.

Lemma variantes_cons (lrs : list long_rule) (cds : list col_direction) :
  lrs ≠ [] → cds ≠ [] → ∃ v vs, TranspositionWord.variantes lrs cds = v :: vs.
Proof.
  destruct lrs as [|lr lrs]; [done|]. destruct cds as [|cd cds]; [done|]. intros _ _.
  unfold TranspositionWord.variantes. rewrite bind_cons.
  rewrite (bind_cons _ cd cds). simpl. by eexists _, _.
Qed.

Lemma probar_perm_sin_columnas {U : Unicode} (cipher crib : list N)
    (lrs : list long_rule) (cds : list col_direction) (stopfirst : bool) :
  lrs ≠ [] → cds ≠ [] →
  TranspositionWord.probar_perm cipher [] crib lrs cds stopfirst = Raise ZeroDivisionError.
Proof.
  intros Hl Hc. unfold TranspositionWord.probar_perm.
  destruct (variantes_cons lrs cds Hl Hc) as ([lr cd] & vs & ->). done.
Qed.

Lemma py_range_cons (a b : Z) : (a < b)%Z → py_range a b = a :: py_range (a + 1) b.
Proof.
  intros H. unfold py_range.
  replace (Z.to_nat (b - a)) with (S (Z.to_nat (b - (a + 1)))) by lia.
  cbn [seq fmap list_fmap]. f_equal; [lia|].
  rewrite <-fmap_S_seq, <-list_fmap_compose. apply list_fmap_ext. intros _ i _. simpl. lia.
Qed.

Lemma explorar_sin_columnas {U : Unicode} {R : Random} (g : rng) (C W : list N) (k : Z)
    (lrs : list long_rule) (cds : list col_direction) (stopfirst : bool) (maxperms : Z) :
  (k ≤ 0)%Z → (1 ≤ maxperms)%Z → lrs ≠ [] → cds ≠ [] →
  TranspositionWord.explorar_permutaciones g C k W lrs cds stopfirst maxperms
  = Raise ZeroDivisionError.
Proof.
  intros Hk Hm Hl Hc. unfold TranspositionWord.explorar_permutaciones.
  rewrite perms_sin_columnas by done. cbn [TranspositionWord.explorar_bucle].
  by rewrite probar_perm_sin_columnas.
Qed.

Lemma barrer_k_sin_presupuesto {U : Unicode} {R : Random} (g : rng) (C W : list N)
    (lrs : list long_rule) (cds : list col_direction) (stopfirst : bool) (maxperms : Z)
    (ks : list Z) (soluciones : list TranspositionWord.solucion) :
  (maxperms ≤ 0)%Z →
  TranspositionWord.barrer_k g C W lrs cds stopfirst maxperms ks soluciones = Ok soluciones.
Proof.
  intros Hm. induction ks as [|k ks IH]; [done|].
  cbn [TranspositionWord.barrer_k]. unfold TranspositionWord.explorar_permutaciones.
  rewrite perms_sin_presupuesto by done. cbn [TranspositionWord.explorar_bucle].
  cbn [mbind res_bind]. apply IH.
Qed.

(** X9. Edges of the sweep.  An exploration with a column count k <= 0
    (and a budget of at least 1 and non-empty variant options, as [main]
    always passes) raises ZeroDivisionError: the only candidate is the empty
    order, on which the decoder divides by zero.  So does a sweep whose range
    starts at kmin <= 0.  With a budget maxperms <= 0 nothing is examined and
    the sweep returns the empty list, whatever the range. *)
Theorem barrido_bordes {U : Unicode} {R : Random} (g : rng) (C W : list N)
    (k kmin kmax : Z) (lrs : list long_rule) (cds : list col_direction)
    (stopfirst : bool) (maxperms : Z) :
  ((k ≤ 0)%Z → (1 ≤ maxperms)%Z → lrs ≠ [] → cds ≠ [] →
   TranspositionWord.explorar_permutaciones g C k W lrs cds stopfirst maxperms
   = Raise ZeroDivisionError) ∧
  ((kmin ≤ 0)%Z → (kmin ≤ kmax)%Z → (1 ≤ maxperms)%Z → lrs ≠ [] → cds ≠ [] →
   TranspositionWord.buscar_crib g C W kmin kmax lrs cds stopfirst maxperms
   = Raise ZeroDivisionError) ∧
  ((maxperms ≤ 0)%Z →
   TranspositionWord.buscar_crib g C W kmin kmax lrs cds stopfirst maxperms = Ok []).
Proof.
  split; [apply explorar_sin_columnas|]. split.
  - intros Hk Hkk Hm Hl Hc. unfold TranspositionWord.buscar_crib.
    rewrite py_range_cons by lia. cbn [TranspositionWord.barrer_k].
    by rewrite explorar_sin_columnas.
  - intros Hm. by apply barrer_k_sin_presupuesto.
Qed.

Lemma barrido_bordes_witness :
  @TranspositionWord.explorar_permutaciones ascii_unicode rotating_random 0
    (pystr "CADB") 0 (pystr "AB") [Natural; Read] [Down; Up] false 200000
  = Raise ZeroDivisionError ∧
  @TranspositionWord.buscar_crib ascii_unicode rotating_random 0
    (pystr "CADB") (pystr "AB") 0 3 [Natural; Read] [Down; Up] false 200000
  = Raise ZeroDivisionError ∧
  @TranspositionWord.buscar_crib ascii_unicode rotating_random 0
    (pystr "CADB") (pystr "AB") 2 3 [Natural; Read] [Down; Up] false 0
  = Ok [].
Proof.
  pose proof (@barrido_bordes ascii_unicode rotating_random 0 (pystr "CADB") (pystr "AB")
                0 0 3 [Natural; Read] [Down; Up] false 200000) as (H1 & H2 & _).
  pose proof (@barrido_bordes ascii_unicode rotating_random 0 (pystr "CADB") (pystr "AB")
                0 2 3 [Natural; Read] [Down; Up] false 0) as (_ & _ & H3).
  split; [|split].
  - apply H1; [lia|lia|done|done].
  - apply H2; [lia|lia|lia|done|done].
  - apply H3. lia.
Defined.

(** X10. Cases 2 and 3 of [main], without [--order].  When [--keyword] is
    absent or is the empty string, the guard of line 320 fails and the
    search is the sweep over kmin..kmax.  When the keyword is a non-empty
    string with at least one letter, the read order derived from it is a
    permutation of 1..k, the search with it returns a list and never
    raises, and every solution of the list carries that order and passes the
    verification that [guardar_salida] reports.  When the keyword is a
    non-empty string without a letter (and the variant options are not
    empty, as [main] always passes them), the search raises
    ZeroDivisionError. *)
Theorem probar_keyword_spec {U : Unicode} {R : Random} (g : rng) (C W : list N)
    (keyword : option (list N)) (kmin kmax : Z)
    (lrs : list long_rule) (cds : list col_direction) (stopfirst : bool) (maxperms : Z) :
  (keyword = None ∨ keyword = Some [] →
   TranspositionWord.buscar_sin_orden g C W keyword kmin kmax lrs cds stopfirst maxperms
   = TranspositionWord.buscar_crib g C W kmin kmax lrs cds stopfirst maxperms) ∧
  (∀ kw, keyword = Some kw → kw ≠ [] →
     (TranspositionWord.normalizar_AZ kw ≠ [] →
      ∃ order0 sols,
        TranspositionWord.keyword_to_order_read kw = Ok order0 ∧
        valid_order1 (length (TranspositionWord.normalizar_AZ kw))
          ((λ i, Z.of_nat i + 1)%Z <$> order0) ∧
        TranspositionWord.buscar_sin_orden g C W keyword kmin kmax lrs cds stopfirst
          maxperms = Ok sols ∧
        ∀ s, s ∈ sols →
          s.1.1.1 = (λ i, Z.of_nat i + 1)%Z <$> order0 ∧
          TranspositionWord.recifrado_correcto C s = Ok true) ∧
     (TranspositionWord.normalizar_AZ kw = [] → lrs ≠ [] → cds ≠ [] →
      TranspositionWord.buscar_sin_orden g C W keyword kmin kmax lrs cds stopfirst
        maxperms = Raise ZeroDivisionError)).
Proof.
  split; [by intros [->| ->]|]. intros kw -> Hkw.
  assert (TranspositionWord.buscar_sin_orden g C W (Some kw) kmin kmax lrs cds stopfirst
            maxperms
          = TranspositionWord.probar_keyword C W kw lrs cds stopfirst) as ->
    by (by destruct kw).
  unfold TranspositionWord.probar_keyword, TranspositionWord.keyword_to_order_read.
  set (w := TranspositionWord.normalizar_AZ kw).
  destruct (orden_de_palabra_es_orden w) as (order0 & Hrun & Hperm & _).
  rewrite Hrun. cbn [mbind res_bind]. split.
  - intros Hne. exists order0.
    pose proof (valid_order1_of_nat (length w) order0 Hperm) as Hv.
    assert (1 ≤ length w) as Hk by (destruct w; simpl; [done|lia]).
    eexists. split; [done|]. split; [done|].
    split; [by apply (probar_perm_spec C (length w))|].
    intros s Hs.
    assert (s ∈ omap (acepta C ((λ i, Z.of_nat i + 1)%Z <$> order0) W)
                  (TranspositionWord.variantes lrs cds)) as Hin.
    { destruct stopfirst; [|done]. by eapply subseteq_take. }
    apply list_elem_of_omap in Hin as (v & _ & Hacc).
    apply acepta_Some in Hacc as (plain & -> & _ & _ & Hrec).
    split; [done|]. unfold TranspositionWord.recifrado_correcto.
    rewrite Hrec. cbn [mbind res_bind]. by rewrite bool_decide_eq_true_2.
  - intros Hw Hl Hc. rewrite Hw in Hperm. simpl in Hperm.
    apply Permutation_nil_r in Hperm as ->. simpl.
    by apply probar_perm_sin_columnas.
Qed.

Lemma probar_keyword_spec_witness :
  (∃ order0 sols,
     @TranspositionWord.keyword_to_order_read ascii_unicode (pystr "osa") = Ok order0 ∧
     valid_order1 (length (@TranspositionWord.normalizar_AZ ascii_unicode (pystr "osa")))
       ((λ i, Z.of_nat i + 1)%Z <$> order0) ∧
     @TranspositionWord.buscar_sin_orden ascii_unicode rotating_random 0
       (pystr "CADB") (pystr "AB") (Some (pystr "osa")) 2 3
       [Natural; Read] [Down; Up] false 200000 = Ok sols ∧
     ∀ s, s ∈ sols →
       s.1.1.1 = (λ i, Z.of_nat i + 1)%Z <$> order0 ∧
       @TranspositionWord.recifrado_correcto ascii_unicode (pystr "CADB") s = Ok true) ∧
  @TranspositionWord.buscar_sin_orden ascii_unicode rotating_random 0
    (pystr "CADB") (pystr "AB") (Some (pystr "123")) 2 3
    [Natural; Read] [Down; Up] false 200000
  = Raise ZeroDivisionError.
Proof.
  split.
  - apply (proj2 (@probar_keyword_spec ascii_unicode rotating_random 0
                    (pystr "CADB") (pystr "AB") (Some (pystr "osa")) 2 3
                    [Natural; Read] [Down; Up] false 200000) (pystr "osa"));
      [reflexivity|done|by vm_compute].
  - by apply (proj2 (@probar_keyword_spec ascii_unicode rotating_random 0
                       (pystr "CADB") (pystr "AB") (Some (pystr "123")) 2 3
                       [Natural; Read] [Down; Up] false 200000) (pystr "123")).
Defined.

Example probar_keyword_osa :
  @TranspositionWord.buscar_sin_orden ascii_unicode rotating_random 0
    (pystr "CADB") (pystr "AB") (Some (pystr "osa")) 2 3
    [Natural; Read] [Down; Up] false 200000
  = Ok [([3; 1; 2]%Z, Natural, Down, pystr "ABCD")].
Proof. reflexivity. Qed.

(** With the empty keyword the program does not take the keyword case: it
    sweeps kmin..kmax. *)
Example keyword_vacia_barre :
  @TranspositionWord.buscar_sin_orden ascii_unicode rotating_random 0
    (pystr "CADB") (pystr "AB") (Some []) 2 2
    [Natural; Read] [Down; Up] false 200000
  = Ok [([1; 2]%Z, Natural, Down, pystr "CDAB"); ([1; 2]%Z, Natural, Up, pystr "ABCD");
        ([1; 2]%Z, Read, Down, pystr "CDAB"); ([1; 2]%Z, Read, Up, pystr "ABCD")].
Proof. reflexivity. Qed.

(** ** The direct decoding of auto_transpo.py *)

Lemma tomar_segmento_loop_length (C : list N) (longs : list nat) (l : list Z)
    (st st' : list (list N) * nat) :
  foldM (tomar_segmento C longs) st l = Ok st' → length st'.1 = length st.1.
Proof.
  revert st. induction l as [|i l IH]; intros st H.
  - by injection H as <-.
  - rewrite foldM_cons in H.
    destruct (tomar_segmento C longs st i) as [st1|e] eqn:Hst; [|done].
    cbn [mbind res_bind] in H. rewrite (IH st1 H).
    unfold tomar_segmento in Hst.
    destruct (getitem longs i) as [L|]; [|done]. cbn [mbind res_bind] in Hst.
    unfold setitem in Hst. destruct (py_idx (length st.1) i) as [j|]; [|done].
    cbn [mbind res_bind] in Hst. injection Hst as <-. simpl. by rewrite length_insert.
Qed.

Lemma fmap_mas_menos_uno (orden : list Z) :
  (λ i, i - 1)%Z <$> ((λ i, i + 1)%Z <$> orden) = orden.
Proof.
  rewrite <-list_fmap_compose. rewrite <-(list_fmap_id orden) at 2.
  apply list_fmap_ext. intros _ i _. simpl. lia.
Qed.

Lemma descifrado_directo_natural {U : Unicode} {UA : UnicodeAZ U} (C : list N)
    (orden : list Z) :
  forallb is_AZ C = true →
  AutoTranspo.descifrado_directo C orden
  = TranspositionWord.descifrar_por_orden C ((λ i, i + 1)%Z <$> orden) Natural Down.
Proof.
  intros HC. unfold AutoTranspo.descifrado_directo, AutoTranspo.asignar_columnas,
    TranspositionWord.descifrar_por_orden, TranspositionWord.asignar.
  rewrite normalizar_AZ_id by done. rewrite length_fmap, fmap_mas_menos_uno.
  destruct (decide (length orden = 0)) as [Hz|Hnz].
  { rewrite Hz. done. }
  rewrite longitudes_auto_natural, longitudes_natural by lia. cbn [mbind res_bind].
  destruct (foldM _ _ orden) as [st|e] eqn:Hst; [|done]. cbn [mbind res_bind].
  apply tomar_segmento_loop_length in Hst. simpl in Hst. rewrite length_replicate in Hst.
  unfold AutoTranspo.leer_por_filas. by rewrite Hst.
Qed.

(** X11. The two programs decode alike.  On a cryptogram of letters A-Z
    (what [main] passes after normalising), the direct decoding of
    auto_transpo.py with a 0-based order ([asignar_columnas] followed by
    [leer_por_filas]) returns what [descifrar_por_orden] of
    transposition_word.py returns for the same order written 1-based, under
    the natural rule and the down direction, exceptions included, for every
    order, valid or not.  It therefore recovers a text that the encoder of
    transposition_word.py encrypted with the down direction. *)
Theorem decoders_agree {U : Unicode} {UA : UnicodeAZ U} (C P : list N) (orden order1 : list Z)
    (k : nat) :
  (forallb is_AZ C = true →
   AutoTranspo.descifrado_directo C orden
   = TranspositionWord.descifrar_por_orden C ((λ i, i + 1)%Z <$> orden) Natural Down) ∧
  (1 ≤ k → forallb is_AZ P = true → valid_order1 k order1 →
   ∃ C', TranspositionWord.cifrar_por_orden_var P order1 Down = Ok C' ∧
         AutoTranspo.descifrado_directo C' ((λ i, i - 1)%Z <$> order1) = Ok P).
Proof.
  split; [apply descifrado_directo_natural|].
  intros Hk HP Hv.
  destruct (descifrar_cifrado P k order1 Natural Down Hk HP Hv) as (C' & Hc & Hperm & Hd).
  { apply longitudes_natural. lia. }
  exists C'. split; [done|].
  rewrite descifrado_directo_natural by (by eapply Forall_is_AZ_perm).
  assert ((λ i, i + 1)%Z <$> ((λ i, i - 1)%Z <$> order1) = order1) as ->; [|done].
  rewrite <-list_fmap_compose. rewrite <-(list_fmap_id order1) at 2.
  apply list_fmap_ext. intros _ i _. simpl. lia.
Qed.

Lemma decoders_agree_witness :
  (AutoTranspo.descifrado_directo (pystr "EIBWOUSTQCRNXMHUKOFJP") [2; 0; 1]%Z
   = @TranspositionWord.descifrar_por_orden ascii_unicode (pystr "EIBWOUSTQCRNXMHUKOFJP")
       ((λ i, i + 1)%Z <$> [2; 0; 1]%Z) Natural Down) ∧
  (∃ C', @TranspositionWord.cifrar_por_orden_var ascii_unicode
           (pystr "THEQUICKBROWNFOXJUMPS") [3; 1; 2]%Z Down = Ok C' ∧
         AutoTranspo.descifrado_directo C' ((λ i, i - 1)%Z <$> [3; 1; 2]%Z)
         = Ok (pystr "THEQUICKBROWNFOXJUMPS")).
Proof.
  pose proof (@decoders_agree ascii_unicode ascii_unicode_AZ
                (pystr "EIBWOUSTQCRNXMHUKOFJP") (pystr "THEQUICKBROWNFOXJUMPS")
                [2; 0; 1]%Z [3; 1; 2]%Z 3) as [H1 H2].
  split.
  - apply H1. reflexivity.
  - apply H2; [lia|reflexivity|by apply (bool_decide_unpack _)].
Defined.

(** ** The outcome of the heuristic sweep *)

Lemma search_n_paso_raises {M : Scoring} (cipher : list N) (beam kbest : Z)
    (candidatos : list AutoTranspo.candidato) (n : Z) :
  ¬ sin_geometria cipher n →
  AutoTranspo.search_n_paso cipher beam kbest candidatos n = Raise IndexError.
Proof.
  rewrite sin_geometria_div. intros Hn.
  assert (2 ≤ n)%Z as Hn2 by lia.
  assert (3 ≤ length cipher / Z.to_nat n) as Hq by lia.
  unfold AutoTranspo.search_n_paso. rewrite bool_decide_eq_false_2 by lia.
  rewrite longitudes_auto_natural by lia. cbn [mbind res_bind].
  rewrite py_min_longs_natural by lia. cbn [mbind res_bind].
  rewrite bool_decide_eq_false_2 by lia.
  assert (cipher ≠ []) as Hc.
  { intros ->. simpl in Hq. rewrite Nat.Div0.div_0_l in Hq. lia. }
  unfold AutoTranspo.beam_search.
  rewrite longitudes_auto_natural by lia. cbn [mbind res_bind].
  assert (seq 0 (Z.to_nat n) = 0 :: seq 1 (Z.to_nat n - 1)) as ->.
  { destruct (Z.to_nat n) eqn:E; [lia|]. simpl. f_equal. f_equal. lia. }
  rewrite foldM_cons. rewrite paso_haz_raises by (done || lia). done.
Qed.

Lemma search_n_paso_skips {M : Scoring} (cipher : list N) (beam kbest : Z)
    (candidatos : list AutoTranspo.candidato) (n : Z) :
  sin_geometria cipher n →
  AutoTranspo.search_n_paso cipher beam kbest candidatos n = Ok candidatos.
Proof.
  intros Hn. unfold AutoTranspo.search_n_paso.
  destruct Hn as [Hlt|(longs & m & Hlongs & Hm & Hlt)].
  - by rewrite bool_decide_eq_true_2.
  - case_bool_decide; [done|]. rewrite Hlongs. cbn [mbind res_bind].
    rewrite Hm. cbn [mbind res_bind]. by rewrite bool_decide_eq_true_2.
Qed.

Lemma search_n_loop {M : Scoring} (cipher : list N) (beam kbest : Z)
    (candidatos : list AutoTranspo.candidato) (ns : list Z) :
  foldM (AutoTranspo.search_n_paso cipher beam kbest) candidatos ns
  = if decide (Forall (sin_geometria cipher) ns) then Ok candidatos else Raise IndexError.
Proof.
  induction ns as [|n ns IH]; [done|].
  rewrite foldM_cons. destruct (decide (sin_geometria cipher n)) as [Hn|Hn].
  - rewrite search_n_paso_skips by done. cbn [mbind res_bind]. rewrite IH.
    destruct (decide (Forall _ ns)) as [Hf|Hf].
    + by rewrite decide_True by (by constructor).
    + rewrite decide_False; [done|]. intros H. apply Hf. by inversion H.
  - rewrite search_n_paso_raises by done. cbn [mbind res_bind].
    rewrite decide_False; [done|]. intros H. apply Hn. by inversion H.
Qed.

(** X12. [search_n] never returns a hypothesis.  When no column count n of
    nmin..nmax has both n >= 2 and 3n <= len(cipher), it returns the empty
    list; otherwise the first such n reaches [beam_search], which raises
    IndexError, and so does [search_n].  No other outcome exists, whatever
    the beam width, the number of results asked for and the scoring
    table. *)
Theorem search_n_outcome {M : Scoring} (cipher : list N) (nmin nmax beam kbest : Z) :
  ((∀ n, (nmin ≤ n ≤ nmax)%Z → (n < 2 ∨ Z.of_nat (length cipher) < 3 * n)%Z) ∧
   AutoTranspo.search_n cipher nmin nmax beam kbest = Ok []) ∨
  ((∃ n, (nmin ≤ n ≤ nmax)%Z ∧ (2 ≤ n)%Z ∧ (3 * n ≤ Z.of_nat (length cipher))%Z) ∧
   AutoTranspo.search_n cipher nmin nmax beam kbest = Raise IndexError).
Proof.
  assert (∀ n, sin_geometria cipher n ↔ (n < 2 ∨ Z.of_nat (length cipher) < 3 * n)%Z) as Hsg.
  { intros n. rewrite sin_geometria_div.
    destruct (decide (n < 2)%Z) as [?|Hn]; [by split; left|].
    assert (length cipher / Z.to_nat n < 3 ↔ length cipher < 3 * Z.to_nat n) as ->.
    { pose proof (Nat.div_mod_eq (length cipher) (Z.to_nat n)) as Hdm.
      pose proof (Nat.mod_upper_bound (length cipher) (Z.to_nat n)) as Hmu.
      split; intros H; nia. }
    lia. }
  unfold AutoTranspo.search_n. rewrite search_n_loop.
  destruct (decide (Forall _ _)) as [Hf|Hf].
  - left. split.
    + intros n Hn. apply Hsg. eapply Forall_forall in Hf; [done|].
      apply py_range_elem. lia.
    + cbn [mbind res_bind sort_desc]. by rewrite slice_to_nil.
  - right. split; [|done].
    apply not_Forall_Exists in Hf; [|apply _]. apply Exists_exists in Hf as (n & Hin & Hn).
    apply py_range_elem in Hin. exists n.
    destruct (decide (n < 2 ∨ Z.of_nat (length cipher) < 3 * n)%Z) as [Hd|Hd]; [|lia].
    exfalso. apply Hn. by apply Hsg.
Qed.

Example search_n_24 :
  @AutoTranspo.search_n toy_scoring (pystr "EIBWOUSTQCRNXMHUKOFJPABC") 4 10 200 5
  = Raise IndexError ∧
  @AutoTranspo.search_n toy_scoring (pystr "EIBWOUSTQCR") 4 10 200 5 = Ok [].
Proof. split; reflexivity. Qed.

(** ** Blocks of five *)

Lemma group5_corto (s : list N) : length s ≤ 5 → AutoTranspo.group5 s = s.
Proof.
  intros H. unfold AutoTranspo.group5, range_step. destruct s as [|a s]; [done|].
  assert ((length (a :: s) - 0 + 5 - 1) / 5 = 1) as ->.
  { cbn [length] in *.
    replace (S (length s) - 0 + 5 - 1) with (length s + 1 * 5) by lia.
    rewrite Nat.div_add by lia. by rewrite Nat.div_small by lia. }
  cbn [seq fmap list_fmap str_join]. unfold slice. rewrite drop_0. apply take_ge. lia.
Qed.

Lemma group5_largo (s : list N) :
  5 < length s →
  AutoTranspo.group5 s = take 5 s ++ 32%N :: AutoTranspo.group5 (drop 5 s).
Proof.
  intros H. unfold AutoTranspo.group5, range_step.
  rewrite length_drop.
  set (m := (length s - 5 - 0 + 5 - 1) / 5).
  assert ((length s - 0 + 5 - 1) / 5 = S m) as ->.
  { unfold m. replace (length s - 0 + 5 - 1) with ((length s - 5 - 0 + 5 - 1) + 1 * 5) by lia.
    rewrite Nat.div_add by lia. lia. }
  assert (1 ≤ m) as Hm.
  { unfold m. apply Nat.div_le_lower_bound; lia. }
  cbn [seq]. rewrite !fmap_cons. rewrite <-fmap_S_seq, <-!list_fmap_compose.
  assert ((λ i, slice s i (i + 5)) ∘ (λ j, 0 + 5 * j) ∘ S <$> seq 0 m
          = (λ i, slice (drop 5 s) i (i + 5)) ∘ (λ j, 0 + 5 * j) <$> seq 0 m) as ->.
  { apply list_fmap_ext. intros _ j _. simpl. unfold slice. rewrite drop_drop.
    f_equal; [lia|]. f_equal. lia. }
  destruct m as [|m]; [lia|]. cbn [seq fmap list_fmap str_join].
  unfold slice at 1. rewrite drop_0. simpl. done.
Qed.

Lemma filter_app_espacio (a b : list N) :
  filter (λ ch, ch ≠ 32%N) (a ++ 32%N :: b)
  = filter (λ ch, ch ≠ 32%N) a ++ filter (λ ch, ch ≠ 32%N) b.
Proof. rewrite filter_app. by rewrite filter_cons_False by (by intros ?). Qed.

(** X13. [group5] inserts one space after every five symbols except at the
    end: the result has len(s) + (len(s)-1) div 5 symbols, the symbol i of
    [s] is at position i + i div 5, every position 5, 11, 17, ... holds a
    space, and removing the spaces from the grouped form of a text without
    spaces gives the text back. *)
Theorem group5_spec (s : list N) :
  length (AutoTranspo.group5 s) = length s + (length s - 1) / 5 ∧
  (∀ i, i < length s → AutoTranspo.group5 s !! (i + i / 5) = s !! i) ∧
  (∀ j, j < length (AutoTranspo.group5 s) → j mod 6 = 5 →
        AutoTranspo.group5 s !! j = Some 32%N) ∧
  (32%N ∉ s → filter (λ ch, ch ≠ 32%N) (AutoTranspo.group5 s) = s).
Proof.
  remember (length s) as n eqn:Hn. revert s Hn.
  induction n as [n IH] using lt_wf_ind. intros s Hn.
  destruct (decide (n ≤ 5)) as [Hle|Hgt].
  { rewrite group5_corto by lia. rewrite <-Hn.
    assert ((n - 1) / 5 = 0) as -> by (apply Nat.div_small; lia).
    split_and!.
    - lia.
    - intros i Hi. rewrite (Nat.div_small i 5) by lia. by rewrite Nat.add_0_r.
    - intros j Hj Hmod. rewrite Nat.mod_small in Hmod by lia. lia.
    - intros Hs. apply filter_id_Forall. apply Forall_forall. by intros ch Hch ->. }
  rewrite group5_largo by lia.
  destruct (IH (n - 5) ltac:(lia) (drop 5 s)) as (Hlen & Hpos & Hesp & Hfil).
  { rewrite length_drop. lia. }
  assert (length (take 5 s) = 5) as Ht by (rewrite length_take; lia).
  split_and!.
  - rewrite length_app, Ht. cbn [length]. rewrite Hlen.
    replace (n - 1) with ((n - 5 - 1) + 1 * 5) by lia.
    rewrite Nat.div_add by lia. lia.
  - intros i Hi. destruct (decide (i < 5)) as [Hi5|Hi5].
    + rewrite (Nat.div_small i 5) by lia. rewrite Nat.add_0_r.
      rewrite lookup_app_l by lia. by apply lookup_take_lt.
    + replace i with ((i - 5) + 1 * 5) at 2 by lia. rewrite Nat.div_add by lia.
      rewrite lookup_app_r by lia. rewrite Ht.
      replace (i + ((i - 5) / 5 + 1) - 5) with (S ((i - 5) + (i - 5) / 5)) by lia.
      cbn [lookup list_lookup]. rewrite Hpos by lia. rewrite lookup_drop. f_equal. lia.
  - intros j Hj Hmod. rewrite length_app, Ht in Hj. cbn [length] in Hj.
    destruct (decide (j < 5)) as [Hj5|Hj5].
    { rewrite Nat.mod_small in Hmod by lia. lia. }
    rewrite lookup_app_r by lia. rewrite Ht.
    destruct (decide (j = 5)) as [->|Hne]; [done|].
    replace (j - 5) with (S (j - 6)) by lia. cbn [lookup list_lookup].
    apply Hesp; [lia|].
    replace j with ((j - 6) + 1 * 6) in Hmod by lia.
    by rewrite Nat.Div0.mod_add in Hmod.
  - intros Hs. rewrite filter_app_espacio, Hfil.
    + rewrite filter_id_Forall; [apply take_drop|].
      apply Forall_forall. intros ch Hch ->. apply Hs. by eapply subseteq_take.
    + intros Hin. apply Hs. by eapply subseteq_drop.
Qed.

Example group5_ejemplo :
  AutoTranspo.group5 (pystr "THEQUICKBROWNFOXJUMPS") = pystr "THEQU ICKBR OWNFO XJUMP S" ∧
  AutoTranspo.group5 (pystr "THEQUICKBR") = pystr "THEQU ICKBR" ∧
  AutoTranspo.group5 [] = [].
Proof. repeat split; reflexivity. Qed.

(** ** The trigram table the program starts with *)

Lemma foldl_insert_lookup {V : Type} (t0 : gmap (list N) V) (ks : list (list N)) (v : V)
    (k : list N) :
  foldl (λ t k', <[k' := v]> t) t0 ks !! k
  = if decide (k ∈ ks) then Some v else t0 !! k.
Proof.
  revert t0. induction ks as [|x ks IH]; intros t0; [done|].
  cbn [foldl]. rewrite IH.
  destruct (decide (k ∈ ks)) as [Hin|Hin].
  - by rewrite decide_True by (by right).
  - destruct (decide (k = x)) as [->|Hne].
    + rewrite decide_True by left. by rewrite lookup_insert_eq.
    + rewrite decide_False by (by intros [?|?]%elem_of_cons).
      by rewrite lookup_insert_ne.
Qed.

Lemma ascii_uppercase_elem (ch : N) : ch ∈ ascii_uppercase ↔ is_AZ ch = true.
Proof.
  assert (ascii_uppercase = N.of_nat <$> seq 65 26) as -> by reflexivity.
  unfold is_AZ. rewrite andb_true_iff, !bool_decide_eq_true, list_elem_of_fmap. split.
  - intros (i & -> & Hi%elem_of_seq). lia.
  - intros H. exists (N.to_nat ch). split; [lia|]. apply elem_of_seq. lia.
Qed.

Lemma trigramas_AZ_elem (tri : list N) :
  tri ∈ AutoTranspo.trigramas_AZ ↔ length tri = 3 ∧ forallb is_AZ tri = true.
Proof.
  unfold AutoTranspo.trigramas_AZ. split.
  - intros H.
    apply list_elem_of_bind in H as (a & H & Ha%ascii_uppercase_elem).
    apply list_elem_of_bind in H as (b & H & Hb%ascii_uppercase_elem).
    apply list_elem_of_bind in H as (c & H & Hc%ascii_uppercase_elem).
    apply list_elem_of_singleton in H as ->. simpl. by rewrite Ha, Hb, Hc.
  - intros [Hlen HAZ].
    destruct tri as [|a [|b [|c [|d tri]]]]; simpl in Hlen; try lia.
    simpl in HAZ. rewrite !andb_true_iff in HAZ. destruct HAZ as (Ha & Hb & Hc & _).
    apply list_elem_of_bind. exists a. split; [|by apply ascii_uppercase_elem].
    apply list_elem_of_bind. exists b. split; [|by apply ascii_uppercase_elem].
    apply list_elem_of_bind. exists c. split; [|by apply ascii_uppercase_elem].
    by apply list_elem_of_singleton.
Qed.

Lemma tabla_inicial_lookup (tri : list N) :
  AutoTranspo.cargar_trigramas_None.1 !! tri
  = if decide (tri ∈ AutoTranspo.comunes) then Some (-2.5)%float
    else if decide (length tri = 3 ∧ forallb is_AZ tri = true) then Some (-9)%float
    else None.
Proof.
  unfold AutoTranspo.cargar_trigramas_None. cbn [fst].
  rewrite foldl_insert_lookup. destruct (decide (tri ∈ AutoTranspo.comunes)); [done|].
  rewrite foldl_insert_lookup.
  destruct (decide (tri ∈ AutoTranspo.trigramas_AZ)) as [Hin|Hin].
  - by rewrite decide_True by (by apply trigramas_AZ_elem).
  - by rewrite decide_False by (by rewrite <-trigramas_AZ_elem).
Qed.

Lemma foldl_ext_elem {A B : Type} (f g : B → A → B) (b : B) (l : list A) :
  (∀ a x, x ∈ l → f a x = g a x) → foldl f b l = foldl g b l.
Proof.
  revert b. induction l as [|x l IH]; intros b H; [done|].
  cbn [foldl]. rewrite H by left. apply IH. intros a y Hy. apply H. by right.
Qed.

Lemma slice_AZ (s : list N) (i : nat) :
  forallb is_AZ s = true → i + 3 ≤ length s →
  length (slice s i (i + 3)) = 3 ∧ forallb is_AZ (slice s i (i + 3)) = true.
Proof.
  intros Hs Hi. rewrite slice_take_drop. split.
  - rewrite length_take, length_drop. lia.
  - apply forallb_is_AZ_Forall. apply forallb_is_AZ_Forall in Hs.
    apply Forall_take, Forall_drop. done.
Qed.

(** X14. The table that the program starts with.  [cargar_trigramas(None)]
    returns the floor -10.5 and a table that holds exactly the 26^3 strings
    of three letters A-Z: the value -2.5 for the eleven common trigrams and
    -9.0 for the others.  Hence, with the globals of line 105, the score of
    a text of at least three letters A-Z is the left-to-right sum of -2.5
    or -9.0 per window, and the floor is never used on normalised text. *)
Theorem tabla_inicial (tri s : list N) :
  AutoTranspo.cargar_trigramas_None.2 = (-10.5)%float ∧
  AutoTranspo.cargar_trigramas_None.1 !! tri
  = (if decide (tri ∈ AutoTranspo.comunes) then Some (-2.5)%float
     else if decide (length tri = 3 ∧ forallb is_AZ tri = true) then Some (-9)%float
     else None) ∧
  (forallb is_AZ s = true → 3 ≤ length s →
   @AutoTranspo.score_text float_scoring s
   = foldl PrimFloat.add 0%float
       ((λ w, if decide (w ∈ AutoTranspo.comunes) then (-2.5)%float else (-9)%float)
          <$> ventanas s)).
Proof.
  split; [done|]. split; [apply tabla_inicial_lookup|].
  intros Hs Hlen. unfold AutoTranspo.score_text.
  rewrite bool_decide_eq_false_2 by lia.
  rewrite ventanas_slices, <-list_fmap_compose, foldl_fmap_res.
  apply foldl_ext_elem. intros total i Hi. apply elem_of_seq in Hi.
  change (@score_add float_scoring) with PrimFloat.add.
  change (@TRI float_scoring) with AutoTranspo.cargar_trigramas_None.1.
  unfold compose. cbv beta. apply (f_equal (PrimFloat.add total)).
  rewrite tabla_inicial_lookup.
  destruct (decide (slice s i (i + 3) ∈ AutoTranspo.comunes)); [reflexivity|].
  rewrite decide_True; [reflexivity|]. apply slice_AZ; [exact Hs|lia].
Qed.

Lemma tabla_inicial_witness :
  @AutoTranspo.score_text float_scoring (pystr "QUEDA")
  = foldl PrimFloat.add 0%float
      ((λ w, if decide (w ∈ AutoTranspo.comunes) then (-2.5)%float else (-9)%float)
         <$> ventanas (pystr "QUEDA")).
Proof.
  apply (proj2 (proj2 (tabla_inicial [] (pystr "QUEDA")))).
  - reflexivity.
  - simpl. lia.
Defined.

Example score_text_QUEDA :
  foldl PrimFloat.add 0%float
    ((λ w, if decide (w ∈ AutoTranspo.comunes) then (-2.5)%float else (-9)%float)
       <$> ventanas (pystr "QUEDA"))
  = (-20.5)%float.
Proof. reflexivity. Qed.

(** ** The encoder keeps the symbols *)

(** X15. Encoding preserves the symbol multiset: for every text, every
    read order that is a permutation of 1..k (k >= 1) and either column
    direction, [cifrar_por_orden_var] returns a cryptogram that is a
    rearrangement of the normalised text, of the same length, made of
    letters A-Z only. *)
Theorem encode_preserves_symbols {U : Unicode} (P : list N) (k : nat)
    (order1 : list Z) (dir : col_direction) :
  1 ≤ k →
  valid_order1 k order1 →
  ∃ C, TranspositionWord.cifrar_por_orden_var P order1 dir = Ok C ∧
       C ≡ₚ TranspositionWord.normalizar_AZ P ∧
       length C = length (TranspositionWord.normalizar_AZ P) ∧
       forallb is_AZ C = true.
Proof.
  intros Hk Hv. pose proof (valid_order1_length k order1 Hv) as Hlen.
  apply valid_order1_to_0 in Hv.
  destruct (valid_order0_nat k _ Hv) as (idxs & Hidxs & Hp).
  destruct (cifrar_spec P k idxs order1 dir Hk Hlen Hidxs Hp) as (cols & Hinv & ->).
  pose proof (cifrar_perm _ k idxs dir cols Hk Hinv Hp) as Hperm.
  eexists. split; [done|]. split; [done|]. split; [by rewrite Hperm|].
  eapply Forall_is_AZ_perm; [exact Hperm|]. apply normalizar_AZ_solo_AZ.
Qed.

Lemma encode_preserves_symbols_witness :
  ∃ C, @TranspositionWord.cifrar_por_orden_var ascii_unicode
         (pystr "The quick brown fox") [3; 1; 2]%Z Up = Ok C ∧
       C ≡ₚ @TranspositionWord.normalizar_AZ ascii_unicode (pystr "The quick brown fox") ∧
       length C
       = length (@TranspositionWord.normalizar_AZ ascii_unicode (pystr "The quick brown fox")) ∧
       forallb is_AZ C = true.
Proof.
  apply (@encode_preserves_symbols ascii_unicode (pystr "The quick brown fox") 3
           [3; 1; 2]%Z Up).
  - lia.
  - by apply (bool_decide_unpack _).
Defined.

(** ** When the read rule gives the natural geometry *)

Lemma longs_con_eq (q k : nat) (a b : list nat) :
  longs_con q k a = longs_con q k b ↔ ∀ i, i < k → (i ∈ a ↔ i ∈ b).
Proof.
  split.
  - intros Heq i Hi. apply (f_equal (.!! i)) in Heq.
    rewrite !longs_con_lookup in Heq by done.
    do 2 case_bool_decide; (done || (injection Heq; lia)).
  - intros H. unfold longs_con. apply list_fmap_ext. intros j i Hi.
    apply lookup_seq in Hi as [-> Hi]. simpl.
    by rewrite (bool_decide_ext _ _ (H j Hi)).
Qed.

(** X16. The read rule yields the natural geometry exactly when the first
    N mod k entries of the read order are the first N mod k columns, in any
    order (in particular when k divides N); these are the cases in which
    decoding under the read rule undoes the encoder. *)
Theorem geometria_read_natural (N k : nat) (idxs : list nat) :
  1 ≤ k →
  idxs ≡ₚ seq 0 k →
  (TranspositionWord.longitudes_columnas N k (Z.of_nat <$> idxs) Read
   = TranspositionWord.longitudes_columnas N k (Z.of_nat <$> idxs) Natural
   ↔ Forall (λ i, i < N mod k) (take (N mod k) idxs)).
Proof.
  intros Hk Hp. destruct (perm_seq_facts k idxs Hp) as (Hnd & Hlt & Hlen).
  rewrite longitudes_read, longitudes_natural by done.
  rewrite longs_natural_con.
  assert (N mod k < k) as Hr by (apply Nat.mod_upper_bound; lia).
  set (r := N mod k) in *.
  assert (length (take r idxs) = r) as Htl by (rewrite length_take; lia).
  assert (NoDup (take r idxs)) as Hndt by (eapply sublist_NoDup; [exact Hnd|apply sublist_take]).
  split.
  - intros [= Heq]. pose proof (proj1 (longs_con_eq _ _ _ _) Heq) as Heq'.
    clear Heq. rename Heq' into Heq. apply Forall_forall. intros i Hi.
    assert (i < k) as Hik.
    { eapply Forall_forall in Hlt; [exact Hlt|]. by eapply subseteq_take. }
    apply (Heq i Hik) in Hi. apply elem_of_seq in Hi. lia.
  - intros Hall. f_equal. apply longs_con_eq. intros i Hi.
    assert (take r idxs ≡ₚ seq 0 r) as ->; [|done].
    apply submseteq_length_Permutation; [|by rewrite Htl, length_seq].
    apply NoDup_submseteq; [done|]. intros x Hx.
    eapply Forall_forall in Hall; [|exact Hx]. apply elem_of_seq. simpl in Hall. lia.
Qed.

Lemma geometria_read_natural_witness :
  TranspositionWord.longitudes_columnas 32 5 (Z.of_nat <$> [1; 0; 4; 2; 3]) Read
  = TranspositionWord.longitudes_columnas 32 5 (Z.of_nat <$> [1; 0; 4; 2; 3]) Natural
  ↔ Forall (λ i, i < 32 mod 5) (take (32 mod 5) [1; 0; 4; 2; 3]).
Proof.
  apply (geometria_read_natural 32 5 [1; 0; 4; 2; 3]).
  - lia.
  - by apply (bool_decide_unpack _).
Defined.

(** ** Beam search with fewer than two columns *)

Lemma longs_natural_una (N : nat) : longs_natural N 1 = [N].
Proof.
  unfold longs_natural. cbn [seq fmap list_fmap].
  rewrite Nat.div_1_r, Nat.mod_1_r. rewrite bool_decide_eq_false_2 by lia.
  f_equal. lia.
Qed.

Lemma slice_todo {A : Type} (s : list A) : slice s 0 (0 + length s) = s.
Proof. unfold slice. rewrite drop_0. apply take_ge. lia. Qed.

Lemma parcial_de_una (cipher : list N) :
  AutoTranspo.parcial_de [cipher] 1 (length cipher) = Ok cipher.
Proof.
  unfold AutoTranspo.parcial_de.
  assert ((seq 0 (length cipher) ≫= λ r, seq 0 1 ≫= λ c, [(r, c)])
          = (λ r, (r, 0)) <$> seq 0 (length cipher)) as ->.
  { generalize (seq 0 (length cipher)). intros l.
    induction l as [|r l IH]; [done|]. rewrite bind_cons, IH. done. }
  rewrite (mapM_res_Ok _ (λ rc : nat * nat, cipher !!! rc.1)).
  - rewrite <-list_fmap_compose. f_equal. apply fmap_lookup_total_seq.
  - intros [r c] Hin. apply list_elem_of_fmap in Hin as (r' & [= -> ->] & Hr).
    apply elem_of_seq in Hr. cbn [fst snd].
    rewrite (getitem_nat [cipher] 0 cipher) by done. cbn [mbind res_bind].
    destruct (lookup_lt_is_Some_2 cipher r') as [ch Hch]; [lia|].
    rewrite (getitem_nat _ _ _ Hch). by rewrite (list_lookup_total_correct _ _ _ Hch).
Qed.

Lemma leer_por_filas_una (cipher : list N) :
  AutoTranspo.leer_por_filas [cipher] = Ok cipher.
Proof.
  unfold AutoTranspo.leer_por_filas. cbn [fmap list_fmap py_max foldl mbind res_bind length].
  f_equal. apply (es_reparto_leer cipher 1 (length cipher) [cipher]); [lia| |done].
  split; [done|]. intros [|c] col Hc r; [|done].
  injection Hc as <-. f_equal. lia.
Qed.

(** X17. Beam search outside the range n >= 2.  With no column it raises
    ZeroDivisionError.  With one column and a beam of at least 1 it keeps
    the single state whose column is the whole cryptogram: on a non-empty
    cryptogram it returns, cut to [topk], the one hypothesis made of the
    cryptogram itself, the order [0] and the score of the cryptogram divided
    by its length; on the empty cryptogram it raises ZeroDivisionError. *)
Theorem beam_search_una_columna {M : Scoring} (cipher : list N) (beam topk : Z) :
  AutoTranspo.beam_search cipher 0 beam topk = Raise ZeroDivisionError ∧
  ((1 ≤ beam)%Z →
   AutoTranspo.beam_search cipher 1 beam topk
   = if decide (cipher = []) then Raise ZeroDivisionError
     else Ok (slice_to [(score_div (AutoTranspo.score_text cipher) (length cipher),
                         [0], cipher)] topk)).
Proof.
  split; [done|]. intros Hb. unfold AutoTranspo.beam_search.
  rewrite longitudes_auto_natural, longs_natural_una by lia.
  cbn [mbind res_bind seq foldM].
  unfold AutoTranspo.paso_haz. cbn [mapM_res]. unfold AutoTranspo.extender at 1.
  cbn [fst snd seq]. rewrite filter_cons_True by apply not_elem_of_nil.
  rewrite filter_nil. cbn [mapM_res]. unfold AutoTranspo.extender_con at 1.
  rewrite (getitem_nat [length cipher] 0 (length cipher)) by done. cbn [mbind res_bind].
  rewrite slice_todo. cbn [replicate].
  rewrite (setitem_nat [[]] 0 cipher) by (simpl; lia). cbn [mbind res_bind].
  cbn [insert list_insert app]. unfold AutoTranspo.min_filas. cbn [mapM_res].
  rewrite (getitem_nat [cipher] 0 cipher) by done.
  cbn [mbind res_bind py_min foldl]. rewrite parcial_de_una.
  cbn [mbind res_bind concat app]. unfold AutoTranspo.podar. cbn [sort_desc insert_desc].
  rewrite slice_to_nonneg by lia.
  replace (Z.to_nat beam) with (S (Z.to_nat (beam - 1))) by lia. cbn [take].
  rewrite take_nil. cbn [mapM_res]. unfold AutoTranspo.finalizar. cbn [fst snd].
  rewrite leer_por_filas_una. cbn [mbind res_bind]. unfold AutoTranspo.py_div.
  destruct (decide (cipher = [])) as [->|Hne].
  - done.
  - rewrite bool_decide_eq_false_2 by (by destruct cipher).
    cbn [mbind res_bind sort_desc insert_desc]. done.
Qed.

Lemma beam_search_una_columna_witness :
  @AutoTranspo.beam_search toy_scoring (pystr "ABCDEF") 1 3 2
  = if decide (pystr "ABCDEF" = []) then Raise ZeroDivisionError
    else Ok (slice_to [(@score_div toy_scoring
                          (@AutoTranspo.score_text toy_scoring (pystr "ABCDEF"))
                          (length (pystr "ABCDEF")),
                        [0], pystr "ABCDEF")] 2).
Proof.
  apply (proj2 (@beam_search_una_columna toy_scoring (pystr "ABCDEF") 3 2)). lia.
Defined.

(** ** Scoring a text one symbol longer *)

Lemma slice_app_l {A : Type} (s t : list A) (i L : nat) :
  i + L ≤ length s → slice (s ++ t) i (i + L) = slice s i (i + L).
Proof.
  intros H. rewrite !slice_take_drop. rewrite drop_app_le by lia.
  rewrite take_app_le; [done|]. rewrite length_drop. lia.
Qed.

(** X18. The score is a running sum: appending one symbol to a text of at
    least three symbols adds the value of the new last window to its score.
    For a text of exactly two symbols the new score is the value of the
    single window added to 0.0, not to the score of the two symbols, which
    is the sentinel. *)
Theorem score_text_append {M : Scoring} (s : list N) (x : N) :
  2 ≤ length s →
  AutoTranspo.score_text (s ++ [x])
  = score_add (if decide (length s = 2) then score_zero else AutoTranspo.score_text s)
      (default TRI_DEF (TRI !! drop (length s - 2) (s ++ [x]))).
Proof.
  intros Hlen. unfold AutoTranspo.score_text.
  rewrite length_app. cbn [length].
  rewrite (bool_decide_eq_false_2 (length s + 1 < 3)) by lia.
  replace (length s + 1 - 2) with (S (length s - 2)) by lia.
  rewrite seq_S, foldl_app. cbn [foldl]. rewrite Nat.add_0_l.
  assert (slice (s ++ [x]) (length s - 2) (length s - 2 + 3)
          = drop (length s - 2) (s ++ [x])) as ->.
  { rewrite slice_take_drop. apply take_ge. rewrite length_drop, length_app. simpl. lia. }
  f_equal. destruct (decide (length s = 2)) as [H2|H2].
  - by rewrite H2.
  - rewrite bool_decide_eq_false_2 by lia. apply foldl_ext_elem.
    intros total i Hi. apply elem_of_seq in Hi.
    by rewrite slice_app_l by lia.
Qed.

Lemma score_text_append_witness :
  @AutoTranspo.score_text toy_scoring (pystr "THEQU" ++ [69%N])
  = @score_add toy_scoring
      (if decide (length (pystr "THEQU") = 2) then @score_zero toy_scoring
       else @AutoTranspo.score_text toy_scoring (pystr "THEQU"))
      (default (@TRI_DEF toy_scoring)
         (@TRI toy_scoring !! drop (length (pystr "THEQU") - 2) (pystr "THEQU" ++ [69%N]))).
Proof.
  apply (@score_text_append toy_scoring (pystr "THEQU") 69%N). simpl. lia.
Defined.

(** * transposicion.py *)

(** ** The numeric key *)

Lemma mapM_resd_Ok {A B : Type} (f : A → resd B) (g : A → B) (l : list A) :
  (∀ x, x ∈ l → f x = OkD (g x)) → mapM_resd f l = OkD (g <$> l).
Proof.
  induction l as [|x l IH]; intros H; [done|].
  cbn [mapM_resd]. rewrite H by left. cbn [mbind resd_bind].
  rewrite IH; [done|]. intros y Hy. apply H. by right.
Qed.

(** The dictionary loop of [derivar_clave_numerica]: the [j]-th pair
    receives the value [v0 + j]. *)
Lemma asignacion_loop (pares : list (N * nat)) (d0 : gmap (N * nat) nat) (v0 : nat) :
  NoDup pares →
  ∀ j p, pares !! j = Some p →
    (foldl (λ (st : gmap (N * nat) nat * nat) p, (<[p := st.2]> st.1, st.2 + 1))
           (d0, v0) pares).1 !! p = Some (v0 + j).
Proof.
  revert d0 v0. induction pares as [|q pares IH]; intros d0 v0 Hnd j p Hp; [done|].
  apply NoDup_cons in Hnd as [Hq Hnd]. cbn [foldl fst snd].
  destruct j as [|j]; simpl in Hp.
  - injection Hp as <-. rewrite Nat.add_0_r. clear IH.
    assert (∀ (l : list (N * nat)) d v, q ∉ l →
              (foldl (λ (st : gmap (N * nat) nat * nat) p, (<[p := st.2]> st.1, st.2 + 1))
                     (d, v) l).1 !! q = d !! q) as Hkeep.
    { intros l. induction l as [|x l IHl]; intros d v Hx; [done|].
      apply not_elem_of_cons in Hx as [Hne Hx]. cbn [foldl fst snd].
      rewrite IHl by done. by apply lookup_insert_ne. }
    rewrite Hkeep by done. apply lookup_insert_eq.
  - rewrite (IH _ _ Hnd j p Hp). f_equal. lia.
Qed.

Lemma pares_NoDup (w : list N) : NoDup (imap (λ idx letra, (letra, idx)) w).
Proof.
  apply (NoDup_fmap_1 snd).
  assert (snd <$> imap (λ idx (letra : N), (letra, idx)) w = seq 0 (length w)) as ->
    by exact (imap_snd_seq w 0).
  apply NoDup_seq.
Qed.

(** What [derivar_clave_numerica] returns on the normalised key [w]. *)
Lemma derivar_spec {U : Unicode} (clave : list N) :
  let w := Transposicion.normalizar_AZ clave in
  let pares := py_sorted (tuple_ltb N.ltb Nat.ltb) id (imap (λ idx letra, (letra, idx)) w) in
  ∃ clave_num,
    Transposicion.derivar_clave_numerica clave = OkD clave_num ∧
    length clave_num = length w ∧
    ∀ j p, pares !! j = Some p → clave_num !! p.2 = Some (1 + j).
Proof.
  intros w pares. unfold Transposicion.derivar_clave_numerica. fold w. fold pares.
  assert (pares ≡ₚ imap (λ idx letra, (letra, idx)) w) as Hperm by apply py_sorted_perm.
  assert (NoDup pares) as Hnd by (rewrite Hperm; apply pares_NoDup).
  set (d := (foldl _ _ pares).1).
  assert (∀ j p, pares !! j = Some p → d !! p = Some (1 + j)) as Hd.
  { intros j p Hp. by apply asignacion_loop. }
  set (pos := λ p : N * nat, default 0 (d !! p)).
  exists (pos <$> imap (λ idx letra, (letra, idx)) w). split; [|split].
  - apply mapM_resd_Ok. intros p Hp. rewrite <-Hperm in Hp.
    apply list_elem_of_lookup in Hp as [j Hj]. unfold dict_getitem, pos.
    by rewrite (Hd j p Hj).
  - by rewrite length_fmap, length_imap.
  - intros j p Hp. rewrite list_lookup_fmap.
    assert (p ∈ imap (λ idx letra, (letra, idx)) w) as Hin.
    { rewrite <-Hperm. by eapply list_elem_of_lookup_2. }
    apply imap_elem_pair in Hin. rewrite list_lookup_imap, Hin. simpl.
    unfold pos. rewrite <-surjective_pairing. by rewrite (Hd j p Hp).
Qed.

Lemma orden_de_clave_perm (clave_num : list nat) :
  Transposicion.orden_de_clave clave_num ≡ₚ seq 0 (length clave_num).
Proof. apply py_sorted_perm. Qed.

(** Sorting the columns by a numeric key without repeated values. *)
Lemma orden_de_clave_unique (clave_num : list nat) (orden : list nat) :
  orden ≡ₚ seq 0 (length clave_num) →
  (∀ j i, orden !! j = Some i → clave_num !! i = Some (1 + j)) →
  Transposicion.orden_de_clave clave_num = orden.
Proof.
  intros Hperm Hrank. unfold Transposicion.orden_de_clave.
  set (key := λ k, default 0 (clave_num !! k)).
  assert (∀ j i, orden !! j = Some i → key i = 1 + j) as Hkey.
  { intros j i Hi. unfold key. by rewrite (Hrank j i Hi). }
  apply (StronglySorted_unique_strong (λ a b : nat, Nat.ltb (key b) (key a) = false)).
  - intros a b Ha Hb Hab Hba. rewrite py_sorted_perm, <-Hperm in Ha.
    apply list_elem_of_lookup in Ha as [ja Hja]. apply list_elem_of_lookup in Hb as [jb Hjb].
    apply Nat.ltb_ge in Hab, Hba. rewrite (Hkey _ _ Hja), (Hkey _ _ Hjb) in Hab, Hba.
    assert (ja = jb) as -> by lia. congruence.
  - apply ascendente_StronglySorted. apply (py_sorted_ascendente Nat.ltb key).
    + intros a b Hab. apply Nat.ltb_lt in Hab. apply Nat.ltb_ge. lia.
    + intros a b c Hab Hbc. apply Nat.ltb_ge in Hab, Hbc. apply Nat.ltb_ge. lia.
  - apply ascendente_StronglySorted. intros i j a b Hij Ha Hb.
    rewrite (Hkey _ _ Ha), (Hkey _ _ Hb). apply Nat.ltb_ge. lia.
  - by rewrite py_sorted_perm, Hperm.
Qed.

(** X19. The numeric key of transposicion.py.  [derivar_clave_numerica]
    never raises; for a key word with k letters it returns a list of k
    values that is a permutation of 1..k, the value of a column being its
    rank among the letters (equal letters ranked from left to right); and
    sorting the columns by that numeric key, as the cipher does, gives the
    read order that [keyword_to_order_read] computes for the same letters. *)
Theorem derivar_clave_numerica_spec {U : Unicode} (clave : list N) :
  ∃ clave_num order0,
    Transposicion.derivar_clave_numerica clave = OkD clave_num ∧
    orden_de_palabra (Transposicion.normalizar_AZ clave) = Ok order0 ∧
    es_orden_de (Transposicion.normalizar_AZ clave) order0 ∧
    length clave_num = length (Transposicion.normalizar_AZ clave) ∧
    clave_num ≡ₚ seq 1 (length (Transposicion.normalizar_AZ clave)) ∧
    (∀ j i, order0 !! j = Some i → clave_num !! i = Some (1 + j)) ∧
    Transposicion.orden_de_clave clave_num = order0.
Proof.
  destruct (derivar_spec clave) as (clave_num & Hrun & Hlen & Hrank).
  set (w := Transposicion.normalizar_AZ clave) in *.
  destruct (orden_de_palabra_es_orden w) as (order0 & Hord & Hes).
  pose proof Hord as Hord'. rewrite orden_de_palabra_pares in Hord'. injection Hord' as Hpares.
  assert (∀ j i, order0 !! j = Some i → clave_num !! i = Some (1 + j)) as Hinv.
  { intros j i Hi. rewrite <-Hpares, list_lookup_fmap in Hi.
    destruct (py_sorted _ id _ !! j) as [p|] eqn:Hp; [|done].
    simpl in Hi. injection Hi as <-. by apply (Hrank j p). }
  destruct Hes as [Hperm Hsorted].
  exists clave_num, order0. split_and!; try done.
  - (* the values are those of the ranks 1..k *)
    set (f := λ i, default 0 (clave_num !! i)).
    assert (clave_num = f <$> seq 0 (length w)) as E1.
    { apply list_eq. intros i. rewrite list_lookup_fmap. unfold f.
      destruct (clave_num !! i) as [v|] eqn:Hv.
      - rewrite lookup_seq_lt by (rewrite <-Hlen; by eapply lookup_lt_Some).
        simpl. by rewrite Hv.
      - rewrite lookup_seq_ge; [done|]. rewrite <-Hlen. by apply lookup_ge_None. }
    assert (length order0 = length w) as Hlo by (by rewrite Hperm, length_seq).
    assert (f <$> order0 = seq 1 (length w)) as E2.
    { apply list_eq. intros j. rewrite list_lookup_fmap. unfold f.
      destruct (order0 !! j) as [i|] eqn:Hi; simpl.
      - rewrite (Hinv j i Hi). simpl.
        rewrite lookup_seq_lt by (rewrite <-Hlo; by eapply lookup_lt_Some). done.
      - rewrite lookup_seq_ge; [done|]. rewrite <-Hlo. by apply lookup_ge_None. }
    rewrite E1, <-Hperm, E2. done.
  - apply orden_de_clave_unique; [by rewrite Hlen|done].
Qed.

Example derivar_ROMA :
  @Transposicion.derivar_clave_numerica ascii_unicode (pystr "Roma") = OkD [4; 3; 2; 1] ∧
  @Transposicion.derivar_clave_numerica ascii_unicode (pystr "diamante")
  = OkD [3; 5; 1; 6; 2; 7; 8; 4].
Proof. split; reflexivity. Qed.

(** ** The padded cipher *)

(** The number of rows: the least [filas] with [filas * k >= L]. *)
Lemma filas_techo (L k : nat) :
  1 ≤ k →
  let filas := Z.to_nat (- (- Z.of_nat L / Z.of_nat k)) in
  L ≤ filas * k ∧ filas * k < L + k ∧ filas * k - L = (k - L mod k) mod k.
Proof.
  intros Hk filas.
  pose proof (Z.div_mod (- Z.of_nat L) (Z.of_nat k) ltac:(lia)) as Hdm.
  pose proof (Z.mod_pos_bound (- Z.of_nat L) (Z.of_nat k) ltac:(lia)) as Hmb.
  assert (Z.of_nat filas = - (- Z.of_nat L / Z.of_nat k))%Z as Hf.
  { unfold filas. rewrite Z2Nat.id; [done|]. nia. }
  assert (L ≤ filas * k ∧ filas * k < L + k) as [H1 H2] by nia.
  split; [done|]. split; [done|].
  pose proof (Nat.div_mod_eq L k) as Hdn.
  pose proof (Nat.mod_upper_bound L k ltac:(lia)) as Hmn.
  destruct (decide (L mod k = 0)) as [Hz|Hnz].
  - rewrite Hz, Nat.sub_0_r, Nat.Div0.mod_same.
    assert (filas = L / k) by nia. nia.
  - rewrite Nat.mod_small by lia.
    assert (filas = L / k + 1) by nia. nia.
Qed.

Lemma range_step_filas (k filas : nat) :
  1 ≤ k → range_step 0 (filas * k) k = (λ j, k * j) <$> seq 0 filas.
Proof.
  intros Hk. unfold range_step.
  replace (filas * k - 0 + k - 1) with (filas * k + (k - 1)) by lia.
  rewrite Nat.div_add_l by lia. rewrite (Nat.div_small (k - 1) k) by lia.
  rewrite Nat.add_0_r. apply list_fmap_ext. intros _ j _. simpl. lia.
Qed.

Lemma pares_bind_fmap {B : Type} (g : nat * nat → B) (l1 l2 : list nat) :
  g <$> (c ← l1; f ← l2; [(c, f)]) = l1 ≫= λ c, (λ f, g (c, f)) <$> l2.
Proof.
  induction l1 as [|c l1 IH]; [done|].
  rewrite !bind_cons, fmap_app, IH. f_equal.
  clear IH. induction l2 as [|f l2 IH]; [done|].
  rewrite bind_cons, fmap_app, IH. done.
Qed.

(** What [cifrar_columnar] returns: the padded text read column by
    column, in the order of the key. *)
Lemma cifrar_columnar_columnas (texto : list N) (clave_num : list nat) :
  let k := length clave_num in
  let filas := Z.to_nat (- (- Z.of_nat (length texto) / Z.of_nat k)) in
  let T := texto ++ replicate (filas * k - length texto) 88%N in
  1 ≤ k →
  Transposicion.cifrar_columnar texto clave_num
  = Ok (Transposicion.orden_de_clave clave_num
        ≫= λ c, (λ f, T !!! (k * f + c)) <$> seq 0 filas).
Proof.
  intros k filas T Hk. unfold Transposicion.cifrar_columnar. fold k.
  rewrite bool_decide_eq_false_2 by lia. fold filas. fold T.
  destruct (filas_techo (length texto) k Hk) as (H1 & H2 & _). fold filas in H1, H2.
  assert (length T = filas * k) as HT.
  { unfold T. rewrite length_app, length_replicate. lia. }
  rewrite HT, range_step_filas by done.
  rewrite (mapM_res_Ok _ (λ cf : nat * nat, T !!! (k * cf.2 + cf.1))).
  { by rewrite pares_bind_fmap. }
  intros [c0 f0] Hin. cbn [fst snd].
  apply list_elem_of_bind in Hin as (c & Hin & Hc).
  apply list_elem_of_bind in Hin as (f & Hin & Hf).
  apply list_elem_of_singleton in Hin as [= -> ->].
  rewrite orden_de_clave_perm in Hc. apply elem_of_seq in Hc, Hf. fold k in Hc.
  rewrite (getitem_nat _ f (slice T (k * f) (k * f + k))).
  2:{ rewrite <-list_fmap_compose, list_lookup_fmap, lookup_seq_lt by lia. done. }
  cbn [mbind res_bind].
  assert (k * f + c < length T) as Hlt by nia.
  destruct (lookup_lt_is_Some_2 T (k * f + c) Hlt) as [ch Hch].
  rewrite (list_lookup_total_correct _ _ _ Hch).
  apply getitem_nat. rewrite slice_take_drop, lookup_take_lt by lia.
  by rewrite lookup_drop.
Qed.

Lemma es_reparto_columna (T : list N) (k filas : nat) (cols : list (list N)) (c : nat) :
  1 ≤ k → length T = filas * k → es_reparto T k cols → c < k →
  cols !!! c = (λ f, T !!! (k * f + c)) <$> seq 0 filas.
Proof.
  intros Hk HT Hinv Hc. pose proof Hinv as [Hcl Hrows].
  destruct (lookup_lt_is_Some_2 cols c) as [col Hcol]; [lia|].
  rewrite (list_lookup_total_correct _ _ _ Hcol).
  pose proof (es_reparto_length T k cols c col Hk Hinv Hcol) as HL.
  rewrite HT, Nat.div_mul, Nat.Div0.mod_mul in HL by lia.
  rewrite bool_decide_eq_false_2 in HL by lia.
  apply list_eq. intros f. rewrite list_lookup_fmap, (Hrows c col Hcol f).
  destruct (decide (f < filas)) as [Hf|Hf].
  - rewrite lookup_seq_lt by done. simpl.
    assert (f * k + c < length T) as Hlt by nia.
    destruct (lookup_lt_is_Some_2 T (f * k + c) Hlt) as [ch Hch].
    rewrite Hch. f_equal. replace (k * f + c) with (f * k + c) by lia.
    by rewrite (list_lookup_total_correct _ _ _ Hch).
  - rewrite lookup_seq_ge by lia. simpl. apply lookup_ge_None. nia.
Qed.

Lemma bind_concat_fmap {A B : Type} (g : A → list B) (l : list A) :
  l ≫= g = concat (g <$> l).
Proof. induction l as [|x l IH]; [done|]. by rewrite bind_cons, fmap_cons, IH. Qed.

Lemma forallb_is_AZ_app (s t : list N) :
  forallb is_AZ (s ++ t) = true ↔ forallb is_AZ s = true ∧ forallb is_AZ t = true.
Proof. rewrite forallb_app. apply andb_true_iff. Qed.

Lemma forallb_is_AZ_relleno (n : nat) : forallb is_AZ (replicate n 88%N) = true.
Proof. induction n as [|n IH]; [done|]. simpl. by rewrite IH. Qed.

(** The cryptogram of [cifrar_columnar] in terms of the cyclic distribution
    of the padded text over the columns. *)
Lemma cifrar_columnar_reparto {U : Unicode} (texto : list N) (clave_num : list nat) :
  let k := length clave_num in
  let T := texto ++ replicate ((k - length texto mod k) mod k) 88%N in
  1 ≤ k →
  ∃ cols filas,
    length T = filas * k ∧ es_reparto T k cols ∧
    Forall (λ col, length col = filas) cols ∧
    Transposicion.cifrar_columnar texto clave_num
    = Ok (concat ((λ i, cols !!! i) <$> Transposicion.orden_de_clave clave_num)).
Proof.
  intros k T Hk. rewrite cifrar_columnar_columnas by done. fold k.
  destruct (filas_techo (length texto) k Hk) as (H1 & H2 & H3).
  set (filas := Z.to_nat _) in *. rewrite H3. fold T.
  assert (length T = filas * k) as HT.
  { unfold T. rewrite length_app, length_replicate, <-H3. lia. }
  set (orden := Transposicion.orden_de_clave clave_num).
  assert (orden ≡ₚ seq 0 k) as Hperm by apply orden_de_clave_perm.
  destruct (perm_seq_facts k orden Hperm) as (Hnd & Hlt & Hlen).
  destruct (repartir_spec T k Hk) as (cols & _ & Hinv).
  exists cols, filas. split_and!; [done|done| |].
  - apply Forall_lookup. intros c col Hcol.
    rewrite (es_reparto_length T k cols c col Hk Hinv Hcol).
    rewrite HT, Nat.div_mul, Nat.Div0.mod_mul by lia.
    rewrite bool_decide_eq_false_2 by lia. lia.
  - f_equal. rewrite bind_concat_fmap. f_equal. apply Forall_fmap_ext_1.
    eapply Forall_impl; [exact Hlt|]. intros c Hc. simpl in Hc |- *.
    symmetry. by apply es_reparto_columna.
Qed.

(** X20. The cipher of transposicion.py.  [cifrar_columnar] raises
    ZeroDivisionError on an empty key.  On a key of k >= 1 values it pads
    the text with (k - len mod k) mod k letters X, returns a rearrangement
    of the padded text, whose length is a multiple of k, and on a text of
    letters A-Z that cryptogram is the one that [cifrar_por_orden_var] of
    transposition_word.py returns for the padded text, the read order that
    sorts the columns by the key, and the down direction. *)
Theorem cifrar_columnar_spec {U : Unicode} {UA : UnicodeAZ U} (texto : list N)
    (clave_num : list nat) :
  (clave_num = [] →
   Transposicion.cifrar_columnar texto clave_num = Raise ZeroDivisionError) ∧
  (clave_num ≠ [] →
   let k := length clave_num in
   let relleno := replicate ((k - length texto mod k) mod k) 88%N in
   ∃ C, Transposicion.cifrar_columnar texto clave_num = Ok C ∧
        C ≡ₚ texto ++ relleno ∧
        length C mod k = 0 ∧
        (forallb is_AZ texto = true →
         TranspositionWord.cifrar_por_orden_var (texto ++ relleno)
           ((λ i, Z.of_nat i + 1)%Z <$> Transposicion.orden_de_clave clave_num) Down
         = Ok C)).
Proof.
  split; [by intros ->|]. intros Hne k relleno.
  assert (1 ≤ k) as Hk by (unfold k; destruct clave_num; simpl; [done|lia]).
  destruct (cifrar_columnar_reparto texto clave_num Hk) as (cols & filas & HT & Hinv & _ & ->).
  fold k relleno in HT, Hinv. set (T := texto ++ relleno) in *.
  set (orden := Transposicion.orden_de_clave clave_num).
  assert (orden ≡ₚ seq 0 k) as Hperm by apply orden_de_clave_perm.
  destruct (perm_seq_facts k orden Hperm) as (_ & _ & Hlen).
  pose proof (cifrar_perm T k orden Down cols Hk Hinv Hperm) as HCperm.
  eexists. split; [done|]. split_and!.
  - exact HCperm.
  - rewrite HCperm, HT. apply Nat.Div0.mod_mul.
  - intros HAZ.
    assert (forallb is_AZ T = true) as HTAZ.
    { apply forallb_is_AZ_app. split; [done|apply forallb_is_AZ_relleno]. }
    destruct (cifrar_spec T k orden ((λ i, Z.of_nat i + 1)%Z <$> orden) Down Hk)
      as (cols2 & Hinv2 & ->); [by rewrite length_fmap| |done|].
    { rewrite <-list_fmap_compose. apply list_fmap_ext. intros _ i _. simpl. lia. }
    rewrite normalizar_AZ_id in Hinv2 by done.
    by rewrite (es_reparto_unique T k cols2 cols Hinv2 Hinv).
Qed.

Lemma cifrar_columnar_spec_witness :
  ∃ C, Transposicion.cifrar_columnar (pystr "ATAQUEALALBA") [4; 3; 2; 1; 5] = Ok C ∧
       C ≡ₚ pystr "ATAQUEALALBA" ++ replicate ((5 - 12 mod 5) mod 5) 88%N ∧
       length C mod 5 = 0 ∧
       @TranspositionWord.cifrar_por_orden_var ascii_unicode
         (pystr "ATAQUEALALBA" ++ replicate ((5 - 12 mod 5) mod 5) 88%N)
         ((λ i, Z.of_nat i + 1)%Z <$> Transposicion.orden_de_clave [4; 3; 2; 1; 5]) Down
       = Ok C.
Proof.
  destruct (proj2 (@cifrar_columnar_spec ascii_unicode ascii_unicode_AZ
                     (pystr "ATAQUEALALBA") [4; 3; 2; 1; 5]) ltac:(done))
    as (C & H1 & H2 & H3 & H4).
  exists C. split_and!; [exact H1|exact H2|exact H3|]. apply H4. reflexivity.
Defined.

Example cifrar_columnar_ejemplo :
  Transposicion.cifrar_columnar (pystr "ATAQUEALALBA") [4; 3; 2; 1; 5]
  = Ok (pystr "QAXALXTAAAEBULX").
Proof. reflexivity. Qed.

(** ** The decoder of transposicion.py *)

Lemma normalizar_AZ_columnar_id {U : Unicode} {UA : UnicodeAZ U} (s : list N) :
  forallb is_AZ s = true → Transposicion.normalizar_AZ s = s.
Proof.
  intros Hs. unfold Transposicion.normalizar_AZ. rewrite (str_upper_AZ s Hs).
  pose proof (proj1 (forallb_is_AZ_Forall s) Hs) as HF.
  assert ((λ ch, if bool_decide (ch = 209%N) then 78%N else ch) <$> s = s) as ->.
  { clear Hs. induction HF as [|ch s Hch _ IH]; [done|].
    rewrite fmap_cons, IH. rewrite bool_decide_eq_false_2; [done|]. by intros ->. }
  rewrite (normalize_NFD_AZ s Hs).
  rewrite (filter_id_Forall (λ ch, unicodedata_category_Mn ch = false)).
  2:{ eapply Forall_impl; [exact HF|]. intros ch Hch. by apply category_Mn_AZ. }
  by apply filter_id_Forall.
Qed.

(** The dictionary loop of [descifrar_columnar], lines 111-113: the column
    at position [j] of [orden] receives the [j]-th segment. *)
Lemma contenido_loop (W : list N) (filas : nat) (orden : list nat)
    (d0 : gmap nat (list N)) (i0 : nat) :
  NoDup orden →
  ∀ j c, orden !! j = Some c →
    (foldl (λ (st : gmap nat (list N) * nat) col,
              (<[col := slice W st.2 (st.2 + filas)]> st.1, st.2 + filas))
           (d0, i0) orden).1 !! c
    = cortar W i0 (replicate (length orden) filas) !! j.
Proof.
  revert d0 i0. induction orden as [|q orden IH]; intros d0 i0 Hnd j c Hc; [done|].
  apply NoDup_cons in Hnd as [Hq Hnd]. cbn [foldl fst snd length replicate cortar].
  destruct j as [|j]; simpl in Hc.
  - injection Hc as <-. clear IH. cbn [lookup list_lookup].
    assert (∀ (l : list nat) d i, q ∉ l →
              (foldl (λ (st : gmap nat (list N) * nat) col,
                        (<[col := slice W st.2 (st.2 + filas)]> st.1, st.2 + filas))
                     (d, i) l).1 !! q = d !! q) as Hkeep.
    { intros l. induction l as [|x l IHl]; intros d i Hx; [done|].
      apply not_elem_of_cons in Hx as [Hne Hx]. cbn [foldl fst snd].
      rewrite IHl by done. by apply lookup_insert_ne. }
    rewrite Hkeep by done. apply lookup_insert_eq.
  - exact (IH _ _ Hnd j c Hc).
Qed.

Lemma colocar_celda_Ok (contenido : gmap nat (list N)) (M : list (list (list N)))
    (c f : nat) (seg : list N) (ch : N) (fila : list (list N)) :
  contenido !! c = Some seg → seg !! f = Some ch → M !! f = Some fila → c < length fila →
  Transposicion.colocar_celda contenido M (c, f) = OkD (<[f := <[c := [ch]]> fila]> M).
Proof.
  intros Hc Hf HM Hlt. unfold Transposicion.colocar_celda, dict_getitem. cbn [fst snd].
  rewrite Hc. cbn [mbind resd_bind].
  rewrite (getitem_nat _ _ _ Hf). cbn [de_res mbind resd_bind].
  rewrite (getitem_nat _ _ _ HM). cbn [de_res mbind resd_bind].
  rewrite setitem_nat by done. cbn [de_res mbind resd_bind].
  rewrite setitem_nat by (by eapply lookup_lt_Some). done.
Qed.

(** The two nested loops of line 118-120: every cell named in [celdas] is
    written, the others are left as they were. *)
Lemma colocar_loop (contenido : gmap nat (list N)) (g : nat → nat → list N)
    (k filas : nat) (celdas : list (nat * nat)) (M : list (list (list N))) :
  (∀ c f, (c, f) ∈ celdas →
     c < k ∧ f < filas ∧
     ∃ seg ch, contenido !! c = Some seg ∧ seg !! f = Some ch ∧ g f c = [ch]) →
  length M = filas → Forall (λ fila, length fila = k) M →
  ∃ M', foldMD (Transposicion.colocar_celda contenido) M celdas = OkD M' ∧
        length M' = filas ∧ Forall (λ fila, length fila = k) M' ∧
        ∀ f c, M' !! f ≫= (.!! c)
               = if decide ((c, f) ∈ celdas) then Some (g f c) else M !! f ≫= (.!! c).
Proof.
  revert M. induction celdas as [|[c0 f0] celdas IH]; intros M Hcel HlM HF.
  { exists M. by split_and!. }
  destruct (Hcel c0 f0 ltac:(left)) as (Hc0 & Hf0 & seg & ch & Hseg & Hch & Hg).
  destruct (lookup_lt_is_Some_2 M f0) as [fila Hfila]; [lia|].
  assert (length fila = k) as Hlf by (by eapply Forall_lookup_1 in HF).
  cbn [foldMD].
  rewrite (colocar_celda_Ok contenido M c0 f0 seg ch fila) by (done || lia).
  cbn [mbind resd_bind].
  destruct (IH (<[f0 := <[c0 := [ch]]> fila]> M)) as (M' & Hrun & HlM' & HF' & Hcell).
  { intros c f Hin. apply Hcel. by right. }
  { by rewrite length_insert. }
  { apply Forall_insert; [done|]. by rewrite length_insert. }
  exists M'. split_and!; try done. intros f c. rewrite Hcell.
  destruct (decide ((c, f) ∈ celdas)) as [Hin|Hin].
  { by rewrite decide_True by (by right). }
  destruct (decide (f = f0)) as [->|Hne].
  - rewrite list_lookup_insert_eq by lia. cbn [mbind option_bind].
    destruct (decide (c = c0)) as [->|Hnc].
    + rewrite list_lookup_insert_eq by lia. rewrite decide_True by left. by rewrite Hg.
    + rewrite list_lookup_insert_ne by done.
      rewrite decide_False. { by rewrite Hfila. }
      intros [?|?]%elem_of_cons; [congruence|done].
  - rewrite list_lookup_insert_ne by done.
    rewrite decide_False; [done|]. intros [?|?]%elem_of_cons; [congruence|done].
Qed.

(** Line 123: the join of the joined rows. *)
Lemma matriz_leer (M : list (list (list N))) (k filas : nat) (g : nat → nat → list N) :
  length M = filas → Forall (λ fila, length fila = k) M →
  (∀ f c, f < filas → c < k → M !! f ≫= (.!! c) = Some (g f c)) →
  concat ((λ fila : list (list N), concat fila) <$> M)
  = seq 0 filas ≫= λ f, seq 0 k ≫= λ c, g f c.
Proof.
  intros HlM HF Hcell.
  assert (M = (λ f, (λ c, g f c) <$> seq 0 k) <$> seq 0 filas) as ->.
  { apply list_eq. intros f. rewrite list_lookup_fmap.
    destruct (decide (f < filas)) as [Hf|Hf].
    - rewrite lookup_seq_lt by done. simpl.
      destruct (lookup_lt_is_Some_2 M f) as [fila Hfila]; [lia|].
      rewrite Hfila. f_equal.
      assert (length fila = k) as Hlf by (by eapply Forall_lookup_1 in HF).
      apply list_eq. intros c. rewrite list_lookup_fmap.
      destruct (decide (c < k)) as [Hc|Hc].
      + rewrite lookup_seq_lt by done. simpl.
        specialize (Hcell f c Hf Hc). by rewrite Hfila in Hcell.
      + rewrite lookup_seq_ge by lia. simpl. apply lookup_ge_None. lia.
    - rewrite lookup_seq_ge by lia. simpl. apply lookup_ge_None. lia. }
  rewrite <-list_fmap_compose, bind_concat_fmap. f_equal.
  apply list_fmap_ext. intros _ f _. simpl. by rewrite bind_concat_fmap.
Qed.

Lemma celdas_elem (k filas c f : nat) :
  (c, f) ∈ (col ← seq 0 k; f ← seq 0 filas; [(col, f)]) ↔ c < k ∧ f < filas.
Proof.
  rewrite list_elem_of_bind. split.
  - intros (c' & Hin & Hc). apply list_elem_of_bind in Hin as (f' & Hin & Hf).
    apply list_elem_of_singleton in Hin as [= -> ->].
    apply elem_of_seq in Hc, Hf. lia.
  - intros [Hc Hf]. exists c. split; [|apply elem_of_seq; lia].
    apply list_elem_of_bind. exists f. split; [by apply list_elem_of_singleton|].
    apply elem_of_seq. lia.
Qed.

(** What [descifrar_columnar] returns on a non-empty key: the row-major
    read of the grid whose column [orden[j]] is the [j]-th segment of
    [filas] symbols of the normalised cryptogram. *)
Lemma descifrar_columnar_columnas {U : Unicode} (C : list N) (clave_num : list nat) :
  let k := length clave_num in
  let W := Transposicion.normalizar_AZ C in
  let filas := length W / k in
  1 ≤ k →
  ∃ cols,
    length cols = k ∧
    (∀ j c, Transposicion.orden_de_clave clave_num !! j = Some c →
       cols !! c = cortar W 0 (replicate k filas) !! j) ∧
    Transposicion.descifrar_columnar C clave_num = OkD (leer_filas cols k filas).
Proof.
  intros k W filas Hk. unfold Transposicion.descifrar_columnar. fold k W.
  rewrite bool_decide_eq_false_2 by lia. fold filas.
  set (orden := Transposicion.orden_de_clave clave_num).
  assert (orden ≡ₚ seq 0 k) as Hperm by apply orden_de_clave_perm.
  destruct (perm_seq_facts k orden Hperm) as (Hnd & Hlt & Hlen).
  set (contenido := (foldl _ _ orden).1).
  set (segs := cortar W 0 (replicate k filas)).
  assert (∀ j c, orden !! j = Some c → contenido !! c = segs !! j) as Hcont.
  { intros j c Hj. unfold contenido, segs. rewrite <-Hlen. by apply contenido_loop. }
  assert (length <$> segs = replicate k filas) as Hsl.
  { apply cortar_lengths. rewrite sum_list_replicate.
    pose proof (Nat.Div0.mul_div_le (length W) k). fold filas in H. lia. }
  assert (length segs = k) as Hsk.
  { unfold segs. by rewrite cortar_length, length_replicate. }
  set (cols := (λ c, default [] (contenido !! c)) <$> seq 0 k).
  assert (∀ c, c < k → ∃ j seg, orden !! j = Some c ∧ contenido !! c = Some seg ∧
                                cols !! c = Some seg ∧ segs !! j = Some seg ∧
                                length seg = filas) as Hcol.
  { intros c Hc.
    assert (c ∈ orden) as Hin by (rewrite Hperm; apply elem_of_seq; lia).
    apply list_elem_of_lookup in Hin as [j Hj].
    assert (j < k) as Hjk by (rewrite <-Hlen; by eapply lookup_lt_Some).
    destruct (lookup_lt_is_Some_2 segs j) as [seg Hseg]; [lia|].
    exists j, seg. split_and!; try done.
    - by rewrite (Hcont j c Hj).
    - unfold cols. rewrite list_lookup_fmap, lookup_seq_lt by done. simpl.
      by rewrite (Hcont j c Hj), Hseg.
    - assert ((length <$> segs) !! j = Some (length seg)) as Hl
        by (by rewrite list_lookup_fmap, Hseg).
      rewrite Hsl in Hl. apply lookup_replicate in Hl as [? _]. done. }
  exists cols. split_and!.
  - unfold cols. by rewrite length_fmap, length_seq.
  - intros j c Hj.
    assert (c < k) as Hc.
    { eapply Forall_forall in Hlt; [exact Hlt|]. by eapply list_elem_of_lookup_2. }
    destruct (Hcol c Hc) as (j' & seg & Hj' & _ & Hcs & Hseg & _).
    assert (j' = j) as -> by (by eapply NoDup_lookup).
    by rewrite Hcs, Hseg.
  - destruct (colocar_loop contenido (λ f c, celda cols f c) k filas
                (col ← seq 0 k; f ← seq 0 filas; [(col, f)])
                (replicate filas (replicate k [])))
      as (M' & -> & HlM' & HF' & Hcell).
    + intros c f [Hc Hf]%celdas_elem. split; [done|]. split; [done|].
      destruct (Hcol c Hc) as (j & seg & _ & Hcs & Hcc & _ & Hls).
      destruct (lookup_lt_is_Some_2 seg f) as [ch Hch]; [lia|].
      exists seg, ch. split_and!; try done. unfold celda. by rewrite Hcc, Hch.
    + apply length_replicate.
    + apply Forall_replicate. apply length_replicate.
    + cbn [mbind resd_bind]. f_equal. unfold leer_filas.
      apply (matriz_leer M' k filas (λ f c, celda cols f c)); [done|done|].
      intros f c Hf Hc. rewrite Hcell. rewrite decide_True; [done|].
      by apply celdas_elem.
Qed.

Lemma columnas_por_orden (cols segs : list (list N)) (orden : list nat) (k : nat) :
  orden ≡ₚ seq 0 k → length cols = k → length segs = k →
  (∀ j c, orden !! j = Some c → cols !! c = segs !! j) →
  (λ i, cols !!! i) <$> orden = segs.
Proof.
  intros Hperm Hlc Hls H. destruct (perm_seq_facts k orden Hperm) as (Hnd & Hlt & Hlen).
  apply list_eq. intros j. rewrite list_lookup_fmap.
  destruct (orden !! j) as [c|] eqn:Hj; simpl.
  - assert (c < k) as Hc.
    { eapply Forall_forall in Hlt; [exact Hlt|]. by eapply list_elem_of_lookup_2. }
    destruct (lookup_lt_is_Some_2 cols c) as [col Hcol]; [lia|].
    rewrite (list_lookup_total_correct _ _ _ Hcol). by rewrite <-(H j c Hj).
  - symmetry. apply lookup_ge_None. apply lookup_ge_None in Hj. lia.
Qed.

(** X22. The decoder of transposicion.py on any input.  On an empty key
    [descifrar_columnar] raises ZeroDivisionError.  On a key of k >= 1
    values it returns, and it never raises KeyError or IndexError: the
    result is a rearrangement of the first (len / k) * k letters of the
    normalised cryptogram, so the last len mod k letters are dropped
    without a message. *)
Theorem descifrar_columnar_total {U : Unicode} (C : list N) (clave_num : list nat) :
  (clave_num = [] →
   Transposicion.descifrar_columnar C clave_num = RaiseD (Runtime ZeroDivisionError)) ∧
  (clave_num ≠ [] →
   let k := length clave_num in
   let W := Transposicion.normalizar_AZ C in
   ∃ P, Transposicion.descifrar_columnar C clave_num = OkD P ∧
        P ≡ₚ take (length W / k * k) W ∧
        length P = length W - length W mod k).
Proof.
  split; [by intros ->|]. intros Hne k W.
  assert (1 ≤ k) as Hk by (unfold k; destruct clave_num; simpl; [done|lia]).
  destruct (descifrar_columnar_columnas C clave_num Hk) as (cols & Hlc & Hcols & ->).
  fold k W in Hlc, Hcols |- *. set (filas := length W / k) in *.
  set (orden := Transposicion.orden_de_clave clave_num) in *.
  assert (orden ≡ₚ seq 0 k) as Hperm by apply orden_de_clave_perm.
  assert (filas * k ≤ length W) as Hle.
  { pose proof (Nat.Div0.mul_div_le (length W) k). fold filas in H. lia. }
  pose proof (columnas_por_orden cols (cortar W 0 (replicate k filas)) orden k Hperm Hlc
                ltac:(by rewrite cortar_length, length_replicate) Hcols) as Hsegs.
  assert (length <$> cortar W 0 (replicate k filas) = replicate k filas) as Hsl.
  { apply cortar_lengths. rewrite sum_list_replicate. lia. }
  assert (leer_filas cols k filas ≡ₚ take (filas * k) W) as HP.
  { rewrite <-Hlc at 1. rewrite leer_filas_perm.
    - trans (concat ((λ i, cols !!! i) <$> orden)).
      + rewrite Hperm, <-Hlc, fmap_lookup_total_seq. done.
      + rewrite Hsegs, cortar_concat, sum_list_replicate, drop_0.
        by rewrite (Nat.mul_comm k filas).
    - apply Forall_lookup. intros c col Hcol.
      assert (c < k) as Hc by (rewrite <-Hlc; by eapply lookup_lt_Some).
      assert (c ∈ orden) as Hin by (rewrite Hperm; apply elem_of_seq; lia).
      apply list_elem_of_lookup in Hin as [j Hj].
      rewrite (Hcols j c Hj) in Hcol.
      assert ((length <$> cortar W 0 (replicate k filas)) !! j = Some (length col)) as Hl
        by (by rewrite list_lookup_fmap, Hcol).
      rewrite Hsl in Hl. apply lookup_replicate in Hl as [-> _]. done. }
  eexists. split; [done|]. split; [done|].
  rewrite HP, length_take. pose proof (Nat.div_mod_eq (length W) k). fold filas in H. lia.
Qed.

Example descifrar_columnar_trunca :
  @Transposicion.descifrar_columnar ascii_unicode (pystr "ABCDEFGH") [2; 1; 3]
  = OkD (pystr "CAEDBF").
Proof. reflexivity. Qed.

(** X21. Round trip of transposicion.py.  For a text of letters A-Z and any
    non-empty numeric key, deciphering the cryptogram that [cifrar_columnar]
    returns gives the text followed by the (k - len mod k) mod k letters X
    of the padding: the text itself when its length is a multiple of k, and
    otherwise a text from which the padding is not removed. *)
Theorem columnar_round_trip {U : Unicode} {UA : UnicodeAZ U} (texto : list N)
    (clave_num : list nat) :
  clave_num ≠ [] → forallb is_AZ texto = true →
  let k := length clave_num in
  ∃ C, Transposicion.cifrar_columnar texto clave_num = Ok C ∧
       Transposicion.descifrar_columnar C clave_num
       = OkD (texto ++ replicate ((k - length texto mod k) mod k) 88%N).
Proof.
  intros Hne HAZ k.
  assert (1 ≤ k) as Hk by (unfold k; destruct clave_num; simpl; [done|lia]).
  destruct (cifrar_columnar_reparto texto clave_num Hk) as (colsT & filas & HT & Hinv & HF & ->).
  fold k in HT, Hinv. set (T := texto ++ _) in *.
  set (orden := Transposicion.orden_de_clave clave_num).
  assert (orden ≡ₚ seq 0 k) as Hperm by apply orden_de_clave_perm.
  destruct (perm_seq_facts k orden Hperm) as (Hnd & Hlt & Hlen).
  set (C := concat ((λ i, colsT !!! i) <$> orden)).
  pose proof (cifrar_perm T k orden Down colsT Hk Hinv Hperm) as HCperm.
  change (orientar Down colsT) with colsT in HCperm. fold C in HCperm.
  assert (forallb is_AZ T = true) as HTAZ.
  { apply forallb_is_AZ_app. split; [done|apply forallb_is_AZ_relleno]. }
  assert (forallb is_AZ C = true) as HCAZ.
  { apply forallb_is_AZ_Forall. rewrite HCperm. by apply forallb_is_AZ_Forall. }
  exists C. split; [done|].
  destruct (descifrar_columnar_columnas C clave_num Hk) as (cols & Hlc & Hcols & ->).
  fold k orden in Hlc, Hcols |- *.
  rewrite (normalizar_AZ_columnar_id C HCAZ) in Hcols |- *.
  assert (length C = filas * k) as HlC by (by rewrite HCperm).
  rewrite HlC, Nat.div_mul in Hcols |- * by lia.
  pose proof Hinv as [HlT _].
  assert (length <$> ((λ i, colsT !!! i) <$> orden) = replicate k filas) as Hls.
  { rewrite <-Hlen. rewrite <-list_fmap_compose.
    apply list_eq. intros j. rewrite list_lookup_fmap.
    destruct (orden !! j) as [c|] eqn:Hj; simpl.
    - rewrite lookup_replicate_2 by (by eapply lookup_lt_Some). f_equal.
      assert (c < k) as Hc.
      { eapply Forall_forall in Hlt; [exact Hlt|]. by eapply list_elem_of_lookup_2. }
      destruct (lookup_lt_is_Some_2 colsT c) as [col Hcol]; [lia|].
      rewrite (list_lookup_total_correct _ _ _ Hcol).
      by eapply Forall_lookup_1 in HF.
    - symmetry. apply lookup_replicate_None. by apply lookup_ge_None in Hj. }
  assert (cortar C 0 (replicate k filas) = (λ i, colsT !!! i) <$> orden) as Hcut.
  { rewrite <-Hls. unfold C.
    exact (eq_trans
             (f_equal (λ s, cortar s 0 (length <$> ((λ i, colsT !!! i) <$> orden)))
                      (eq_sym (app_nil_r _)))
             (cortar_exact [] [] ((λ i, colsT !!! i) <$> orden))). }
  rewrite Hcut in Hcols.
  assert (cols = colsT) as ->.
  { apply list_eq. intros c. destruct (decide (c < k)) as [Hc|Hc].
    - assert (c ∈ orden) as Hin by (rewrite Hperm; apply elem_of_seq; lia).
      apply list_elem_of_lookup in Hin as [j Hj].
      rewrite (Hcols j c Hj), list_lookup_fmap, Hj. simpl.
      destruct (lookup_lt_is_Some_2 colsT c) as [col Hcol]; [lia|].
      by rewrite (list_lookup_total_correct _ _ _ Hcol).
    - rewrite (proj2 (lookup_ge_None cols c)) by lia.
      by rewrite (proj2 (lookup_ge_None colsT c)) by lia. }
  f_equal. rewrite (leer_filas_take colsT T).
  - apply take_ge. lia.
  - intros c r Hc. by apply es_reparto_celda.
Qed.

Lemma columnar_round_trip_witness :
  ∃ C, Transposicion.cifrar_columnar (pystr "ATAQUEALALBA") [4; 3; 2; 1; 5] = Ok C ∧
       @Transposicion.descifrar_columnar ascii_unicode C [4; 3; 2; 1; 5]
       = OkD (pystr "ATAQUEALALBA" ++ replicate ((5 - 12 mod 5) mod 5) 88%N).
Proof.
  apply (@columnar_round_trip ascii_unicode ascii_unicode_AZ
           (pystr "ATAQUEALALBA") [4; 3; 2; 1; 5]); done.
Defined.

Example columnar_round_trip_ejemplo :
  @Transposicion.descifrar_columnar ascii_unicode (pystr "QAXALXTAAAEBULX") [4; 3; 2; 1; 5]
  = OkD (pystr "ATAQUEALALBAXXX").
Proof. reflexivity. Qed.

